(** * Locale analyzer: key extraction, locale store, reconciliation, mutation

    A shallow embedding of the i18n locale analyzer (the command-line script
    with [getKeys], [setNestedKey], [removeKey], [loadLocale],
    [analyzeLocales], [addMissingKeys], [deleteKeysFromLocale]) and of the
    runtime lookup [t] of the [useTranslate] hook.

    Conventions of the embedding.
    - A JavaScript value read from a locale file is a [json] tree.  An object
      is the list of its own properties in insertion order (the special
      placement of array-index-like names is not modelled; no statement below
      depends on it).
    - A number is kept as an integer: the program only asks whether a value
      is a number and whether it is zero.
    - A string is the sequence of the bytes of its UTF-8 encoding.  The
      program looks at ASCII characters only (the dot, the colon, the quotes,
      the letters of an answer) and at white space, which is recognised in
      its encoding.
    - A JavaScript [Set<string>] is a duplicate-free list in insertion order.
    - In-place mutation of an object becomes a function returning the updated
      object; no tree in the program is shared between two owners.
    - The host functions the script calls but does not define ([JSON.parse],
      [JSON.stringify], [path.join], [String.prototype.localeCompare],
      [process.cwd]) are the fields of the class [Host]; every general
      theorem holds for every host. *)

From Stdlib Require Import ZArith String Ascii List Sorted Permutation DecimalString.
From stdpp Require Import base option list strings gmap.

Local Open Scope string_scope.
Local Open Scope list_scope.
Local Set Warnings "-register-all".

(** ** JSON values *)

Inductive json : Type :=
| JNull
| JBool (b : bool)
| JNum (n : Z)
| JStr (s : string)
| JArr (items : list json)
| JObj (props : list (string * json)).

(** An object: own properties, in insertion order. *)
Abbreviation obj := (list (string * json)).

(** [typeof v === "object" && v !== null && !Array.isArray(v)] *)
Definition is_plain_object (v : json) : bool :=
  match v with JObj _ => true | _ => false end.

(** JavaScript truthiness of a JSON value ([!v] is its negation). *)
Definition truthy (v : json) : bool :=
  match v with
  | JNull => false
  | JBool b => b
  | JNum n => negb (n =? 0)%Z
  | JStr s => negb (s =? "")
  | JArr _ => true
  | JObj _ => true
  end.

(** *** Own properties *)

(** [Object.prototype.hasOwnProperty.call(o, k)] *)
Fixpoint obj_has (o : obj) (k : string) : bool :=
  match o with
  | [] => false
  | (k', _) :: rest => if k' =? k then true else obj_has rest k
  end.

(** [o[k]] for an own property [k]. *)
Fixpoint obj_get (o : obj) (k : string) : option json :=
  match o with
  | [] => None
  | (k', v) :: rest => if k' =? k then Some v else obj_get rest k
  end.

(** [o[k] = v]: an existing property keeps its place, a new one goes last. *)
Fixpoint obj_set (o : obj) (k : string) (v : json) : obj :=
  match o with
  | [] => [(k, v)]
  | (k', v') :: rest =>
      if k' =? k then (k', v) :: rest else (k', v') :: obj_set rest k v
  end.

(** [delete o[k]] *)
Fixpoint obj_delete (o : obj) (k : string) : obj :=
  match o with
  | [] => []
  | (k', v') :: rest =>
      if k' =? k then obj_delete rest k else (k', v') :: obj_delete rest k
  end.

(** *** Sets of strings *)

(** [keys.has(k)] *)
Definition set_has (keys : list string) (k : string) : bool :=
  existsb (String.eqb k) keys.

(** [keys.add(k)] *)
Definition set_add (k : string) (keys : list string) : list string :=
  if set_has keys k then keys else keys ++ [k].

(** [more.forEach((k) => keys.add(k))], also [new Set([...keys, ...more])] *)
Definition set_add_all (more keys : list string) : list string :=
  fold_left (fun acc k => set_add k acc) more keys.

(** ** Key extractor *)

(** [prefix ? `${prefix}.${key}` : key] *)
Definition fullKey (prefix key : string) : string :=
  if prefix =? "" then key else prefix +:+ "." +:+ key.

(** [getKeys(obj, prefix)]: the flattened keys below [v]. *)
Fixpoint getKeys (v : json) (prefix : string) {struct v} : list string :=
  match v with
  | JObj o =>
      (fix each (o : obj) (keys : list string) {struct o} : list string :=
         match o with
         | [] => keys
         | (key, child) :: rest =>
             each rest
               (if is_plain_object child
                then set_add_all (getKeys child (fullKey prefix key)) keys
                else set_add (fullKey prefix key) keys)
         end) o []
  | _ => []
  end.

(** The [for (const key in objRecord)] loop of [getKeys], from [keys] on. *)
Fixpoint getKeys_each (prefix : string) (o : obj) (keys : list string)
  : list string :=
  match o with
  | [] => keys
  | (key, child) :: rest =>
      getKeys_each prefix rest
        (if is_plain_object child
         then set_add_all (getKeys child (fullKey prefix key)) keys
         else set_add (fullKey prefix key) keys)
  end.

(** [key.split(".")] *)
Fixpoint split_dot (s : string) : list string :=
  match s with
  | EmptyString => [EmptyString]
  | String c rest =>
      match split_dot rest with
      | [] => [EmptyString]
      | w :: ws =>
          if Ascii.eqb c "."%char then EmptyString :: w :: ws
          else String c w :: ws
      end
  end.

(** [setNestedKey(obj, keyPath, value)] on an object: the object afterwards.

    Reading [current[key]] consults the prototype chain when [key] is not an
    own property.  Every inherited member of [Object.prototype] but one is a
    function, which the guard replaces by a fresh own object exactly as it
    does for an absent property.  The exception is the accessor [__proto__].
    - As the last segment, where it is not an own property, the assignment
      calls the accessor, which ignores a value that is no object: nothing
      changes.
    - As an earlier segment, where it is not an own property, the guard finds
      [Object.prototype] there and keeps it, and the walk goes on inside
      [Object.prototype].  A last segment [__proto__] is ignored there as
      well.  Any other continuation writes a property of [Object.prototype]
      itself, which every object of the runtime inherits from then on, or is
      refused by it with a [TypeError]: the call has left the tree of own
      properties, and the result is [None]; [setNestedKey_throws] tells the
      two apart.
    An empty [keyPath] never occurs (the callers split a string) and would
    write the property named [undefined]. *)
Fixpoint setNestedKey (o : obj) (keyPath : list string) (value : string)
  : option obj :=
  match keyPath with
  | [] => Some (obj_set o "undefined" (JStr value))
  | [last] =>
      if (last =? "__proto__") && negb (obj_has o last) then Some o
      else Some (obj_set o last (JStr value))
  | key :: rest =>
      match obj_get o key with
      | Some (JObj child) =>
          child' ← setNestedKey child rest value;
          Some (obj_set o key (JObj child'))
      | Some _ =>
          child' ← setNestedKey [] rest value;
          Some (obj_set o key (JObj child'))
      | None =>
          if key =? "__proto__" then
            match rest with
            | [last] => if last =? "__proto__" then Some o else None
            | _ => None
            end
          else
            child' ← setNestedKey [] rest value;
            Some (obj_set o key (JObj child'))
      end
  end.

(** Whether a call throws where [setNestedKey] is [None]: the walk, inside
    [Object.prototype], comes to a segment [__proto__] that is not the last.
    It reads as [null] there, the guard assigns an object to it, and
    [Object.prototype] refuses a new prototype with a [TypeError].  Where
    this is [false] and [setNestedKey] is [None], the call has written a
    property of [Object.prototype]. *)
Fixpoint setNestedKey_throws (o : obj) (keyPath : list string) : bool :=
  match keyPath with
  | [] => false
  | [_] => false
  | key :: rest =>
      match obj_get o key with
      | Some (JObj child) => setNestedKey_throws child rest
      | Some _ => setNestedKey_throws [] rest
      | None =>
          if key =? "__proto__" then
            match rest with
            | next :: _ :: _ => next =? "__proto__"
            | _ => false
            end
          else setNestedKey_throws [] rest
      end
  end.

(** [typeof v === "object"] *)
Definition typeof_object (v : json) : bool :=
  match v with JNull | JArr _ | JObj _ => true | _ => false end.

(** [Array.isArray(v)] *)
Definition is_array (v : json) : bool :=
  match v with JArr _ => true | _ => false end.

(** [Object.keys(v).length === 0] for a value that passed the object guard. *)
Definition no_own_keys (v : json) : bool :=
  match v with JObj [] => true | _ => false end.

(** [removeKey(obj, keyPath)]: the flag returned and the object afterwards.
    The child is mutated in place by the recursive call, so the parent holds
    the child as that call left it.  With an empty [keyPath] (which no caller
    passes) the source follows properties named [undefined] and deletes
    nothing. *)
Fixpoint removeKey (v : json) (keyPath : list string) {struct keyPath}
  : bool * json :=
  match v with
  | JObj o =>
      match keyPath with
      | [] => (false, v)
      | [currentKey] =>
          if obj_has o currentKey
          then (true, JObj (obj_delete o currentKey))
          else (false, v)
      | currentKey :: rest =>
          match obj_get o currentKey with
          | Some child =>
              if typeof_object child && negb (is_array child) then
                let (removed, child') := removeKey child rest in
                if removed && no_own_keys child'
                then (removed, JObj (obj_delete o currentKey))
                else (removed, JObj (obj_set o currentKey child'))
              else (false, v)
          | None => (false, v)
          end
      end
  | _ => (false, v)
  end.

(** ** Runtime lookup (the [useTranslate] hook) *)

(** [type DictionaryValue = string | Dictionary] *)
Inductive DictionaryValue : Type :=
| DStr (s : string)
| DDict (entries : list (string * DictionaryValue)).

(** [type Dictionary = { [key: string]: DictionaryValue }] *)
Abbreviation Dictionary := (list (string * DictionaryValue)).

(** What the variable [value] of [t] can hold: a dictionary or a string of
    the typed tree, or something reached through the prototype chain, which
    the operator [in] consults. *)
Inductive tvalue : Type :=
| TDict (d : Dictionary)
| TStr (s : string)
| TFunction
| TObjectPrototype
| TNull.

Fixpoint dict_get (d : Dictionary) (k : string) : option DictionaryValue :=
  match d with
  | [] => None
  | (k', v) :: rest => if k' =? k then Some v else dict_get rest k
  end.

(** The function-valued properties of [Object.prototype]. *)
Definition Object_prototype_functions : list string :=
  [ "constructor"; "hasOwnProperty"; "isPrototypeOf"; "propertyIsEnumerable";
    "toLocaleString"; "toString"; "valueOf"; "__defineGetter__";
    "__defineSetter__"; "__lookupGetter__"; "__lookupSetter__" ].

Definition of_DictionaryValue (v : DictionaryValue) : tvalue :=
  match v with DStr s => TStr s | DDict d => TDict d end.

(** [value && typeof value === "object"] *)
Definition t_is_object (value : tvalue) : bool :=
  match value with TDict _ | TObjectPrototype => true | _ => false end.

(** [value[k]] when [k in value]; [None] when [k in value] is false. *)
Definition t_member (value : tvalue) (k : string) : option tvalue :=
  match value with
  | TDict d =>
      match dict_get d k with
      | Some v => Some (of_DictionaryValue v)
      | None =>
          if set_has Object_prototype_functions k then Some TFunction
          else if k =? "__proto__" then Some TObjectPrototype
          else None
      end
  | TObjectPrototype =>
      if set_has Object_prototype_functions k then Some TFunction
      else if k =? "__proto__" then Some TNull
      else None
  | _ => None
  end.

(** The [for (const k of keys)] loop of [t] and the final test. *)
Fixpoint t_loop (key : string) (value : tvalue) (keys : list string)
  : string :=
  match keys with
  | [] => match value with TStr s => s | _ => key end
  | k :: rest =>
      if t_is_object value then
        match t_member value k with
        | Some value' => t_loop key value' rest
        | None => key
        end
      else key
  end.

(** [t(key)] with the active [dictionary]. *)
Definition t (dictionary : Dictionary) (key : string) : string :=
  t_loop key (TDict dictionary) (split_dot key).

(** The string or sub-dictionary at a path of own properties; the reference
    against which [t] is compared. *)
Fixpoint resolve (d : Dictionary) (path : list string)
  : option DictionaryValue :=
  match path with
  | [] => Some (DDict d)
  | k :: rest =>
      match dict_get d k with
      | Some (DDict d') => resolve d' rest
      | Some (DStr s) => match rest with [] => Some (DStr s) | _ => None end
      | None => None
      end
  end.

(** ** Host and world *)

(** Result of [JSON.parse]: a value, or a thrown [SyntaxError]. *)
Inductive parsed : Type :=
| Parsed (v : json)
| SyntaxError (message : string).

Class Host : Type := {
  (** [JSON.parse(text)] *)
  JSON_parse : string → parsed;
  (** [JSON.stringify(value, null, 2)] *)
  JSON_stringify : json → string;
  (** [path.join(...segments)] *)
  path_join : list string → string;
  (** [a.localeCompare(b)] *)
  localeCompare : string → string → Z;
  (** [process.cwd()] *)
  cwd : string;
}.

Inductive fsnode : Type :=
| File (content : string)
| Directory.

(** Lines written with [console.error]; [console.log] output is not kept. *)
Inductive diag : Type :=
| LocaleFileError (locale message : string)
| LocalesDirNotFound
| DefaultLocaleNotFound (locale : string).

(** The world the script runs in.  [written] is the history of the
    [fs.writeFile] calls that succeeded, oldest first. *)
Record World : Type := mkWorld {
  files : gmap string fsnode;
  stdin : list string;
  stderr : list diag;
  written : list (string * string);
}.

(** How an asynchronous operation ends: it resolves, its promise never
    settles (a question with no line left to read), it rejects, or it leaves
    what the embedding covers. *)
Inductive outcome (A : Type) : Type :=
| Done (a : A)
| Hang
| Raise (code : string)
| OutOfModel.
Arguments Done {A} a.
Arguments Hang {A}.
Arguments Raise {A} code.
Arguments OutOfModel {A}.

Definition IO (A : Type) : Type := World → outcome A * World.

Definition io_ret {A} (a : A) : IO A := fun w => (Done a, w).

Definition io_bind {A B} (m : IO A) (k : A → IO B) : IO B :=
  fun w =>
    match m w with
    | (Done a, w') => k a w'
    | (Hang, w') => (Hang, w')
    | (Raise e, w') => (Raise e, w')
    | (OutOfModel, w') => (OutOfModel, w')
    end.

Notation "'let*' x := m 'in' k" := (io_bind m (fun x => k))
  (at level 10, x name, m at level 100, k at level 200,
   format "'[v' 'let*'  x  :=  m  'in' '/' k ']'").
Notation "m ;;; k" := (io_bind m (fun _ => k))
  (at level 100, k at level 200, right associativity).

(** [for (const x of xs) { await body(x) }] *)
Fixpoint io_for {A} (xs : list A) (body : A → IO unit) : IO unit :=
  match xs with
  | [] => io_ret tt
  | x :: rest => body x ;;; io_for rest body
  end.

(** *** World updates *)

(** The world once the pending lines of input are [rest]. *)
Definition after_input (w : World) (rest : list string) : World :=
  {| files := files w; stdin := rest; stderr := stderr w; written := written w |}.

(** The world after a diagnostic was printed. *)
Definition after_error (w : World) (d : diag) : World :=
  {| files := files w; stdin := stdin w;
     stderr := stderr w ++ [d]; written := written w |}.

(** The world after a file was written. *)
Definition after_write (w : World) (path content : string) : World :=
  {| files := <[path := File content]> (files w); stdin := stdin w;
     stderr := stderr w; written := written w ++ [(path, content)] |}.

(** *** File system *)

(** [fs.access(path)]: [true] when the promise resolves. *)
Definition fs_access (path : string) : IO bool :=
  fun w => (Done (bool_decide (is_Some (files w !! path))), w).

Inductive read_result : Type :=
| ReadOk (content : string)
| ReadError (code message : string).

(** [fs.readFile(path, "utf-8")], the rejection reified. *)
Definition fs_readFile (path : string) : IO read_result :=
  fun w =>
    (Done match files w !! path with
          | Some (File content) => ReadOk content
          | Some Directory =>
              ReadError "EISDIR" "EISDIR: illegal operation on a directory, read"
          | None =>
              ReadError "ENOENT"
                ("ENOENT: no such file or directory, open '" +:+ path +:+ "'")
          end, w).

(** [fs.writeFile(path, content, "utf-8")].  The directory of [path] is
    taken to exist: the operations write into the directory the analysis
    found. *)
Definition fs_writeFile (path content : string) : IO unit :=
  fun w =>
    match files w !! path with
    | Some Directory => (Raise "EISDIR", w)
    | _ => (Done tt, after_write w path content)
    end.

(** [console.error(...)] *)
Definition console_error (d : diag) : IO unit :=
  fun w => (Done tt, after_error w d).

(** *** Prompts *)

(** [rl.question(message, callback)]: the next line of input. *)
Definition rl_question : IO string :=
  fun w =>
    match stdin w with
    | [] => (Hang, w)
    | answer :: rest => (Done answer, after_input w rest)
    end.

(** [toLowerCase()] on the ASCII letters; no other character lowers to one
    of the letters the answers are compared with. *)
Definition lower_ascii (c : ascii) : ascii :=
  let n := nat_of_ascii c in
  if (65 <=? n)%nat && (n <=? 90)%nat then ascii_of_nat (n + 32) else c.

Fixpoint toLowerCase (s : string) : string :=
  match s with
  | EmptyString => EmptyString
  | String c rest => String (lower_ascii c) (toLowerCase rest)
  end.

(** The white space of ECMAScript (WhiteSpace and LineTerminator), which
    [trim()] strips and the class [\s] matches: the six ASCII characters of
    [is_space], and beyond ASCII the characters of [space2] and [space3],
    met as the bytes of their UTF-8 encoding. *)
Definition is_space (c : ascii) : bool :=
  let n := nat_of_ascii c in
  ((9 <=? n)%nat && (n <=? 13)%nat) || (n =? 32)%nat.

(** U+00A0, in two bytes. *)
Definition space2 (a b : ascii) : bool :=
  (nat_of_ascii a =? 194)%nat && (nat_of_ascii b =? 160)%nat.

(** U+1680, U+2000 to U+200A, U+2028, U+2029, U+202F, U+205F, U+3000 and
    U+FEFF, in three bytes. *)
Definition space3 (a b c : ascii) : bool :=
  let x := nat_of_ascii a in
  let y := nat_of_ascii b in
  let z := nat_of_ascii c in
  if (x =? 225)%nat then (y =? 154)%nat && (z =? 128)%nat
  else if (x =? 226)%nat then
    ((y =? 128)%nat &&
     (((128 <=? z)%nat && (z <=? 138)%nat) || (z =? 168)%nat || (z =? 169)%nat
      || (z =? 175)%nat))
    || ((y =? 129)%nat && (z =? 159)%nat)
  else if (x =? 227)%nat then (y =? 128)%nat && (z =? 128)%nat
  else if (x =? 239)%nat then (y =? 187)%nat && (z =? 191)%nat
  else false.

Fixpoint trim_start (s : string) : string :=
  match s with
  | EmptyString => EmptyString
  | String a rest =>
      if is_space a then trim_start rest
      else
        match rest with
        | String b rest2 =>
            if space2 a b then trim_start rest2
            else
              match rest2 with
              | String c rest3 =>
                  if space3 a b c then trim_start rest3 else s
              | EmptyString => s
              end
        | EmptyString => s
        end
  end.

(** The text up to the white space it ends with.  No character of UTF-8
    ends with the bytes of another, so a tail of the text that is nothing but
    white space begins where a character begins. *)
Fixpoint trim_end (s : string) : string :=
  match s with
  | EmptyString => EmptyString
  | String c rest =>
      if trim_start s =? "" then EmptyString else String c (trim_end rest)
  end.

Definition trim (s : string) : string := trim_end (trim_start s).

(** [answer.toLowerCase() === "y" || answer.toLowerCase() === "yes"] *)
Definition affirmative (answer : string) : bool :=
  (toLowerCase answer =? "y") || (toLowerCase answer =? "yes").

(** [askConfirmation(rl, message)] *)
Definition askConfirmation : IO bool :=
  let* answer := rl_question in
  io_ret (affirmative answer).

(** [askInput(rl, message)] *)
Definition askInput : IO string :=
  let* answer := rl_question in
  io_ret (trim answer).

(** ** The analyzer, for a given host *)

(** *** [setNestedKey] on any value

    The callers pass what [JSON.parse] returned, cast to a record: it may be
    an array or a primitive.  The script is an ES module, so its code is
    strict: creating a property on a primitive throws a [TypeError]. *)

(** How a call of [setNestedKey] ends: it returns, with the value as
    [JSON.stringify] sees it afterwards; it throws; or it leaves what the
    embedding covers.  It leaves it in three cases: a property of a prototype
    object of the runtime has been written; an array would grow by more than
    [most_holes] holes; the length of an array is assigned a text that mixes
    digits with other characters. *)
Inductive set_result : Type :=
| SetReturns (data : json)
| SetThrows (error : string)
| SetLeaves.

(** [setNestedKey] on the object [o], for a caller whose value shows as
    [shown o'] once [o] has become [o']. *)
Definition setNestedKey_in (o : obj) (keyPath : list string) (value : string)
    (shown : obj → json) : set_result :=
  match setNestedKey o keyPath value with
  | Some o' => SetReturns (shown o')
  | None =>
      if setNestedKey_throws o keyPath then SetThrows "TypeError" else SetLeaves
  end.

Definition decimal_digit (c : ascii) : option N :=
  let n := nat_of_ascii c in
  if (48 <=? n)%nat && (n <=? 57)%nat then Some (N.of_nat (n - 48)) else None.

Fixpoint decimal_value (s : string) (acc : N) : option N :=
  match s with
  | EmptyString => Some acc
  | String c rest =>
      match decimal_digit c with
      | Some d => decimal_value rest (10 * acc + d)%N
      | None => None
      end
  end.

Definition has_digit (s : string) : bool :=
  existsb (fun c => match decimal_digit c with Some _ => true | None => false end)
    (list_ascii_of_string s).

(** The array index a property name denotes, if any: the decimal numeral,
    without leading zeros, of a number below 2^32 - 1. *)
Definition array_index (name : string) : option N :=
  match name with
  | EmptyString => None
  | String c rest =>
      if Ascii.eqb c "0" && negb (rest =? "") then None
      else
        match decimal_value name 0 with
        | Some n => if (n <? 4294967295)%N then Some n else None
        | None => None
        end
  end.

(** The holes by which an array may grow in one assignment here.  Each hole
    is a [null] in the text of the array, and [JSON.stringify] throws once
    the text passes the longest string of the runtime, some hundreds of
    millions of characters: growth beyond a million holes is left out. *)
Definition most_holes : N := 1048576.

(** Whether an array of [size] elements may be written at the index [i], or
    take the length [i]. *)
Definition growth_embedded (size : nat) (i : N) : bool :=
  (i <=? N.of_nat size + most_holes)%N.

(** [items[i] = x]; an array that grows is filled with holes, which
    [JSON.stringify] prints as [null]. *)
Definition array_set (items : list json) (i : nat) (x : json) : list json :=
  if (i <? length items)%nat then <[i := x]> items
  else items ++ replicate (i - length items) JNull ++ [x].

(** [items.length = value].  The string is read as a number: the white space
    around it is dropped; the empty text is zero; a numeral of decimal digits
    is its value; a text without any digit is no number or an infinity, and
    no length.  Any other text follows the grammar of numeric literals, which
    is not embedded.  A length is below 2^32; a smaller length drops the
    elements beyond it, a greater one adds holes. *)
Definition array_set_length (items : list json) (value : string) : set_result :=
  let text := trim value in
  match decimal_value text 0 with
  | Some n =>
      if (n <? 4294967296)%N then
        if growth_embedded (length items) n then
          let size := N.to_nat n in
          if (size <=? length items)%nat then SetReturns (JArr (take size items))
          else SetReturns (JArr (items ++ replicate (size - length items) JNull))
        else SetLeaves
      else SetThrows "RangeError"
  | None => if has_digit text then SetLeaves else SetThrows "RangeError"
  end.

(** The rest of the walk below a property that [JSON.stringify] does not
    print (a named property of an array, the prototype object of a
    primitive): nothing of it shows in [data]. *)
Definition hidden_walk (rest : list string) (value : string) (data : json)
  : set_result :=
  match rest with
  | [] => SetReturns data
  | _ => setNestedKey_in [] rest value (fun _ => data)
  end.

(** [setNestedKey] on an array.  A first segment that is an array index
    reads or writes that element.  The segment [length] is a number when it
    is read, so the guard assigns an object to the length, a [RangeError];
    as the last segment it receives the string.  Any other first segment
    names a property of the array that [JSON.stringify] does not print;
    [__proto__] among them: as the last segment it is ignored, and as an
    earlier one it reads as the prototype of the array, itself an array,
    which the guard replaces by a fresh object. *)
Definition setNestedKey_array (items : list json) (keyPath : list string)
    (value : string) : set_result :=
  match keyPath with
  | [] => SetReturns (JArr items)
  | key :: rest =>
      match array_index key with
      | Some n =>
          if growth_embedded (length items) n then
            let i := N.to_nat n in
            match rest with
            | [] => SetReturns (JArr (array_set items i (JStr value)))
            | _ =>
                let child :=
                  match items !! i with Some (JObj c) => c | _ => [] end in
                setNestedKey_in child rest value
                  (fun child' => JArr (array_set items i (JObj child')))
            end
          else SetLeaves
      | None =>
          if key =? "length" then
            match rest with
            | [] => array_set_length items value
            | _ => SetThrows "RangeError"
            end
          else hidden_walk rest value (JArr items)
      end
  end.

(** [setNestedKey] on a boolean, a number or a string.  Every property read
    is absent, a function or a primitive, and cannot be replaced, except
    [__proto__], the prototype object of the primitive.  As the last segment
    its accessor ignores the string.  As an earlier segment the walk goes on
    inside the prototype object: a second [__proto__] leads on to
    [Object.prototype], as it does from a fresh object; the [length] of the
    prototype of strings cannot be written; any other segment writes a
    property of the prototype object. *)
Definition setNestedKey_primitive (data : json) (keyPath : list string)
    (value : string) : set_result :=
  match keyPath with
  | key :: rest =>
      if key =? "__proto__" then
        match rest with
        | [] => SetReturns data
        | next :: _ =>
            if next =? "__proto__" then hidden_walk rest value data
            else
              match data with
              | JStr _ => if next =? "length" then SetThrows "TypeError" else SetLeaves
              | _ => SetLeaves
              end
        end
      else SetThrows "TypeError"
  | [] => SetThrows "TypeError"
  end.

(** [setNestedKey(data as Record<string, unknown>, keyPath, value)] for any
    value [data]; reading a property of [null] throws. *)
Definition setNestedKey_on (data : json) (keyPath : list string)
    (value : string) : set_result :=
  match data with
  | JObj o => setNestedKey_in o keyPath value JObj
  | JArr items => setNestedKey_array items keyPath value
  | JNull => SetThrows "TypeError"
  | _ => setNestedKey_primitive data keyPath value
  end.

Section Analyzer.
Context {H : Host}.

(** *** Configuration ([CONFIG]) *)

Definition CONFIG_localesDir : string := path_join [cwd; "src"; "locales"].

Definition CONFIG_alternativeLocalesPaths : list string :=
  [ path_join [cwd; "src"; "i18n"; "locales"];
    path_join [cwd; "src"; "assets"; "locales"];
    path_join [cwd; "public"; "locales"];
    path_join [cwd; "locales"] ].

Definition CONFIG_defaultLocale : string := "en".

Definition CONFIG_otherLocales : list string := ["es"].

(** *** Locale store *)

(** The loop over [CONFIG.alternativeLocalesPaths]. *)
Fixpoint first_accessible (paths : list string) : IO (option string) :=
  match paths with
  | [] => io_ret None
  | altPath :: rest =>
      let* ok := fs_access altPath in
      if ok then io_ret (Some altPath) else first_accessible rest
  end.

(** [findLocalesDirectory()] *)
Definition findLocalesDirectory : IO (option string) :=
  let* ok := fs_access CONFIG_localesDir in
  if ok then io_ret (Some CONFIG_localesDir)
  else first_accessible CONFIG_alternativeLocalesPaths.

(** [loadLocale(locale, localesDir)]; the value returned is [JNull] for the
    JavaScript [null]. *)
Definition loadLocale (locale localesDir : string) : IO json :=
  let filePath := path_join [localesDir; locale +:+ ".json"] in
  let* r := fs_readFile filePath in
  match r with
  | ReadOk content =>
      match JSON_parse content with
      | Parsed v => io_ret v
      | SyntaxError message =>
          console_error (LocaleFileError locale message) ;;; io_ret JNull
      end
  | ReadError code message =>
      if code =? "ENOENT" then io_ret JNull
      else console_error (LocaleFileError locale message) ;;; io_ret JNull
  end.

(** *** Reconciliation *)

Record KeyStatus : Type := mkKeyStatus {
  key : string;
  inCode : bool;
  inEN : bool;
  inES : bool;
}.

Record AnalysisResult : Type := mkAnalysisResult {
  defaultLocaleKeys : list string;
  otherLocaleKeys : list (string * list string);
  usedKeys : list string;
  allLocaleKeys : list string;
  availableLocales : list string;
  keyStatuses : list KeyStatus;
  localesDir : string;
}.

(** [table[locale]] on the object [otherLocaleKeys]. *)
Fixpoint locale_lookup (table : list (string * list string)) (locale : string)
  : option (list string) :=
  match table with
  | [] => None
  | (l, keys) :: rest => if l =? locale then Some keys else locale_lookup rest locale
  end.

(** [otherLocaleKeys["es"]?.has(key) || false] *)
Definition has_in_locale (table : list (string * list string))
    (locale k : string) : bool :=
  match locale_lookup table locale with
  | Some keys => set_has keys k
  | None => false
  end.

(** The loop over [CONFIG.otherLocales]: the key sets and the list of the
    locales that loaded. *)
Fixpoint load_others (locales : list string) (dir : string)
    (keysAcc : list (string * list string)) (available : list string)
  : IO (list (string * list string) * list string) :=
  match locales with
  | [] => io_ret (keysAcc, available)
  | locale :: rest =>
      let* data := loadLocale locale dir in
      if truthy data
      then load_others rest dir (keysAcc ++ [(locale, getKeys data "")])
             (available ++ [locale])
      else load_others rest dir keysAcc available
  end.

(** One step of the insertion that [sort_by] repeats: [x] goes after every
    element that does not compare greater, so equal elements keep their
    order. *)
Fixpoint sort_insert {A} (cmp : A → A → Z) (x : A) (sorted : list A) : list A :=
  match sorted with
  | [] => [x]
  | y :: rest =>
      if (cmp y x <=? 0)%Z then y :: sort_insert cmp x rest
      else x :: y :: rest
  end.

(** [array.sort(cmp)]: a stable sort (ECMAScript 2019), here by insertion. *)
Definition sort_by {A} (cmp : A → A → Z) (l : list A) : list A :=
  fold_left (fun sorted x => sort_insert cmp x sorted) l [].

(** [analyzeLocales()].  [scanned] is the set [scanSourceFiles] returns for
    [CONFIG.sourceDirs], which this embedding takes as given. *)
Definition analyzeLocales (scanned : list string) : IO (option AnalysisResult) :=
  let* found := findLocalesDirectory in
  match found with
  | None => console_error LocalesDirNotFound ;;; io_ret None
  | Some dir =>
      let* defaultLocaleData := loadLocale CONFIG_defaultLocale dir in
      if negb (truthy defaultLocaleData)
      then console_error (DefaultLocaleNotFound CONFIG_defaultLocale) ;;;
           io_ret None
      else
        let* others := load_others CONFIG_otherLocales dir [] [] in
        let otherKeys := fst others in
        let defaultKeys := getKeys defaultLocaleData "" in
        let allLocale :=
          set_add_all (defaultKeys ++ concat (map snd otherKeys)) [] in
        let allUniqueKeys := set_add_all (allLocale ++ scanned) [] in
        let statuses :=
          map (fun k =>
                 {| key := k;
                    inCode := set_has scanned k;
                    inEN := set_has defaultKeys k;
                    inES := has_in_locale otherKeys "es" k |})
              allUniqueKeys in
        io_ret
          (Some {| defaultLocaleKeys := defaultKeys;
                   otherLocaleKeys := otherKeys;
                   usedKeys := scanned;
                   allLocaleKeys := allLocale;
                   availableLocales := snd others;
                   keyStatuses :=
                     sort_by (fun a b => localeCompare (key a) (key b)) statuses;
                   localesDir := dir |})
  end.

(** *** Mutation operations *)

(** [results.keyStatuses.filter((s) => s.inCode && (!s.inEN || !s.inES))] *)
Definition keysInCodeOnly (results : AnalysisResult) : list KeyStatus :=
  List.filter (fun s => inCode s && (negb (inEN s) || negb (inES s)))
    (keyStatuses results).

(** [defaultValue || `[${status.key}]`] *)
Definition translation_for (defaultValue k : string) : string :=
  if defaultValue =? "" then "[" +:+ k +:+ "]" else defaultValue.

(** Load a locale, set one key, write the file back: the body of each of the
    two [if (!status.in..)] blocks of [addMissingKeys].  An error thrown by
    [setNestedKey] rejects the operation.  Where [setNestedKey] leaves what
    the embedding covers, so does the operation, at that point.  Once a
    prototype object of the runtime has a new property, every object
    inherits it: what follows depends on the name written and on the
    internals of the runtime ([fs.writeFile], for one, reads the option
    [signal] of each call through the prototype chain), and on every
    property the program reads later. *)
Definition add_key_to (locale dir k translation : string) : IO unit :=
  let* loaded := loadLocale locale dir in
  let data := if truthy loaded then loaded else JObj [] in
  match setNestedKey_on data (split_dot k) translation with
  | SetReturns data' =>
      fs_writeFile (path_join [dir; locale +:+ ".json"]) (JSON_stringify data')
  | SetThrows error => fun w => (Raise error, w)
  | SetLeaves => fun w => (OutOfModel, w)
  end.

(** The body of the loop [for (const status of keysInCodeOnly)]. *)
Definition add_missing_key (results : AnalysisResult) (status : KeyStatus)
  : IO unit :=
  let* defaultValue := askInput in
  let translation := translation_for defaultValue (key status) in
  (if negb (inEN status)
   then add_key_to "en" (localesDir results) (key status) translation
   else io_ret tt) ;;;
  (if negb (inES status)
   then add_key_to "es" (localesDir results) (key status) translation
   else io_ret tt).

(** [addMissingKeys(results)] *)
Definition addMissingKeys (results : AnalysisResult) : IO unit :=
  match keysInCodeOnly results with
  | [] => io_ret tt
  | selected =>
      let* proceed := askConfirmation in
      if negb proceed then io_ret tt
      else io_for selected (add_missing_key results)
  end.

(** [locale: "en" | "es"] *)
Inductive Locale : Type := EN | ES.

Definition locale_name (locale : Locale) : string :=
  match locale with EN => "en" | ES => "es" end.

(** [results.keyStatuses.filter((s) => (locale === "en" ? s.inEN : s.inES) && !s.inCode)] *)
Definition keysInLocaleOnly (results : AnalysisResult) (locale : Locale)
  : list KeyStatus :=
  List.filter
    (fun s => (match locale with EN => inEN s | ES => inES s end)
              && negb (inCode s))
    (keyStatuses results).

(** The loop [for (const status of keysInLocaleOnly)] of
    [deleteKeysFromLocale]: the tree afterwards and [removedCount]. *)
Fixpoint remove_all (localeData : json) (statuses : list KeyStatus)
    (removedCount : nat) : json * nat :=
  match statuses with
  | [] => (localeData, removedCount)
  | status :: rest =>
      let (removed, localeData') := removeKey localeData (split_dot (key status)) in
      remove_all localeData' rest
        (if removed then S removedCount else removedCount)
  end.

(** [deleteKeysFromLocale(results, locale)] *)
Definition deleteKeysFromLocale (results : AnalysisResult) (locale : Locale)
  : IO unit :=
  match keysInLocaleOnly results locale with
  | [] => io_ret tt
  | unused =>
      let* proceed := askConfirmation in
      if negb proceed then io_ret tt
      else
        let* confirmDelete := askConfirmation in
        if negb confirmDelete then io_ret tt
        else
          let* localeData := loadLocale (locale_name locale) (localesDir results) in
          if negb (truthy localeData) then io_ret tt
          else
            fs_writeFile
              (path_join [localesDir results; locale_name locale +:+ ".json"])
              (JSON_stringify (fst (remove_all localeData unused 0)))
  end.

End Analyzer.

(** ** A reference host

    A concrete host on which the operations can be run: JSON text limited to
    integer numbers and to the two-character escapes, paths joined with a
    slash and not normalised, and a comparison that orders ASCII letters the
    way the collation of the Node.js runtime does (alphabetically first, and
    at equal letters the lower case before the upper case).  It serves the
    closed examples; the general theorems do not depend on it. *)

Module RefHost.

Definition is_json_space (c : ascii) : bool :=
  let n := nat_of_ascii c in
  (n =? 32)%nat || (n =? 9)%nat || (n =? 10)%nat || (n =? 13)%nat.

Fixpoint skip_ws (s : string) : string :=
  match s with
  | String c rest => if is_json_space c then skip_ws rest else s
  | EmptyString => EmptyString
  end.

Definition unescape (c : ascii) : option ascii :=
  match nat_of_ascii c with
  | 34 => Some (ascii_of_nat 34)
  | 92 => Some (ascii_of_nat 92)
  | 47 => Some (ascii_of_nat 47)
  | 98 => Some (ascii_of_nat 8)
  | 102 => Some (ascii_of_nat 12)
  | 110 => Some (ascii_of_nat 10)
  | 114 => Some (ascii_of_nat 13)
  | 116 => Some (ascii_of_nat 9)
  | _ => None
  end.

(** The characters of a string literal after its opening quote, and the rest
    of the text after the closing quote. *)
Fixpoint parse_string_body (s : string) : option (string * string) :=
  match s with
  | EmptyString => None
  | String c rest =>
      if (nat_of_ascii c =? 34)%nat then Some (EmptyString, rest)
      else if (nat_of_ascii c =? 92)%nat then
        match rest with
        | String e rest' =>
            match unescape e, parse_string_body rest' with
            | Some ch, Some (body, after) => Some (String ch body, after)
            | _, _ => None
            end
        | EmptyString => None
        end
      else if (nat_of_ascii c <? 32)%nat then None
      else
        match parse_string_body rest with
        | Some (body, after) => Some (String c body, after)
        | None => None
        end
  end.

Definition is_digit (c : ascii) : bool :=
  let n := nat_of_ascii c in (48 <=? n)%nat && (n <=? 57)%nat.

Fixpoint take_digits (s : string) : string * string :=
  match s with
  | String c rest =>
      if is_digit c then
        let (ds, after) := take_digits rest in (String c ds, after)
      else (EmptyString, s)
  | EmptyString => (EmptyString, EmptyString)
  end.

Definition digits_value (ds : string) : option Z :=
  match ds with
  | EmptyString => None
  | String c (String _ _) =>
      if (nat_of_ascii c =? 48)%nat then None
      else Z.of_int <$> NilZero.int_of_string ds
  | _ => Z.of_int <$> NilZero.int_of_string ds
  end.

(** An integer literal; a fraction or an exponent is not accepted. *)
Definition parse_number (s : string) : option (json * string) :=
  let (negative, body) :=
    match s with
    | String c rest => if (nat_of_ascii c =? 45)%nat then (true, rest) else (false, s)
    | EmptyString => (false, s)
    end in
  let (ds, after) := take_digits body in
  match digits_value ds, after with
  | Some n, String c _ =>
      if (nat_of_ascii c =? 46)%nat || (nat_of_ascii c =? 101)%nat
         || (nat_of_ascii c =? 69)%nat
      then None
      else Some (JNum (if negative then - n else n)%Z, after)
  | Some n, EmptyString => Some (JNum (if negative then - n else n)%Z, after)
  | None, _ => None
  end.

Fixpoint strip_prefix (p s : string) : option string :=
  match p, s with
  | EmptyString, _ => Some s
  | String a p', String b s' => if Ascii.eqb a b then strip_prefix p' s' else None
  | String _ _, EmptyString => None
  end.

Fixpoint parse_value (fuel : nat) (s : string) {struct fuel}
  : option (json * string) :=
  match fuel with
  | O => None
  | S fuel' =>
      match skip_ws s with
      | EmptyString => None
      | String c rest =>
          match nat_of_ascii c with
          | 123 =>
              match skip_ws rest with
              | String c' rest' =>
                  if (nat_of_ascii c' =? 125)%nat then Some (JObj [], rest')
                  else parse_members fuel' rest []
              | EmptyString => None
              end
          | 91 =>
              match skip_ws rest with
              | String c' rest' =>
                  if (nat_of_ascii c' =? 93)%nat then Some (JArr [], rest')
                  else parse_elements fuel' rest []
              | EmptyString => None
              end
          | 34 =>
              match parse_string_body rest with
              | Some (body, after) => Some (JStr body, after)
              | None => None
              end
          | 116 => (fun after => (JBool true, after)) <$> strip_prefix "rue" rest
          | 102 => (fun after => (JBool false, after)) <$> strip_prefix "alse" rest
          | 110 => (fun after => (JNull, after)) <$> strip_prefix "ull" rest
          | _ => parse_number (String c rest)
          end
      end
  end
with parse_members (fuel : nat) (s : string) (acc : obj) {struct fuel}
  : option (json * string) :=
  match fuel with
  | O => None
  | S fuel' =>
      match skip_ws s with
      | String c rest =>
          if (nat_of_ascii c =? 34)%nat then
            match parse_string_body rest with
            | Some (name, after) =>
                match skip_ws after with
                | String colon after' =>
                    if (nat_of_ascii colon =? 58)%nat then
                      match parse_value fuel' after' with
                      | Some (v, after'') =>
                          let acc' := obj_set acc name v in
                          match skip_ws after'' with
                          | String d more =>
                              if (nat_of_ascii d =? 44)%nat
                              then parse_members fuel' more acc'
                              else if (nat_of_ascii d =? 125)%nat
                              then Some (JObj acc', more)
                              else None
                          | EmptyString => None
                          end
                      | None => None
                      end
                    else None
                | EmptyString => None
                end
            | None => None
            end
          else None
      | EmptyString => None
      end
  end
with parse_elements (fuel : nat) (s : string) (acc : list json) {struct fuel}
  : option (json * string) :=
  match fuel with
  | O => None
  | S fuel' =>
      match parse_value fuel' s with
      | Some (v, after) =>
          match skip_ws after with
          | String d more =>
              if (nat_of_ascii d =? 44)%nat
              then parse_elements fuel' more (acc ++ [v])
              else if (nat_of_ascii d =? 93)%nat
              then Some (JArr (acc ++ [v]), more)
              else None
          | EmptyString => None
          end
      | None => None
      end
  end.

Definition JSON_parse (text : string) : parsed :=
  match parse_value (S (String.length text)) text with
  | Some (v, after) =>
      match skip_ws after with
      | EmptyString => Parsed v
      | String _ _ => SyntaxError "Unexpected non-whitespace character after JSON"
      end
  | None => SyntaxError "Unexpected token or end of JSON input"
  end.

Definition hex_digit (n : nat) : ascii :=
  ascii_of_nat (if (n <? 10)%nat then 48 + n else 87 + n).

Definition escape_char (c : ascii) : string :=
  let n := nat_of_ascii c in
  match n with
  | 34 => String (ascii_of_nat 92) (String (ascii_of_nat 34) "")
  | 92 => "\\"
  | 8 => "\b"
  | 12 => "\f"
  | 10 => "\n"
  | 13 => "\r"
  | 9 => "\t"
  | _ =>
      if (n <? 32)%nat
      then "\u00" +:+ String (hex_digit (n / 16)) (String (hex_digit (n mod 16)) "")
      else String c ""
  end.

Fixpoint escape_string (s : string) : string :=
  match s with
  | EmptyString => EmptyString
  | String c rest => escape_char c +:+ escape_string rest
  end.

Definition quote (s : string) : string :=
  String (ascii_of_nat 34) (escape_string s) +:+ String (ascii_of_nat 34) "".

Definition newline : string := String (ascii_of_nat 10) "".

Fixpoint spaces (n : nat) : string :=
  match n with O => "" | S n' => " " +:+ spaces n' end.

Fixpoint join_with (sep : string) (parts : list string) : string :=
  match parts with
  | [] => ""
  | [p] => p
  | p :: rest => p +:+ sep +:+ join_with sep rest
  end.

Definition string_of_Z (n : Z) : string := NilZero.string_of_int (Z.to_int n).

(** [JSON.stringify(v, null, 2)] at nesting depth [indent]. *)
Fixpoint stringify_at (indent : nat) (v : json) {struct v} : string :=
  match v with
  | JNull => "null"
  | JBool true => "true"
  | JBool false => "false"
  | JNum n => string_of_Z n
  | JStr s => quote s
  | JArr [] => "[]"
  | JArr items =>
      "[" +:+ newline +:+
      join_with ("," +:+ newline)
        (map (fun item => spaces (indent + 2) +:+ stringify_at (indent + 2) item)
             items)
      +:+ newline +:+ spaces indent +:+ "]"
  | JObj [] => "{}"
  | JObj props =>
      "{" +:+ newline +:+
      join_with ("," +:+ newline)
        (map (fun p =>
                spaces (indent + 2) +:+ quote (fst p) +:+ ": "
                +:+ stringify_at (indent + 2) (snd p))
             props)
      +:+ newline +:+ spaces indent +:+ "}"
  end.

Definition JSON_stringify (v : json) : string := stringify_at 0 v.

Definition path_join (segments : list string) : string := join_with "/" segments.

(** Collation of ASCII letters: the letters regardless of case first. *)
Fixpoint primary (s : string) : list nat :=
  match s with
  | EmptyString => []
  | String c rest => nat_of_ascii (lower_ascii c) :: primary rest
  end.

(** At equal letters, the lower case comes first. *)
Fixpoint tertiary (s : string) : list nat :=
  match s with
  | EmptyString => []
  | String c rest =>
      (if Ascii.eqb (lower_ascii c) c then 0 else 1)%nat :: tertiary rest
  end.

Fixpoint compare_codes (a b : list nat) : comparison :=
  match a, b with
  | [], [] => Eq
  | [], _ :: _ => Lt
  | _ :: _, [] => Gt
  | x :: a', y :: b' =>
      match Nat.compare x y with
      | Eq => compare_codes a' b'
      | c => c
      end
  end.

Definition localeCompare (a b : string) : Z :=
  match compare_codes (primary a) (primary b) with
  | Lt => (-1)%Z
  | Gt => 1%Z
  | Eq =>
      match compare_codes (tertiary a) (tertiary b) with
      | Lt => (-1)%Z
      | Gt => 1%Z
      | Eq => 0%Z
      end
  end.

End RefHost.

Definition reference_host : Host :=
  {| JSON_parse := RefHost.JSON_parse;
     JSON_stringify := RefHost.JSON_stringify;
     path_join := RefHost.path_join;
     localeCompare := RefHost.localeCompare;
     cwd := "/project" |}.

(** ** Notions the statements use *)

(** The value at a path of own properties. *)
Fixpoint get_path (v : json) (path : list string) : option json :=
  match path with
  | [] => Some v
  | k :: rest =>
      match v with
      | JObj o =>
          match obj_get o k with
          | Some child => get_path child rest
          | None => None
          end
      | _ => None
      end
  end.

(** [l] is a leaf (anything but a plain object) found at [path]. *)
Definition leaf_at (v : json) (path : list string) (l : json) : Prop :=
  get_path v path = Some l ∧ is_plain_object l = false.

(** [p] is an initial part of [q], possibly all of it. *)
Definition is_prefix (p q : list string) : Prop := ∃ r, q = p ++ r.

(** The leaves below [v] with their paths, in the order [getKeys] meets
    them. *)
Fixpoint leaves (v : json) : list (list string * json) :=
  match v with
  | JObj o =>
      flat_map
        (fun p =>
           if is_plain_object (snd p)
           then map (fun e => (fst p :: fst e, snd e)) (leaves (snd p))
           else [([fst p], snd p)])
        o
  | _ => []
  end.

(** The flattened key [getKeys] builds for a path met below [prefix]. *)
Definition join_path (prefix : string) (path : list string) : string :=
  fold_left fullKey path prefix.

(** The flattened keys with their leaf values. *)
Definition getEntries (v : json) : list (string * json) :=
  map (fun e => (join_path "" (fst e), snd e)) (leaves v).

(** The entries whose leaf is a string. *)
Definition string_entries (v : json) : list (string * string) :=
  omap (fun e => match snd e with JStr s => Some (fst e, s) | _ => None end)
       (getEntries v).

(** Re-nesting: [setNestedKey] applied for each flattened key in turn,
    starting from the empty object. *)
Definition unflatten (entries : list (string * string)) : option obj :=
  fold_left
    (fun acc e => o ← acc; setNestedKey o (split_dot (fst e)) (snd e))
    entries (Some []).

(** Every node is a plain object and every leaf a string. *)
Fixpoint string_tree (v : json) : bool :=
  match v with
  | JStr _ => true
  | JObj o => forallb (fun p => string_tree (snd p)) o
  | _ => false
  end.

Fixpoint distinct (names : list string) : bool :=
  match names with
  | [] => true
  | n :: rest => negb (set_has rest n) && distinct rest
  end.

(** No object of the tree has two properties of the same name (what every
    JavaScript object satisfies). *)
Fixpoint unique_names (v : json) : bool :=
  match v with
  | JObj o => distinct (map fst o) && forallb (fun p => unique_names (snd p)) o
  | _ => true
  end.

Fixpoint has_dot (s : string) : bool :=
  match s with
  | EmptyString => false
  | String c rest => Ascii.eqb c "."%char || has_dot rest
  end.

(** A property name that survives joining with dots and splitting again. *)
Definition plain_name (k : string) : bool :=
  negb (k =? "") && negb (has_dot k).

(** Every property name on the way to a leaf is a [plain_name]. *)
Fixpoint plain_names (v : json) : bool :=
  match v with
  | JObj o => forallb (fun p => plain_name (fst p) && plain_names (snd p)) o
  | _ => true
  end.

(** No property on the way to a leaf is called [__proto__]. *)
Fixpoint no_proto_names (v : json) : bool :=
  match v with
  | JObj o =>
      forallb (fun p => negb (fst p =? "__proto__") && no_proto_names (snd p)) o
  | _ => true
  end.

(** The round trip of flattening and re-nesting, as claimed. *)
Definition roundtrip_ok (o : obj) : Prop :=
  ∃ o', unflatten (string_entries (JObj o)) = Some o' ∧
        (∀ k, k ∈ getKeys (JObj o') "" ↔ k ∈ getKeys (JObj o) "") ∧
        (∀ k s, (k, s) ∈ string_entries (JObj o') ↔
                (k, s) ∈ string_entries (JObj o)).

(** A key is missing as the specification words it: used in code, and not
    present in the default locale and in each available locale. *)
Definition missing_as_specified (r : AnalysisResult) (k : string) : Prop :=
  k ∈ usedKeys r ∧
  ¬ (k ∈ defaultLocaleKeys r ∧
     ∀ locale, locale ∈ availableLocales r →
               has_in_locale (otherLocaleKeys r) locale k = true).

(** The file of a locale. *)
Definition locale_file {H : Host} (locale dir : string) : string :=
  path_join [dir; locale +:+ ".json"].

(** [loadLocale] tells a missing file from an unparsable one, as claimed: the
    two results differ. *)
Definition load_tells_apart (H : Host) : Prop :=
  ∀ locale dir w1 w2 content message,
    files w1 !! locale_file locale dir = None →
    files w2 !! locale_file locale dir = Some (File content) →
    JSON_parse content = SyntaxError message →
    fst (loadLocale locale dir w1) ≠ fst (loadLocale locale dir w2).

(** The per-key report is in code-point order, as claimed: each entry's key
    is strictly smaller than the next one's, byte by byte. *)
Definition sorted_by_code_point (r : AnalysisResult) : Prop :=
  Sorted (fun a b => String.ltb (key a) (key b) = true) (keyStatuses r).

(** The status [analyzeLocales] builds for a key. *)
Definition status_of (r : AnalysisResult) (k : string) : KeyStatus :=
  {| key := k;
     inCode := set_has (usedKeys r) k;
     inEN := set_has (defaultLocaleKeys r) k;
     inES := has_in_locale (otherLocaleKeys r) "es" k |}.

(** What an operation adds to the history of writes: every new entry
    satisfies [P], and a file that no new entry names is as before. *)
Definition writes_in {A} (P : string * string → Prop) (m : IO A) : Prop :=
  ∀ w out w', m w = (out, w') →
    ∃ new, written w' = written w ++ new ∧ Forall P new ∧
           ∀ p, p ∉ map fst new → files w' !! p = files w !! p.

(** A write of [add_key_to] for the key [k]: the file of the locale receives
    the text of a value [data'] that [setNestedKey] returned for that key. *)
Definition writes_key {H : Host} (locale dir k translation : string)
    (e : string * string) : Prop :=
  fst e = locale_file locale dir ∧
  ∃ data data',
    setNestedKey_on data (split_dot k) translation = SetReturns data' ∧
    snd e = JSON_stringify data'.

(** The flag of a report entry for a locale. *)
Definition in_locale (locale : Locale) (s : KeyStatus) : bool :=
  match locale with EN => inEN s | ES => inES s end.






(** The writes of a run: what the history of writes gained. *)
Definition new_writes (w w' : World) : list (string * string) :=
  drop (length (written w)) (written w').

(** Add-missing adds a key to a locale only when that locale lacks it, as
    claimed: a selected key that the run adds to a locale (the report flags
    it as absent there, and the run writes the file of that locale) is not
    among the keys of the file as it was before the run. *)
Definition adds_only_lacking_keys {H : Host} (r : AnalysisResult) (w : World)
  : Prop :=
  ∀ s locale content data,
    s ∈ keysInCodeOnly r → in_locale locale s = false →
    locale_file (locale_name locale) (localesDir r)
      ∈ map fst (new_writes w (snd (addMissingKeys r w))) →
    files w !! locale_file (locale_name locale) (localesDir r)
      = Some (File content) →
    JSON_parse content = Parsed data →
    key s ∉ getKeys data "".


(** ** Inputs of the examples *)

(** JSON text written with apostrophes where the double quotes go. *)
Fixpoint json_text (s : string) : string :=
  match s with
  | EmptyString => EmptyString
  | String c rest =>
      String (if Ascii.eqb c "'"%char then ascii_of_nat 34 else c) (json_text rest)
  end.

(** A world of the reference host: the directory [/project/src/locales], the
    files given with their text, and the lines the operator will type. *)
Definition world_of (entries : list (string * string)) (input : list string)
  : World :=
  {| files :=
       <["/project/src/locales" := Directory]>
         (list_to_map (map (fun e => (fst e, File (snd e))) entries));
     stdin := input; stderr := []; written := [] |}.


(** A default locale file that does not parse: a lone opening brace. *)
Definition broken_en : World :=
  world_of [("/project/src/locales/en.json", "{")] [].

(** A default locale with the keys [B] and [a]. *)
Definition upper_and_lower : World :=
  world_of [("/project/src/locales/en.json", json_text "{'B': '1', 'a': '2'}")] [].

(** A default locale and no secondary locale file. *)
Definition only_default_locale : World :=
  world_of [("/project/src/locales/en.json", json_text "{'a': '1'}")] [].


(** The delete-unused scenario of the specification: [a] and [b] in the
    default locale, two confirmations. *)
Definition a_and_b : World :=
  world_of [("/project/src/locales/en.json", json_text "{'a': '1', 'b': '2'}")]
    ["y"; "yes"].

(** The add-missing scenario of the specification: [a] in the default
    locale, an empty secondary locale; the operator accepts, gives no text
    for the first key asked and a text for the second. *)
Definition a_and_empty : World :=
  world_of [("/project/src/locales/en.json", json_text "{'a': '1'}");
            ("/project/src/locales/es.json", json_text "{}")]
    ["y"; ""; " hola  "].

(** Both locales present; the operator confirms twice. *)
Definition en_and_es : World :=
  world_of [("/project/src/locales/en.json", json_text "{'a': '1', 'b': '2'}");
            ("/project/src/locales/es.json", json_text "{'a': 'uno'}")]
    ["y"; "y"].

(** A tree of strings in which one property name holds a dot. *)
Definition a_and_a_dot_b : obj := [("a", JStr "x"); ("a.b", JStr "y")].

(** A nested dictionary of translations. *)
Definition greetings : obj :=
  [("common", JObj [("greeting", JStr "Hello"); ("farewell", JStr "Bye")]);
   ("title", JStr "Analyzer")].

(** The report of [analyzeLocales] in the add-missing scenario. *)
Definition a_and_empty_report : AnalysisResult :=
  {| defaultLocaleKeys := ["a"];
     otherLocaleKeys := [("es", [])];
     usedKeys := ["a"; "b"];
     allLocaleKeys := ["a"];
     availableLocales := ["es"];
     keyStatuses :=
       [mkKeyStatus "a" true true false; mkKeyStatus "b" true false false];
     localesDir := "/project/src/locales" |}.



(** The add-missing scenario once add-missing has run: the operator chooses
    it again from the menu, which passes the same report, and accepts. *)
Definition a_and_empty_again : World :=
  after_input
    (snd (addMissingKeys (H := reference_host) a_and_empty_report a_and_empty))
    ["y"; "uno"; "dos"].

(** ** Source scanner ([scanSourceFiles])

    Conventions of this part.
    - The directories scanned are given as the tree [fs.readdir] and
      [fs.readFile] let the script see: each entry is a file with its text, a
      directory with its entries, or something else (a link, a socket).  A
      file that cannot be read and a directory that cannot be listed hold
      [None].
    - The four usage patterns are matched on the characters of the text the
      way the regular-expression engine does it.  None of them needs
      backtracking inside a repetition: each repetition is followed by a
      character outside the repeated class, so only the longest repetition
      can succeed.  The class [\s] is the white space that [trim] strips. *)

(** [s.includes(c)] for a one-character [c]. *)
Fixpoint includes_char (c : ascii) (s : string) : bool :=
  match s with
  | EmptyString => false
  | String c' rest => Ascii.eqb c' c || includes_char c rest
  end.

(** [s.split(c)] for a one-character [c]. *)
Fixpoint split_on (c : ascii) (s : string) : list string :=
  match s with
  | EmptyString => [EmptyString]
  | String c' rest =>
      match split_on c rest with
      | [] => [EmptyString]
      | w :: ws =>
          if Ascii.eqb c' c then EmptyString :: w :: ws
          else String c' w :: ws
      end
  end.

(** [key.includes(":") ? key.split(":")[1] : key] *)
Definition cleanKey (key : string) : string :=
  if includes_char ":" key
  then match split_on ":" key with
       | _ :: second :: _ => second
       | _ => key
       end
  else key.

(** The alternatives of [CONFIG.fileExtensions]. *)
Definition source_extensions : list string := ["tsx"; "ts"; "jsx"; "js"].

(** [CONFIG.fileExtensions.test(name)]: somewhere in the name a dot, one of
    the extensions, and the end of the name. *)
Fixpoint fileExtensions_test (name : string) : bool :=
  match name with
  | EmptyString => false
  | String c rest =>
      (Ascii.eqb c "." && set_has source_extensions rest)
      || fileExtensions_test rest
  end.

(** The directories [traverseDirectory] does not enter. *)
Definition skipped_directories : list string :=
  ["node_modules"; "dist"; "build"; ".git"; ".next"].

(** *** The usage patterns *)

(** The four regular expressions of [patterns], in their order: a call of
    [t] with one argument, a call of [t] with further arguments, a call of
    [i18n.t], a call of [t] with a key that holds a name space. *)
Inductive pattern : Type :=
| StandardCall
| CallWithOptions
| I18nCall
| NamespacedCall.

Definition patterns : list pattern :=
  [StandardCall; CallWithOptions; I18nCall; NamespacedCall].

(** The class of the letters, the digits and the underscore. *)
Definition is_word_char (c : ascii) : bool :=
  let n := nat_of_ascii c in
  ((97 <=? n)%nat && (n <=? 122)%nat) || ((65 <=? n)%nat && (n <=? 90)%nat)
  || ((48 <=? n)%nat && (n <=? 57)%nat) || (n =? 95)%nat.

(** The class of the three quote characters: apostrophe, double quote and
    backquote. *)
Definition is_quote (c : ascii) : bool :=
  let n := nat_of_ascii c in
  (n =? 39)%nat || (n =? 34)%nat || (n =? 96)%nat.

(** One or more characters that are no quote, as many as there are: the
    characters taken and the text after them. *)
Fixpoint take_key (s : string) : string * string :=
  match s with
  | EmptyString => (EmptyString, EmptyString)
  | String c rest =>
      if is_quote c then (EmptyString, s)
      else let (k, after) := take_key rest in (String c k, after)
  end.

(** A colon that at least one more character follows. *)
Fixpoint colon_then_more (s : string) : bool :=
  match s with
  | String c (String _ _ as rest) => Ascii.eqb c ":" || colon_then_more rest
  | _ => false
  end.

(** The captured group of the pattern with a name space: characters, a
    colon, characters. *)
Definition namespaced_key (k : string) : bool :=
  match k with
  | EmptyString => false
  | String _ rest => colon_then_more rest
  end.

(** The letter [t], white space, an opening parenthesis: the text after
    them. *)
Definition match_call (s : string) : option string :=
  match s with
  | String c rest =>
      if Ascii.eqb c "t" then
        match trim_start rest with
        | String p rest' => if Ascii.eqb p "(" then Some rest' else None
        | EmptyString => None
        end
      else None
  | EmptyString => None
  end.

(** What follows the opening parenthesis: white space, a quote, the key, a
    quote, white space and the [closing] character.  The key captured and the
    text after the match. *)
Definition match_argument (namespaced : bool) (closing : ascii) (s : string)
  : option (string * string) :=
  match trim_start s with
  | String q rest =>
      if is_quote q then
        let (k, after) := take_key rest in
        match k, after with
        | String _ _, String q' after' =>
            if is_quote q' && (negb namespaced || namespaced_key k) then
              match trim_start after' with
              | String c rest' =>
                  if Ascii.eqb c closing then Some (k, rest') else None
              | EmptyString => None
              end
            else None
        | _, _ => None
        end
      else None
  | EmptyString => None
  end.

(** A call and its argument. *)
Definition match_body (namespaced : bool) (closing : ascii) (s : string)
  : option (string * string) :=
  match match_call s with
  | Some rest => match_argument namespaced closing rest
  | None => None
  end.

(** A pattern that opens with the choice between the start of the text and
    one character that is no word character; the start of the text is tried
    first. *)
Definition match_bounded (namespaced : bool) (closing : ascii)
    (at_start : bool) (s : string) : option (string * string) :=
  match (if at_start then match_body namespaced closing s else None) with
  | Some r => Some r
  | None =>
      match s with
      | String c rest =>
          if is_word_char c then None else match_body namespaced closing rest
      | EmptyString => None
      end
  end.

(** A match of the pattern that begins at the first character of [s];
    [at_start] tells whether [s] is the whole text. *)
Definition match_at (p : pattern) (at_start : bool) (s : string)
  : option (string * string) :=
  match p with
  | StandardCall => match_bounded false ")" at_start s
  | CallWithOptions => match_bounded false "," at_start s
  | I18nCall =>
      match RefHost.strip_prefix "i18n." s with
      | Some rest => match_body false ")" rest
      | None => None
      end
  | NamespacedCall => match_bounded true ")" at_start s
  end.

(** The loop [while ((match = pattern.exec(content)) !== null)]: the keys
    captured, first to last.  The engine looks for the next match from the
    end of the last one on; [skip] counts the characters of the last match
    still to pass. *)
Fixpoint exec_all (p : pattern) (at_start : bool) (skip : nat) (s : string)
  : list string :=
  match s with
  | EmptyString => []
  | String _ rest =>
      match skip with
      | S skip' => exec_all p false skip' rest
      | O =>
          match match_at p at_start s with
          | Some (k, after) =>
              k :: exec_all p false (String.length rest - String.length after) rest
          | None => exec_all p false 0 rest
          end
      end
  end.

(** The loop over [patterns] for the text of one file. *)
Definition scan_content (content : string) (usedKeys : list string)
  : list string :=
  fold_left
    (fun keys p =>
       fold_left (fun keys k => set_add (cleanKey k) keys)
         (exec_all p true 0 content) keys)
    patterns usedKeys.

(** *** Traversal *)

Inductive dirent : Type :=
| FileEntry (name : string) (content : option string)
| DirectoryEntry (name : string) (entries : option (list dirent))
| OtherEntry (name : string).

Definition dirent_name (entry : dirent) : string :=
  match entry with
  | FileEntry name _ | DirectoryEntry name _ | OtherEntry name => name
  end.

(** The two diagnostics of the scanner, with the path they name. *)
Inductive scan_error : Type :=
| ReadFileError (fullPath : string)
| TraverseError (currentDir : string).

(** The set [usedKeys] and what was printed with [console.error]. *)
Record ScanState : Type := mkScanState {
  scan_keys : list string;
  scan_errors : list scan_error;
}.

Definition scan_fail (st : ScanState) (e : scan_error) : ScanState :=
  {| scan_keys := scan_keys st; scan_errors := scan_errors st ++ [e] |}.

Section Scanner.
Context {H : Host}.

(** [CONFIG.sourceDirs] *)
Definition CONFIG_sourceDirs : list string := [path_join [cwd; "src"]].

(** The body of the loop [for (const entry of entries)]; the inner loop is
    [traverseDirectory(fullPath)] for an entry that is a directory. *)
Fixpoint visit_entry (currentDir : string) (entry : dirent) (st : ScanState)
    {struct entry} : ScanState :=
  let fullPath := path_join [currentDir; dirent_name entry] in
  match entry with
  | DirectoryEntry name listing =>
      if set_has skipped_directories name then st
      else
        match listing with
        | Some entries =>
            (fix each (entries : list dirent) (st : ScanState) {struct entries}
               : ScanState :=
               match entries with
               | [] => st
               | e :: rest => each rest (visit_entry fullPath e st)
               end) entries st
        | None => scan_fail st (TraverseError fullPath)
        end
  | FileEntry name content =>
      if fileExtensions_test name then
        match content with
        | Some text =>
            {| scan_keys := scan_content text (scan_keys st);
               scan_errors := scan_errors st |}
        | None => scan_fail st (ReadFileError fullPath)
        end
      else st
  | OtherEntry _ => st
  end.

(** [traverseDirectory(currentDir)], given what [fs.readdir] answers. *)
Definition traverseDirectory (currentDir : string)
    (listing : option (list dirent)) (st : ScanState) : ScanState :=
  match listing with
  | Some entries =>
      fold_left (fun st e => visit_entry currentDir e st) entries st
  | None => scan_fail st (TraverseError currentDir)
  end.

(** [scanSourceFiles(dirs)]: each directory comes with what [fs.readdir]
    answers for it. *)
Definition scanSourceFiles (dirs : list (string * option (list dirent)))
  : ScanState :=
  fold_left (fun st d => traverseDirectory (fst d) (snd d) st) dirs
    {| scan_keys := []; scan_errors := [] |}.

End Scanner.

(** A text the scanner reads below an entry: the text of a readable file
    whose name has a source extension, reached through directories that can
    be listed and are not skipped. *)
Inductive scanned_text : dirent → string → Prop :=
| scanned_file name text :
    fileExtensions_test name = true →
    scanned_text (FileEntry name (Some text)) text
| scanned_below name entries e text :
    set_has skipped_directories name = false →
    e ∈ entries → scanned_text e text →
    scanned_text (DirectoryEntry name (Some entries)) text.

(** A key some pattern captures in a text, cleaned. *)
Definition key_of_text (text k : string) : Prop :=
  ∃ p m, p ∈ patterns ∧ m ∈ exec_all p true 0 text ∧ k = cleanKey m.

(** ** The dictionary of the runtime as a JSON value

    The dictionary [t] reads is the locale file the analyzer flattens. *)
Fixpoint json_of (v : DictionaryValue) : json :=
  match v with
  | DStr s => JStr s
  | DDict d =>
      JObj ((fix each (d : Dictionary) : obj :=
               match d with
               | [] => []
               | (k, v) :: rest => (k, json_of v) :: each rest
               end) d)
  end.

(** The candidates of [findLocalesDirectory], in the order they are tried. *)
Definition locales_candidates {H : Host} : list string :=
  CONFIG_localesDir :: CONFIG_alternativeLocalesPaths.

(** [fs.access(path)] succeeds. *)
Definition accessible (w : World) (path : string) : Prop :=
  is_Some (files w !! path).

(** The world after the diagnostics [errs] were printed, one after the
    other. *)
Definition after_errors (w : World) (errs : list diag) : World :=
  {| files := files w; stdin := stdin w;
     stderr := stderr w ++ errs; written := written w |}.

(** The ten answers that count as a yes. *)
Definition yes_answers : list string :=
  ["y"; "Y"; "yes"; "yeS"; "yEs"; "yES"; "Yes"; "YeS"; "YEs"; "YES"].

(** Every character is one of the white-space characters of ASCII. *)
Definition all_space (s : string) : bool :=
  forallb is_space (list_ascii_of_string s).

(** ** Inputs of the further examples *)

(** The dictionary [greetings] as a JSON value. *)
Definition greetings_tree : json := JObj greetings.

(** The same dictionary with the type the runtime gives it. *)
Definition greetings_dictionary : Dictionary :=
  [("common", DDict [("greeting", DStr "Hello"); ("farewell", DStr "Bye")]);
   ("title", DStr "Analyzer")].

(** The world [w] with every file and directory gone. *)
Definition without_files (w : World) : World :=
  {| files := ∅; stdin := stdin w; stderr := stderr w; written := written w |}.

(** A source directory with a page, a skipped directory, a style sheet, an
    unreadable file, a link and a directory that cannot be listed. *)
Definition project_sources : list (string * option (list dirent)) :=
  [("/project/src",
    Some [FileEntry "Page.tsx"
            (Some "<h1>{t('home.title')}</h1> <b>{t('common:save:now')}</b>");
          DirectoryEntry "node_modules"
            (Some [FileEntry "lib.js" (Some "t('hidden')")]);
          DirectoryEntry "ui"
            (Some [FileEntry "Form.jsx"
                     (Some "x = t('one', { count }); y = i18n.t('cancel')");
                   FileEntry "form.css" (Some "t('style')");
                   FileEntry "Old.ts" None]);
          OtherEntry "link.ts";
          DirectoryEntry "private" None])].

(** * Properties *)

(** ** Own properties *)

Section OwnProperties.
Implicit Types (o : obj) (k : string) (v : json).

Lemma obj_has_get o k : obj_has o k = true ↔ is_Some (obj_get o k).
Proof.
  induction o as [|[k' v'] o IH]; simpl.
  - split; [discriminate | intros [? ?]; discriminate].
  - destruct (k' =? k); [split; eauto | exact IH].
Qed.

Lemma obj_has_false o k : obj_has o k = false ↔ obj_get o k = None.
Proof.
  induction o as [|[k' v'] o IH]; simpl; [tauto|].
  destruct (k' =? k); [split; discriminate | exact IH].
Qed.

Lemma obj_get_set_eq o k v : obj_get (obj_set o k v) k = Some v.
Proof.
  induction o as [|[k' v'] o IH]; simpl.
  - by rewrite String.eqb_refl.
  - destruct (k' =? k) eqn:E; simpl; rewrite E; [done | exact IH].
Qed.

Lemma obj_get_set_ne o k k' v : k ≠ k' → obj_get (obj_set o k v) k' = obj_get o k'.
Proof.
  intros Hne. induction o as [|[k0 v0] o IH]; simpl.
  - by apply String.eqb_neq in Hne as ->.
  - destruct (k0 =? k) eqn:E; simpl.
    + apply String.eqb_eq in E as ->. by apply String.eqb_neq in Hne as ->.
    + by rewrite IH.
Qed.

Lemma obj_get_delete_eq o k : obj_get (obj_delete o k) k = None.
Proof.
  induction o as [|[k' v'] o IH]; simpl; [done|].
  destruct (k' =? k) eqn:E; simpl; [done | by rewrite E].
Qed.

Lemma obj_get_delete_ne o k k' : k ≠ k' → obj_get (obj_delete o k) k' = obj_get o k'.
Proof.
  intros Hne. induction o as [|[k0 v0] o IH]; simpl; [done|].
  destruct (k0 =? k) eqn:E; simpl.
  - apply String.eqb_eq in E as ->. by apply String.eqb_neq in Hne as ->.
  - by rewrite IH.
Qed.

Lemma obj_set_same o k v : obj_get o k = Some v → obj_set o k v = o.
Proof.
  induction o as [|[k' v'] o IH]; simpl; [discriminate|].
  destruct (k' =? k); [by intros [= ->] | intros Hg; by rewrite IH].
Qed.

End OwnProperties.

(** Induction on a JSON tree, with the hypothesis for every item of an
    array and every property value of an object. *)
Lemma json_tree_ind (P : json → Prop) :
  P JNull → (∀ b, P (JBool b)) → (∀ n, P (JNum n)) → (∀ s, P (JStr s)) →
  (∀ items, Forall P items → P (JArr items)) →
  (∀ o, Forall (fun p => P (snd p)) o → P (JObj o)) →
  ∀ v, P v.
Proof.
  intros Hnull Hbool Hnum Hstr Harr Hobj.
  fix IH 1. intros [ | b | n | s | items | o ].
  - exact Hnull.
  - apply Hbool.
  - apply Hnum.
  - apply Hstr.
  - apply Harr. induction items as [|x items IHl]; constructor; [apply IH | exact IHl].
  - apply Hobj. induction o as [|[k x] o IHl]; constructor; [apply IH | exact IHl].
Qed.

(** ** Flattening a value that is no plain object (C10) *)

Lemma getKeys_object o prefix : getKeys (JObj o) prefix = getKeys_each prefix o [].
Proof.
  simpl. generalize (@nil string).
  induction o as [|[k v] o IH]; intros keys; simpl; [done | apply IH].
Qed.

(** C10.  [getKeys] applied to a root that is not a plain object (null, an
    array, a string, a number, a boolean) returns the empty set of keys,
    whatever the prefix; being a total function it returns on every such
    input. *)
Theorem getKeys_non_object_empty (v : json) (prefix : string) :
  is_plain_object v = false → getKeys v prefix = [].
Proof. by destruct v. Qed.

Lemma getKeys_non_object_empty_witness :
  is_plain_object (JArr [JStr "x"; JNull]) = false ∧
  getKeys JNull "" = [] ∧
  getKeys (JArr [JStr "x"; JNull]) "" = [] ∧
  getKeys (JStr "leaf") "a.b" = [].
Proof.
  split; [reflexivity|].
  split; [apply (getKeys_non_object_empty JNull ""); reflexivity|].
  split; [apply (getKeys_non_object_empty (JArr [JStr "x"; JNull]) ""); reflexivity|].
  apply (getKeys_non_object_empty (JStr "leaf") "a.b"); reflexivity.
Defined.

(** ** Pruning of emptied ancestors (C5) *)

Lemma removeKey_last o k :
  removeKey (JObj o) [k] =
    if obj_has o k then (true, JObj (obj_delete o k)) else (false, JObj o).
Proof. reflexivity. Qed.

Lemma removeKey_step o k k' rest :
  removeKey (JObj o) (k :: k' :: rest) =
    match obj_get o k with
    | Some child =>
        if typeof_object child && negb (is_array child) then
          let (removed, child') := removeKey child (k' :: rest) in
          if removed && no_own_keys child'
          then (removed, JObj (obj_delete o k))
          else (removed, JObj (obj_set o k child'))
        else (false, JObj o)
    | None => (false, JObj o)
    end.
Proof. reflexivity. Qed.

Arguments removeKey : simpl never.


Lemma removeKey_non_object v path :
  is_plain_object v = false → removeKey v path = (false, v).
Proof. destruct v, path; try done. Qed.




(** ** Runtime lookup with fallback to the key (C6) *)

Lemma t_loop_function key keys : t_loop key TFunction keys = key.
Proof. by destruct keys. Qed.

Lemma t_loop_null key keys : t_loop key TNull keys = key.
Proof. by destruct keys. Qed.

Lemma t_loop_prototype key keys : t_loop key TObjectPrototype keys = key.
Proof.
  destruct keys as [|k rest]; [done|]. cbn [t_loop t_is_object t_member].
  destruct (set_has Object_prototype_functions k); [apply t_loop_function|].
  destruct (k =? "__proto__"); [apply t_loop_null | done].
Qed.

Lemma t_loop_string key s keys :
  t_loop key (TStr s) keys = match keys with [] => s | _ => key end.
Proof. by destruct keys. Qed.

Lemma t_loop_resolve key d path :
  t_loop key (TDict d) path =
    match resolve d path with Some (DStr s) => s | _ => key end.
Proof.
  revert d. induction path as [|k rest IH]; intros d; [done|].
  cbn [t_loop resolve t_is_object t_member].
  destruct (dict_get d k) as [[s|d']|].
  - cbn [of_DictionaryValue]. rewrite t_loop_string. by destruct rest.
  - cbn [of_DictionaryValue]. apply IH.
  - destruct (set_has Object_prototype_functions k); [apply t_loop_function|].
    destruct (k =? "__proto__"); [apply t_loop_prototype | done].
Qed.

(** C6.  For every dictionary and key, [t] returns the string found by
    walking the segments of the key through the own properties of the
    dictionary, and the key itself, unchanged, when a segment is missing or
    the walk ends on something that is not a string.  [t] is total: it
    throws on no input.  It returns the empty text only when the key is
    empty or the translation found is the empty string. *)
Theorem t_returns_translation_or_key (dictionary : Dictionary) (key : string) :
  t dictionary key =
    match resolve dictionary (split_dot key) with
    | Some (DStr s) => s
    | _ => key
    end
  ∧ (t dictionary key = "" →
     key = "" ∨ resolve dictionary (split_dot key) = Some (DStr "")).
Proof.
  unfold t. rewrite t_loop_resolve.
  split; [done|].
  destruct (resolve dictionary (split_dot key)) as [[s|d]|]; intros Hblank; auto.
  right. by rewrite Hblank.
Qed.

Lemma t_returns_translation_or_key_witness :
  t [("common", DDict [("greeting", DStr "Hello")])] "common.greeting" = "Hello" ∧
  t [("common", DDict [("greeting", DStr "Hello")])] "common.farewell" = "common.farewell" ∧
  t [("common", DDict [("greeting", DStr "Hello")])] "common" = "common" ∧
  t [] "toString" = "toString" ∧
  ("empty" = "" ∨ resolve [("empty", DStr "")] (split_dot "empty") = Some (DStr "")).
Proof.
  repeat split; try reflexivity.
  apply (proj2 (t_returns_translation_or_key [("empty", DStr "")] "empty")).
  reflexivity.
Defined.

(** ** Loading a locale (C1) *)

Section LocaleStore.
Context {H : Host}.

Lemma loadLocale_cases locale dir w :
  loadLocale locale dir w =
    match files w !! locale_file locale dir with
    | None => (Done JNull, w)
    | Some Directory =>
        (Done JNull,
         after_error w
           (LocaleFileError locale "EISDIR: illegal operation on a directory, read"))
    | Some (File content) =>
        match JSON_parse content with
        | Parsed v => (Done v, w)
        | SyntaxError message =>
            (Done JNull, after_error w (LocaleFileError locale message))
        end
    end.
Proof.
  unfold loadLocale, locale_file, io_bind, fs_readFile.
  destruct (files w !! path_join [dir; locale +:+ ".json"]) as [[content|]|]; try done.
  by destruct (JSON_parse content).
Qed.

(** C1, as the code has it.  [loadLocale] resolves to the same value [null]
    when the file is missing and when it exists but does not parse; the two
    cases differ only in that the second prints a diagnostic on the error
    console and the first prints nothing.  A file that parses yields its
    value. *)
Theorem loadLocale_failure_modes (locale dir : string) (w : World) :
  (files w !! locale_file locale dir = None →
   loadLocale locale dir w = (Done JNull, w)) ∧
  (∀ content message,
     files w !! locale_file locale dir = Some (File content) →
     JSON_parse content = SyntaxError message →
     loadLocale locale dir w =
       (Done JNull, after_error w (LocaleFileError locale message))) ∧
  (∀ content v,
     files w !! locale_file locale dir = Some (File content) →
     JSON_parse content = Parsed v →
     loadLocale locale dir w = (Done v, w)).
Proof.
  rewrite loadLocale_cases. repeat split.
  - by intros ->.
  - by intros content message -> ->.
  - by intros content v -> ->.
Qed.

(** [loadLocale] reads: it leaves the files, the pending input and the
    history of writes as they are, and it always resolves. *)
Lemma loadLocale_reads locale dir w :
  ∃ v errs, loadLocale locale dir w =
    (Done v, {| files := files w; stdin := stdin w;
                stderr := stderr w ++ errs; written := written w |}).
Proof.
  rewrite loadLocale_cases. destruct w as [fs input errs log]. simpl.
  destruct (fs !! locale_file locale dir) as [[content|]|].
  - destruct (JSON_parse content); [exists v, [] | eexists JNull, [_]]; simpl;
      by rewrite ?app_nil_r.
  - by eexists JNull, [_].
  - exists JNull, []. simpl. by rewrite app_nil_r.
Qed.

End LocaleStore.


(** C1, as stated, fails: on the reference host, with no [en.json] in one
    world and an [en.json] holding the unparsable text of a lone brace in
    the other, [loadLocale] resolves to the same value. *)
Lemma loadLocale_cannot_tell_apart : ¬ load_tells_apart reference_host.
Proof.
  intros Hclaim.
  apply (Hclaim "en" "/project/src/locales" (world_of [] []) broken_en "{"
           "Unexpected token or end of JSON input");
    reflexivity.
Qed.

Lemma loadLocale_failure_modes_witness :
  loadLocale (H := reference_host) "en" "/project/src/locales" (world_of [] [])
    = (Done JNull, world_of [] []) ∧
  loadLocale (H := reference_host) "en" "/project/src/locales" broken_en
    = (Done JNull,
       after_error broken_en
         (LocaleFileError "en" "Unexpected token or end of JSON input")).
Proof.
  split.
  - apply (proj1 (loadLocale_failure_modes (H := reference_host)
                    "en" "/project/src/locales" (world_of [] []))).
    reflexivity.
  - apply (proj1 (proj2 (loadLocale_failure_modes (H := reference_host)
                           "en" "/project/src/locales" broken_en)) "{").
    + reflexivity.
    + reflexivity.
Defined.

(** ** Sets of strings *)

Lemma set_has_elem keys k : set_has keys k = true ↔ k ∈ keys.
Proof.
  unfold set_has. rewrite existsb_exists. split.
  - intros (x & Hin & Heq). apply String.eqb_eq in Heq as <-. by apply list_elem_of_In.
  - intros Hin. exists k. split; [by apply list_elem_of_In | apply String.eqb_refl].
Qed.

Lemma set_has_not_elem keys k : set_has keys k = false ↔ k ∉ keys.
Proof.
  rewrite <- set_has_elem. destruct (set_has keys k); split; try done.
Qed.

Lemma elem_of_set_add x k keys : x ∈ set_add k keys ↔ x = k ∨ x ∈ keys.
Proof.
  unfold set_add. destruct (set_has keys k) eqn:Hhas.
  - apply set_has_elem in Hhas. split; [auto | intros [-> | ?]; done].
  - rewrite elem_of_app, list_elem_of_singleton. tauto.
Qed.

Lemma elem_of_set_add_all x more keys :
  x ∈ set_add_all more keys ↔ x ∈ more ∨ x ∈ keys.
Proof.
  unfold set_add_all. revert keys.
  induction more as [|k more IH]; intros keys; simpl.
  - rewrite elem_of_nil. tauto.
  - rewrite IH, elem_of_set_add, elem_of_cons. tauto.
Qed.

Lemma NoDup_set_add k keys : NoDup keys → NoDup (set_add k keys).
Proof.
  intros Hnd. unfold set_add. destruct (set_has keys k) eqn:Hhas; [done|].
  apply set_has_not_elem in Hhas.
  apply NoDup_app. repeat split; [done | | apply NoDup_singleton].
  intros x Hx Hk. apply list_elem_of_singleton in Hk as ->. done.
Qed.

Lemma NoDup_set_add_all more keys : NoDup keys → NoDup (set_add_all more keys).
Proof.
  unfold set_add_all. revert keys.
  induction more as [|k more IH]; intros keys Hnd; simpl; [done|].
  apply IH. by apply NoDup_set_add.
Qed.

(** ** Sorting *)

Section Sorting.
Context {A : Type} (cmp : A → A → Z).

Lemma sort_insert_perm x l : Permutation (sort_insert cmp x l) (x :: l).
Proof.
  induction l as [|y l IH]; simpl; [done|].
  destruct (cmp y x <=? 0)%Z; [|done].
  rewrite IH. apply perm_swap.
Qed.

Lemma sort_by_perm l : Permutation (sort_by cmp l) l.
Proof.
  unfold sort_by.
  assert (Hgen : ∀ acc, Permutation (fold_left (fun s x => sort_insert cmp x s) l acc) (acc ++ l)).
  { induction l as [|x l IH]; intros acc; simpl.
    - by rewrite app_nil_r.
    - rewrite IH, sort_insert_perm. simpl. apply Permutation_middle. }
  apply (Hgen []).
Qed.

(** The comparison never says greater both ways. *)
Hypothesis cmp_total : ∀ a b, (cmp a b <= 0 ∨ cmp b a <= 0)%Z.

Lemma sort_insert_sorted x l :
  Sorted (fun a b => (cmp a b <= 0)%Z) l →
  Sorted (fun a b => (cmp a b <= 0)%Z) (sort_insert cmp x l).
Proof.
  induction l as [|y l IH]; intros Hs; simpl.
  - repeat constructor.
  - destruct (Z.leb_spec (cmp y x) 0) as [Hle|Hgt].
    + apply Sorted_inv in Hs as [Hs Hhd]. constructor; [by apply IH|].
      destruct l as [|z l]; simpl.
      * by constructor.
      * apply HdRel_inv in Hhd.
        destruct (cmp z x <=? 0)%Z; by constructor.
    + constructor; [done|]. constructor.
      destruct (cmp_total x y); [done | lia].
Qed.

Lemma sort_by_sorted l : Sorted (fun a b => (cmp a b <= 0)%Z) (sort_by cmp l).
Proof.
  unfold sort_by.
  assert (Hgen : ∀ acc, Sorted (fun a b => (cmp a b <= 0)%Z) acc →
            Sorted (fun a b => (cmp a b <= 0)%Z)
              (fold_left (fun s x => sort_insert cmp x s) l acc)).
  { induction l as [|x l IH]; intros acc Hacc; simpl; [done|].
    apply IH. by apply sort_insert_sorted. }
  apply Hgen. constructor.
Qed.

End Sorting.

(** ** Operations on the world *)

Lemma io_bind_done {A B} (m : IO A) (k : A → IO B) w b w' :
  io_bind m k w = (Done b, w') →
  ∃ a w1, m w = (Done a, w1) ∧ k a w1 = (Done b, w').
Proof.
  unfold io_bind. destruct (m w) as [[a| |e|] w1]; try discriminate. eauto.
Qed.

(** ** The analysis *)

Section Analysis.
Context {H : Host}.

Lemma first_accessible_pure paths w :
  ∃ found, first_accessible paths w = (Done found, w).
Proof.
  induction paths as [|p paths IH]; simpl; [by eexists|].
  unfold io_bind, fs_access.
  destruct (bool_decide (is_Some (files w !! p))); [by eexists | exact IH].
Qed.

Lemma findLocalesDirectory_pure w :
  ∃ found, findLocalesDirectory w = (Done found, w).
Proof.
  unfold findLocalesDirectory, io_bind, fs_access.
  destruct (bool_decide _); [by eexists | apply first_accessible_pure].
Qed.

Lemma load_others_done locales dir keysAcc available w :
  ∃ r w', load_others locales dir keysAcc available w = (Done r, w').
Proof.
  revert keysAcc available w.
  induction locales as [|l locales IH]; intros keysAcc available w; simpl; [by eexists _, _|].
  unfold io_bind.
  destruct (loadLocale_reads l dir w) as (v & errs & ->).
  destruct (truthy v); apply IH.
Qed.


Lemma analyzeLocales_result scanned w r w' :
  analyzeLocales scanned w = (Done (Some r), w') →
  usedKeys r = scanned ∧
  allLocaleKeys r =
    set_add_all (defaultLocaleKeys r ++ concat (map snd (otherLocaleKeys r))) [] ∧
  keyStatuses r =
    sort_by (fun a b => localeCompare (key a) (key b))
      (map (status_of r) (set_add_all (allLocaleKeys r ++ usedKeys r) [])).
Proof.
  unfold analyzeLocales. intros Hrun.
  apply io_bind_done in Hrun as (found & w1 & _ & Hrun).
  destruct found as [dir|].
  2:{ apply io_bind_done in Hrun as (? & ? & _ & Hrun). discriminate. }
  apply io_bind_done in Hrun as (data & w2 & _ & Hrun).
  destruct (negb (truthy data)).
  { apply io_bind_done in Hrun as (? & ? & _ & Hrun). discriminate. }
  apply io_bind_done in Hrun as (others & w3 & _ & Hrun).
  injection Hrun as <- _. done.
Qed.

Lemma elem_of_keyStatuses scanned w r w' s :
  analyzeLocales scanned w = (Done (Some r), w') →
  s ∈ keyStatuses r ↔
  ∃ k, s = status_of r k ∧
       (k ∈ defaultLocaleKeys r ∨ k ∈ concat (map snd (otherLocaleKeys r)) ∨
        k ∈ usedKeys r).
Proof.
  intros Hrun. destruct (analyzeLocales_result _ _ _ _ Hrun) as (_ & Hall & ->).
  rewrite (sort_by_perm _ _), list_elem_of_fmap.
  setoid_rewrite elem_of_set_add_all. setoid_rewrite elem_of_app.
  rewrite Hall. setoid_rewrite elem_of_set_add_all. setoid_rewrite elem_of_app.
  setoid_rewrite elem_of_nil. split; intros (k & -> & Hk); exists k; tauto.
Qed.

End Analysis.

Section Report.
Context {H : Host}.

Lemma load_others_available locales dir keysAcc available w r w' :
  load_others locales dir keysAcc available w = (Done r, w') →
  available = map fst keysAcc →
  snd r = map fst (fst r).
Proof.
  revert keysAcc available w.
  induction locales as [|l locales IH]; intros keysAcc available w; simpl.
  - intros [= <- _] ->. done.
  - intros Hrun Hav. apply io_bind_done in Hrun as (data & w1 & _ & Hrun).
    destruct (truthy data); eapply IH; try exact Hrun; [|done].
    rewrite map_app, Hav. done.
Qed.

Lemma analyzeLocales_available scanned w r w' :
  analyzeLocales scanned w = (Done (Some r), w') →
  availableLocales r = map fst (otherLocaleKeys r).
Proof.
  unfold analyzeLocales. intros Hrun.
  apply io_bind_done in Hrun as (found & w1 & _ & Hrun).
  destruct found as [dir|].
  2:{ apply io_bind_done in Hrun as (? & ? & _ & Hrun). discriminate. }
  apply io_bind_done in Hrun as (data & w2 & _ & Hrun).
  destruct (negb (truthy data)).
  { apply io_bind_done in Hrun as (? & ? & _ & Hrun). discriminate. }
  apply io_bind_done in Hrun as (others & w3 & Hothers & Hrun).
  injection Hrun as <- _. simpl.
  by apply (load_others_available _ _ _ _ _ _ _ Hothers).
Qed.

(** What a report holds comes from the two locale files as loaded. *)
Lemma analyzeLocales_loaded scanned w r w' :
  analyzeLocales scanned w = (Done (Some r), w') →
  ∃ enData wa esData wb,
    loadLocale "en" (localesDir r) w = (Done enData, wa) ∧
    loadLocale "es" (localesDir r) wa = (Done esData, wb) ∧
    defaultLocaleKeys r = getKeys enData "" ∧
    otherLocaleKeys r =
      (if truthy esData then [("es", getKeys esData "")] else []).
Proof.
  unfold analyzeLocales. intros Hrun.
  destruct (findLocalesDirectory_pure w) as [found Hfound].
  unfold io_bind at 1 in Hrun. rewrite Hfound in Hrun.
  destruct found as [dir|].
  2:{ apply io_bind_done in Hrun as (? & ? & _ & Hrun). discriminate. }
  apply io_bind_done in Hrun as (enData & wa & Hen & Hrun).
  destruct (negb (truthy enData)).
  { apply io_bind_done in Hrun as (? & ? & _ & Hrun). discriminate. }
  apply io_bind_done in Hrun as (others & w3 & Hothers & Hrun).
  injection Hrun as <- _. simpl.
  unfold CONFIG_otherLocales in Hothers. cbn [load_others] in Hothers.
  apply io_bind_done in Hothers as (esData & wb & Hes & Hothers).
  exists enData, wa, esData, wb. repeat split; [exact Hen | exact Hes |].
  destruct (truthy esData); by injection Hothers as <-.
Qed.

(** In a report, a flag that says absent is true of the file as it parses:
    the file of the locale does not hold the key. *)
Lemma report_flag_reflects_file scanned w r w' s locale content data :
  analyzeLocales scanned w = (Done (Some r), w') →
  s ∈ keyStatuses r →
  files w !! locale_file (locale_name locale) (localesDir r) = Some (File content) →
  JSON_parse content = Parsed data →
  (match locale with EN => inEN s | ES => inES s end) = false →
  key s ∉ getKeys data "".
Proof.
  intros Hrun Hs Hfile Hparse Hflag.
  apply (elem_of_keyStatuses _ _ _ _ _ Hrun) in Hs as (k & -> & _). simpl.
  destruct (analyzeLocales_loaded _ _ _ _ Hrun)
    as (enData & wa & esData & wb & Hen & Hes & Hdefault & Hother).
  destruct locale; simpl in Hfile, Hflag.
  - rewrite loadLocale_cases, Hfile, Hparse in Hen. injection Hen as <- _.
    rewrite Hdefault in Hflag. by apply set_has_not_elem.
  - destruct (loadLocale_reads "en" (localesDir r) w) as (v & errs & Hreads).
    rewrite Hreads in Hen. injection Hen as _ <-.
    rewrite loadLocale_cases in Hes. simpl in Hes.
    rewrite Hfile, Hparse in Hes. injection Hes as <- _.
    unfold has_in_locale in Hflag. rewrite Hother in Hflag.
    destruct (truthy data) eqn:Htruthy; simpl in Hflag.
    + by apply set_has_not_elem.
    + destruct data; try done; apply not_elem_of_nil.
Qed.

Lemma locale_lookup_None table locale :
  locale ∉ map fst table → locale_lookup table locale = None.
Proof.
  induction table as [|[l keys] table IH]; simpl; [done|].
  rewrite not_elem_of_cons. intros [Hne Hnot].
  destruct (l =? locale) eqn:E; [by apply String.eqb_eq in E | by apply IH].
Qed.

(** C2, as the code has it.  When the comparison of the host is consistent
    (one string is less than another exactly when the other is greater than
    the one, and less-or-equal is transitive), the per-key report is ordered
    by [localeCompare], the collation of the host: the key of each entry
    compares less than or equal to the key of every later entry; and no key
    occurs twice in the report. *)
Theorem keyStatuses_sorted_by_localeCompare
    (scanned : list string) (w : World) (r : AnalysisResult) (w' : World) :
  (∀ a b, (localeCompare a b < 0 ↔ 0 < localeCompare b a)%Z) →
  (∀ a b c, (localeCompare a b <= 0 → localeCompare b c <= 0 →
             localeCompare a c <= 0)%Z) →
  analyzeLocales scanned w = (Done (Some r), w') →
  StronglySorted (fun a b => (localeCompare (key a) (key b) <= 0)%Z)
    (keyStatuses r) ∧
  NoDup (map key (keyStatuses r)).
Proof.
  intros Hanti Htrans Hrun.
  destruct (analyzeLocales_result _ _ _ _ Hrun) as (_ & _ & ->). split.
  - apply Sorted_StronglySorted.
    { intros a b c. apply Htrans. }
    apply (sort_by_sorted (fun a b => localeCompare (key a) (key b))).
    intros a b.
    destruct (Z.le_gt_cases (localeCompare (key a) (key b)) 0) as [Hle | Hgt];
      [by left | right].
    apply Z.lt_le_incl, Hanti. lia.
  - rewrite (sort_by_perm _ _), map_map. simpl. rewrite map_id.
    apply NoDup_set_add_all. constructor.
Qed.

(** C3, as the code has it.  The keys selected by the add-missing operation
    are exactly the keys used in code that are absent from the default
    locale or not recorded for the secondary locale [es]; a secondary locale
    that did not load has no key recorded, so every key used in code is
    then selected. *)
Theorem keysInCodeOnly_selection
    (scanned : list string) (w : World) (r : AnalysisResult) (w' : World) :
  analyzeLocales scanned w = (Done (Some r), w') →
  (∀ k, k ∈ map key (keysInCodeOnly r) ↔
        k ∈ usedKeys r ∧
        ¬ (k ∈ defaultLocaleKeys r ∧
           has_in_locale (otherLocaleKeys r) "es" k = true)) ∧
  ("es" ∉ availableLocales r →
   ∀ k, k ∈ usedKeys r → k ∈ map key (keysInCodeOnly r)).
Proof.
  intros Hrun.
  assert (Hsel : ∀ k, k ∈ map key (keysInCodeOnly r) ↔
        k ∈ usedKeys r ∧
        ¬ (k ∈ defaultLocaleKeys r ∧
           has_in_locale (otherLocaleKeys r) "es" k = true)).
  { intros k. unfold keysInCodeOnly. rewrite list_elem_of_fmap. split.
    - intros (s & -> & Hs). apply list_elem_of_In, filter_In in Hs as [Hs Hflags].
      apply list_elem_of_In, (elem_of_keyStatuses _ _ _ _ _ Hrun) in Hs as (k & -> & _).
      simpl in *. apply andb_true_iff in Hflags as [Hcode Hlack].
      apply set_has_elem in Hcode. split; [done|].
      intros [Hen Hes]. apply set_has_elem in Hen. rewrite Hen, Hes in Hlack. done.
    - intros [Hused Hlack]. exists (status_of r k). split; [done|].
      apply list_elem_of_In, filter_In. split.
      + apply list_elem_of_In, (elem_of_keyStatuses _ _ _ _ _ Hrun). eauto.
      + simpl. apply andb_true_iff. split; [by apply set_has_elem|].
        destruct (set_has (defaultLocaleKeys r) k) eqn:Hen; [|done].
        destruct (has_in_locale (otherLocaleKeys r) "es" k) eqn:Hes; [|done].
        destruct Hlack. split; [by apply set_has_elem | done]. }
  split; [exact Hsel|].
  intros Hnot k Hused. apply Hsel. split; [done|]. intros [_ Hes].
  rewrite (analyzeLocales_available _ _ _ _ Hrun) in Hnot.
  unfold has_in_locale in Hes. by rewrite (locale_lookup_None _ _ Hnot) in Hes.
Qed.

End Report.

(** *** The reference comparison is consistent *)

Lemma compare_codes_antisym a b :
  RefHost.compare_codes b a = CompOpp (RefHost.compare_codes a b).
Proof.
  revert b. induction a as [|x a IH]; intros [|y b]; simpl; try done.
  rewrite (Nat.compare_antisym x y).
  destruct (x ?= y)%nat; simpl; [apply IH | done | done].
Qed.

Lemma compare_codes_eq a b : RefHost.compare_codes a b = Eq → a = b.
Proof.
  revert b. induction a as [|x a IH]; intros [|y b]; simpl; try done.
  destruct (Nat.compare_spec x y) as [-> | |]; try done.
  intros Hc. by rewrite (IH b Hc).
Qed.

Lemma compare_codes_refl a : RefHost.compare_codes a a = Eq.
Proof. induction a as [|x a IH]; simpl; [done|]. by rewrite Nat.compare_refl. Qed.

Lemma compare_codes_lt_trans a b c :
  RefHost.compare_codes a b = Lt → RefHost.compare_codes b c = Lt →
  RefHost.compare_codes a c = Lt.
Proof.
  revert b c. induction a as [|x a IH]; intros [|y b] [|z c]; simpl; try done.
  destruct (Nat.compare_spec x y) as [-> | Hxy | Hxy]; try done.
  - destruct (Nat.compare_spec y z) as [-> | Hyz | Hyz]; try done. apply IH.
  - intros _. destruct (Nat.compare_spec y z) as [-> | Hyz | Hyz]; try done.
    + intros _. destruct (Nat.compare_spec x z); [lia | done | lia].
    + intros _. destruct (Nat.compare_spec x z); [lia | done | lia].
Qed.

Lemma compare_codes_le_trans a b c :
  RefHost.compare_codes a b ≠ Gt → RefHost.compare_codes b c ≠ Gt →
  RefHost.compare_codes a c ≠ Gt.
Proof.
  destruct (RefHost.compare_codes a b) eqn:Hab; [|  |done].
  - apply compare_codes_eq in Hab as ->. done.
  - destruct (RefHost.compare_codes b c) eqn:Hbc; [| |done].
    + apply compare_codes_eq in Hbc as ->. by rewrite Hab.
    + by rewrite (compare_codes_lt_trans a b c).
Qed.

Lemma reference_localeCompare_antisym a b :
  (localeCompare (Host := reference_host) a b < 0 ↔
   0 < localeCompare (Host := reference_host) b a)%Z.
Proof.
  simpl. unfold RefHost.localeCompare.
  rewrite (compare_codes_antisym (RefHost.primary a)),
          (compare_codes_antisym (RefHost.tertiary a)).
  destruct (RefHost.compare_codes (RefHost.primary a) (RefHost.primary b)); simpl;
    [|lia|lia].
  destruct (RefHost.compare_codes (RefHost.tertiary a) (RefHost.tertiary b)); simpl; lia.
Qed.

Lemma reference_localeCompare_le a b :
  (localeCompare (Host := reference_host) a b <= 0)%Z ↔
  RefHost.compare_codes (RefHost.primary a) (RefHost.primary b) = Lt ∨
  (RefHost.primary a = RefHost.primary b ∧
   RefHost.compare_codes (RefHost.tertiary a) (RefHost.tertiary b) ≠ Gt).
Proof.
  simpl. unfold RefHost.localeCompare.
  destruct (RefHost.compare_codes (RefHost.primary a) (RefHost.primary b)) eqn:Hp.
  - apply compare_codes_eq in Hp.
    destruct (RefHost.compare_codes (RefHost.tertiary a) (RefHost.tertiary b));
      split; try lia; try (intros _; right; by split);
      intros [? | [_ ?]]; done.
  - split; [by left | lia].
  - split; [lia|]. intros [? | [Heq _]]; [done|].
    rewrite Heq, compare_codes_refl in Hp. done.
Qed.

Lemma reference_localeCompare_trans a b c :
  (localeCompare (Host := reference_host) a b <= 0 →
   localeCompare (Host := reference_host) b c <= 0 →
   localeCompare (Host := reference_host) a c <= 0)%Z.
Proof.
  rewrite !reference_localeCompare_le.
  intros [Hab | [Hab Htab]] [Hbc | [Hbc Htbc]].
  - left. by apply (compare_codes_lt_trans _ (RefHost.primary b)).
  - left. by rewrite <- Hbc.
  - left. by rewrite Hab.
  - right. split; [congruence|].
    by apply (compare_codes_le_trans _ (RefHost.tertiary b)).
Qed.

(** *** Examples on the reference host *)


(** C2, as stated, fails: with the keys [B] and [a] in the default locale,
    the report on the reference host lists [a] before [B], and [a] is not
    smaller than [B] in code-point order. *)
Lemma keyStatuses_not_in_code_point_order :
  ∃ r w', analyzeLocales (H := reference_host) [] upper_and_lower = (Done (Some r), w') ∧
          map key (keyStatuses r) = ["a"; "B"] ∧
          ¬ sorted_by_code_point r.
Proof.
  eexists _, _. split; [vm_compute; reflexivity|].
  split; [reflexivity|].
  intros Hsorted. apply Sorted_inv in Hsorted as [_ Hhd].
  apply HdRel_inv in Hhd. discriminate.
Qed.

Lemma keyStatuses_sorted_by_localeCompare_witness :
  ∃ r w', analyzeLocales (H := reference_host) [] upper_and_lower = (Done (Some r), w') ∧
          StronglySorted
            (fun a b => (localeCompare (Host := reference_host) (key a) (key b) <= 0)%Z)
            (keyStatuses r) ∧
          NoDup (map key (keyStatuses r)).
Proof.
  eexists _, _. split; [vm_compute; reflexivity|].
  eapply (keyStatuses_sorted_by_localeCompare (H := reference_host) [] upper_and_lower).
  - exact reference_localeCompare_antisym.
  - exact reference_localeCompare_trans.
  - vm_compute; reflexivity.
Defined.


(** C3, as stated, fails: with [a] in the default locale, no [es.json] and
    [a] used in code, the operation selects [a], which the set of the claim
    excludes (no available locale lacks it). *)
Lemma keysInCodeOnly_counts_unloaded_locale :
  ∃ r w', analyzeLocales (H := reference_host) ["a"] only_default_locale
            = (Done (Some r), w') ∧
          availableLocales r = [] ∧
          "a" ∈ map key (keysInCodeOnly r) ∧
          ¬ missing_as_specified r "a".
Proof.
  eexists _, _. split; [vm_compute; reflexivity|].
  split; [reflexivity|]. split; [vm_compute; apply list_elem_of_here|].
  intros [_ Hnot]. apply Hnot. split.
  - vm_compute. apply list_elem_of_here.
  - intros locale Hin. simpl in Hin. by apply elem_of_nil in Hin.
Qed.

Lemma keysInCodeOnly_selection_witness :
  ∃ r w', analyzeLocales (H := reference_host) ["a"] only_default_locale
            = (Done (Some r), w') ∧
          "a" ∈ map key (keysInCodeOnly r).
Proof.
  eexists _, _. split; [vm_compute; reflexivity|].
  eapply (proj2 (keysInCodeOnly_selection (H := reference_host)
                   ["a"] only_default_locale _ _ ltac:(vm_compute; reflexivity))).
  - vm_compute. apply not_elem_of_nil.
  - vm_compute. apply list_elem_of_here.
Defined.

(** ** What the mutation operations write (C8, C9) *)

Lemma split_dot_nonempty s : split_dot s ≠ [].
Proof.
  destruct s as [|c s]; simpl; [done|].
  destruct (split_dot s); [done|]. by destruct (Ascii.eqb c ".").
Qed.

Lemma setNestedKey_last o k value :
  setNestedKey o [k] value =
    if (k =? "__proto__") && negb (obj_has o k) then Some o
    else Some (obj_set o k (JStr value)).
Proof. reflexivity. Qed.

Lemma setNestedKey_step o k k' rest value :
  setNestedKey o (k :: k' :: rest) value =
    match obj_get o k with
    | Some (JObj child) =>
        child' ← setNestedKey child (k' :: rest) value;
        Some (obj_set o k (JObj child'))
    | Some _ =>
        child' ← setNestedKey [] (k' :: rest) value;
        Some (obj_set o k (JObj child'))
    | None =>
        if k =? "__proto__" then
          match k' :: rest with
          | [last] => if last =? "__proto__" then Some o else None
          | _ => None
          end
        else
          child' ← setNestedKey [] (k' :: rest) value;
          Some (obj_set o k (JObj child'))
    end.
Proof. reflexivity. Qed.

Arguments setNestedKey : simpl never.




Section Frame.
Context {H : Host}.

Lemma writes_in_ret {A} P (a : A) : writes_in P (io_ret a).
Proof.
  intros w out w' [= <- <-]. exists []. by rewrite app_nil_r.
Qed.

Lemma writes_in_stop {A} P (out : outcome A) : writes_in P (fun w => (out, w)).
Proof.
  intros w out' w' [= <- <-]. exists []. by rewrite app_nil_r.
Qed.

Lemma writes_in_bind {A B} P (m : IO A) (k : A → IO B) :
  writes_in P m → (∀ a, writes_in P (k a)) → writes_in P (io_bind m k).
Proof.
  intros Hm Hk w out w' Hrun. unfold io_bind in Hrun.
  destruct (m w) as [out1 w1] eqn:Hmw.
  destruct (Hm _ _ _ Hmw) as (new1 & Hlog1 & HP1 & Hfiles1).
  destruct out1 as [a| |e|]; try (injection Hrun as <- <-; by exists new1).
  destruct (Hk a _ _ _ Hrun) as (new2 & Hlog2 & HP2 & Hfiles2).
  exists (new1 ++ new2). rewrite Hlog2, Hlog1, app_assoc. split; [done|].
  split; [by apply Forall_app|].
  intros p Hp. rewrite map_app, not_elem_of_app in Hp. destruct Hp as [Hp1 Hp2].
  by rewrite Hfiles2, Hfiles1.
Qed.

Lemma writes_in_mono {A} (P Q : string * string → Prop) (m : IO A) :
  (∀ e, P e → Q e) → writes_in P m → writes_in Q m.
Proof.
  intros HPQ Hm w out w' Hrun.
  destruct (Hm _ _ _ Hrun) as (new & Hlog & HP & Hfiles).
  exists new. split; [done|]. split; [|done].
  eapply Forall_impl; [exact HP | exact HPQ].
Qed.

Lemma writes_in_for {A} (P : A → string * string → Prop) (xs : list A)
    (body : A → IO unit) :
  (∀ x, x ∈ xs → writes_in (P x) (body x)) →
  writes_in (fun e => ∃ x, x ∈ xs ∧ P x e) (io_for xs body).
Proof.
  induction xs as [|x xs IH]; intros Hbody; simpl; [apply writes_in_ret|].
  apply writes_in_bind.
  - eapply writes_in_mono; [|apply Hbody, list_elem_of_here].
    intros e He. exists x. split; [apply list_elem_of_here | done].
  - intros _. eapply writes_in_mono; [|apply IH].
    + intros e (y & Hy & He). exists y. split; [by apply list_elem_of_further | done].
    + intros y Hy. apply Hbody. by apply list_elem_of_further.
Qed.

Lemma writes_in_question P : writes_in P rl_question.
Proof.
  intros w out w' Hrun. unfold rl_question in Hrun.
  exists []. rewrite app_nil_r.
  destruct (stdin w); injection Hrun as <- <-; done.
Qed.

Lemma writes_in_askConfirmation P : writes_in P askConfirmation.
Proof.
  apply writes_in_bind; [apply writes_in_question | intros; apply writes_in_ret].
Qed.

Lemma writes_in_askInput P : writes_in P askInput.
Proof.
  apply writes_in_bind; [apply writes_in_question | intros; apply writes_in_ret].
Qed.

Lemma writes_in_loadLocale P locale dir : writes_in P (loadLocale locale dir).
Proof.
  intros w out w' Hrun.
  destruct (loadLocale_reads locale dir w) as (v & errs & Hload).
  rewrite Hload in Hrun. injection Hrun as <- <-.
  exists []. by rewrite app_nil_r.
Qed.

Lemma writes_in_writeFile (P : string * string → Prop) path content :
  P (path, content) → writes_in P (fs_writeFile path content).
Proof.
  intros HP w out w' Hrun. unfold fs_writeFile in Hrun.
  assert (Hwrite : (out, w') = (Done tt, after_write w path content) →
    ∃ new, written w' = written w ++ new ∧ Forall P new ∧
           ∀ p, p ∉ map fst new → files w' !! p = files w !! p).
  { intros [= -> ->]. exists [(path, content)]. split; [done|].
    split; [by constructor|]. intros p Hp. simpl in *.
    apply lookup_insert_ne. intros ->. apply Hp, list_elem_of_here. }
  destruct (files w !! path) as [[c|]|]; try (by apply Hwrite).
  injection Hrun as <- <-. exists []. by rewrite app_nil_r.
Qed.


Lemma writes_in_add_key_to locale dir k translation :
  writes_in (writes_key locale dir k translation)
    (add_key_to locale dir k translation).
Proof.
  unfold add_key_to. apply writes_in_bind; [apply writes_in_loadLocale|].
  intros loaded.
  destruct (setNestedKey_on (if truthy loaded then loaded else JObj [])
              (split_dot k) translation) as [data'| |] eqn:Hset;
    try apply writes_in_stop.
  apply writes_in_writeFile. split; [done|]. by eexists _, data'.
Qed.



Lemma add_key_to_stdin locale dir k translation w out w' :
  add_key_to locale dir k translation w = (out, w') → stdin w' = stdin w.
Proof.
  unfold add_key_to. unfold io_bind at 1.
  destruct (loadLocale_reads locale dir w) as (v & errs & ->).
  destruct (setNestedKey_on (if truthy v then v else JObj [])
              (split_dot k) translation) as [data'| |];
    try (by intros [= _ <-]).
  unfold fs_writeFile. simpl.
  destruct (files w !! path_join [dir; locale +:+ ".json"]) as [[|]|];
    by intros [= _ <-].
Qed.

Lemma writes_in_add_missing_key r s :
  writes_in
    (fun e => ∃ locale translation,
                in_locale locale s = false ∧
                writes_key (locale_name locale) (localesDir r) (key s)
                  translation e)
    (add_missing_key r s).
Proof.
  unfold add_missing_key.
  apply writes_in_bind; [apply writes_in_askInput | intros answer].
  apply writes_in_bind; [|intros _].
  - destruct (inEN s) eqn:Hen; simpl; [apply writes_in_ret|].
    eapply writes_in_mono; [|apply writes_in_add_key_to].
    intros e He. by exists EN, (translation_for answer (key s)).
  - destruct (inES s) eqn:Hes; simpl; [apply writes_in_ret|].
    eapply writes_in_mono; [|apply writes_in_add_key_to].
    intros e He. by exists ES, (translation_for answer (key s)).
Qed.

Lemma writes_in_addMissingKeys r :
  writes_in
    (fun e => ∃ s locale translation,
                s ∈ keysInCodeOnly r ∧ in_locale locale s = false ∧
                writes_key (locale_name locale) (localesDir r) (key s)
                  translation e)
    (addMissingKeys r).
Proof.
  unfold addMissingKeys.
  destruct (keysInCodeOnly r) as [|s0 selected] eqn:Hsel; [apply writes_in_ret|].
  apply writes_in_bind; [apply writes_in_askConfirmation | intros proceed].
  destruct (negb proceed); [apply writes_in_ret|].
  eapply writes_in_mono;
    [|apply (writes_in_for (fun s e => ∃ locale translation,
                in_locale locale s = false ∧
                writes_key (locale_name locale) (localesDir r) (key s)
                  translation e))].
  - intros e (s & Hs & locale & translation & Hflag & He).
    by exists s, locale, translation.
  - intros s _. apply writes_in_add_missing_key.
Qed.



Lemma writes_in_deleteKeysFromLocale r locale :
  writes_in (fun e => fst e = locale_file (locale_name locale) (localesDir r))
    (deleteKeysFromLocale r locale).
Proof.
  unfold deleteKeysFromLocale.
  destruct (keysInLocaleOnly r locale); [apply writes_in_ret|].
  apply writes_in_bind; [apply writes_in_askConfirmation | intros proceed].
  destruct (negb proceed); [apply writes_in_ret|].
  apply writes_in_bind; [apply writes_in_askConfirmation | intros confirmDelete].
  destruct (negb confirmDelete); [apply writes_in_ret|].
  apply writes_in_bind; [apply writes_in_loadLocale | intros data].
  destruct (negb (truthy data)); [apply writes_in_ret|].
  by apply writes_in_writeFile.
Qed.

(** C8.  Delete-unused on a locale, whatever the input and however it ends,
    writes only the file of that locale.  Add-missing, in every run the
    embedding covers, writes a file only to add a selected key to a locale
    that the report it was given flags as lacking that key: each text
    written is the text of a value into which [setNestedKey] has set that
    very key.  Every file that is not written is as it was before.  In a
    report that [analyzeLocales] has just made, a key flagged as absent from
    a locale is not among the keys of the file of that locale. *)
Theorem mutations_leave_other_files (r : AnalysisResult) (w : World) :
  (∀ locale,
     let target := locale_file (locale_name locale) (localesDir r) in
     let w' := snd (deleteKeysFromLocale r locale w) in
     (∃ new, written w' = written w ++ new ∧ Forall (fun e => fst e = target) new) ∧
     (∀ p, p ≠ target → files w' !! p = files w !! p)) ∧
  (∀ out w',
     addMissingKeys r w = (out, w') → out ≠ OutOfModel →
     ∃ new, written w' = written w ++ new ∧
       Forall (fun e => ∃ s locale translation,
                 s ∈ keysInCodeOnly r ∧ in_locale locale s = false ∧
                 writes_key (locale_name locale) (localesDir r) (key s)
                   translation e) new ∧
       ∀ p, p ∉ map fst new → files w' !! p = files w !! p) ∧
  (∀ scanned w1 s locale content data,
     analyzeLocales scanned w = (Done (Some r), w1) →
     s ∈ keysInCodeOnly r →
     files w !! locale_file (locale_name locale) (localesDir r) = Some (File content) →
     JSON_parse content = Parsed data →
     (match locale with EN => inEN s | ES => inES s end) = false →
     key s ∉ getKeys data "").
Proof.
  split; [|split].
  - intros locale target w'.
    destruct (deleteKeysFromLocale r locale w) as [out w1] eqn:Hrun.
    destruct (writes_in_deleteKeysFromLocale r locale _ _ _ Hrun)
      as (new & Hlog & Hnew & Hfiles).
    subst w'. simpl. split; [by exists new|].
    intros p Hp. apply Hfiles. intros Hin.
    apply list_elem_of_fmap in Hin as (e & -> & He).
    rewrite Forall_forall in Hnew. by apply Hp, Hnew.
  - intros out w' Hrun _. apply (writes_in_addMissingKeys r _ _ _ Hrun).
  - intros scanned w1 s locale content data Hrun Hs.
    apply (report_flag_reflects_file scanned w r w1 s locale content data Hrun).
    unfold keysInCodeOnly in Hs. apply list_elem_of_In, filter_In in Hs as [Hs _].
    by apply list_elem_of_In.
Qed.


End Frame.

(** ** Leaves, paths and flattened keys *)

Lemma get_path_leaf v path l :
  is_plain_object v = false → get_path v path = Some l → path = [] ∧ l = v.
Proof.
  intros Hv. destruct path as [|k rest]; simpl.
  - by intros [= <-].
  - by destruct v.
Qed.

Lemma get_path_app v p r :
  get_path v (p ++ r) = get_path v p ≫= fun x => get_path x r.
Proof.
  revert v. induction p as [|k p IH]; intros v; simpl; [done|].
  destruct v as [ | | | | |o]; try done.
  destruct (obj_get o k); [apply IH | done].
Qed.

(** Two leaves of one tree: if the path of one begins the path of the
    other, they are the same leaf. *)
Lemma leaf_at_prefix v p q l l' :
  leaf_at v p l → leaf_at v q l' → is_prefix p q → p = q ∧ l = l'.
Proof.
  intros [Hp Hl] [Hq _] [r ->]. rewrite get_path_app, Hp in Hq. simpl in Hq.
  destruct (get_path_leaf _ _ _ Hl Hq) as [-> ->]. by rewrite app_nil_r.
Qed.

Lemma leaf_at_empty_object q l : ¬ leaf_at (JObj []) q l.
Proof. intros [Hget Hl]. destruct q; simpl in Hget; [by injection Hget as <- | done]. Qed.

Lemma obj_get_elem (o : obj) k v :
  distinct (map fst o) = true → (k, v) ∈ o ↔ obj_get o k = Some v.
Proof.
  induction o as [|[k0 v0] o IH]; simpl.
  - intros _. rewrite elem_of_nil. split; [done | discriminate].
  - intros Hd. apply andb_true_iff in Hd as [Hfresh Hd].
    apply negb_true_iff, set_has_not_elem in Hfresh.
    rewrite elem_of_cons, (IH Hd). destruct (k0 =? k) eqn:E.
    + apply String.eqb_eq in E as ->. split.
      * intros [Heq | Hget]; [by injection Heq as ->|]. destruct Hfresh.
        apply IH in Hget; [|done]. apply list_elem_of_fmap. by exists (k, v).
      * intros [= ->]. by left.
    + apply String.eqb_neq in E. split; [|auto].
      intros [Heq | Hget]; [by injection Heq as -> | done].
Qed.

Lemma elem_of_leaves_object (o : obj) q l :
  (q, l) ∈ leaves (JObj o) ↔
  ∃ k v, (k, v) ∈ o ∧
         ((is_plain_object v = false ∧ q = [k] ∧ l = v) ∨
          (is_plain_object v = true ∧ ∃ q', q = k :: q' ∧ (q', l) ∈ leaves v)).
Proof.
  cbn [leaves]. rewrite list_elem_of_In, in_flat_map. split.
  - intros ([k v] & Hin & Hq). apply list_elem_of_In in Hin, Hq. simpl in Hq.
    exists k, v. split; [done|]. destruct (is_plain_object v); [right | left].
    + split; [done|]. apply list_elem_of_fmap in Hq as ([q' l'] & [= -> ->] & Hq).
      by exists q'.
    + apply list_elem_of_singleton in Hq as [= -> ->]. done.
  - intros (k & v & Hin & Hcase). exists (k, v). split; [by apply list_elem_of_In|].
    apply list_elem_of_In. simpl.
    destruct Hcase as [(-> & -> & ->) | (-> & q' & -> & Hq)].
    + apply list_elem_of_singleton. done.
    + apply list_elem_of_fmap. by exists (q', l).
Qed.

(** The keys the loop of [getKeys] adds to [keys]. *)
Lemma elem_of_getKeys_each prefix (o : obj) keys k :
  k ∈ getKeys_each prefix o keys ↔
  k ∈ keys ∨
  ∃ name child, (name, child) ∈ o ∧
    ((is_plain_object child = false ∧ k = fullKey prefix name) ∨
     (is_plain_object child = true ∧ k ∈ getKeys child (fullKey prefix name))).
Proof.
  revert keys. induction o as [|[name child] o IH]; intros keys; simpl.
  - split; [auto | intros [? | (? & ? & Hin & _)]; [done | by apply elem_of_nil in Hin]].
  - rewrite IH. setoid_rewrite elem_of_cons. split.
    + intros [Hk | (n & c & Hin & Hcase)].
      * destruct (is_plain_object child) eqn:Hc.
        -- apply elem_of_set_add_all in Hk as [Hk | Hk]; [|by left].
           right. exists name, child. split; [by left | right; done].
        -- apply elem_of_set_add in Hk as [-> | Hk]; [|by left].
           right. exists name, child. split; [by left | left; done].
      * right. exists n, c. split; [by right | done].
    + intros [Hk | (n & c & [[= -> ->] | Hin] & Hcase)].
      * left. destruct (is_plain_object child);
          [apply elem_of_set_add_all | apply elem_of_set_add]; by right.
      * left. destruct Hcase as [[-> ->] | [-> Hk]];
          [apply elem_of_set_add | apply elem_of_set_add_all]; by left.
      * right. by exists n, c.
Qed.

(** The flattened keys are the joined paths of the leaves. *)
Lemma elem_of_getKeys v prefix k :
  k ∈ getKeys v prefix ↔ ∃ q l, (q, l) ∈ leaves v ∧ k = join_path prefix q.
Proof.
  revert prefix k. induction v as [ | | | | |o IH] using json_tree_ind;
    intros prefix k;
    try (split; [intros Hk; by apply elem_of_nil in Hk
                | intros (? & ? & Hin & _); by apply elem_of_nil in Hin]).
  rewrite getKeys_object, elem_of_getKeys_each.
  setoid_rewrite elem_of_leaves_object. rewrite Forall_forall in IH. split.
  - intros [Hk | (name & child & Hin & Hcase)]; [by apply elem_of_nil in Hk|].
    destruct Hcase as [[Hc ->] | [Hc Hk]].
    + exists [name], child. split; [|done]. exists name, child. split; [done | by left].
    + apply (IH _ Hin) in Hk as (q' & l & Hq' & ->).
      exists (name :: q'), l. split; [|done].
      exists name, child. split; [done|]. right. split; [done|]. by exists q'.
  - intros (q & l & (name & child & Hin & Hcase) & ->). right.
    exists name, child. split; [done|].
    destruct Hcase as [(Hc & -> & ->) | (Hc & q' & -> & Hq')]; [by left|].
    right. split; [done|]. apply (IH _ Hin). by exists q', l.
Qed.

(** With distinct names at every node, the leaves are what the paths
    reach. *)
Lemma elem_of_leaves v q l :
  unique_names v = true → (q, l) ∈ leaves v ↔ q ≠ [] ∧ leaf_at v q l.
Proof.
  revert q l. induction v as [ | | | | |o IH] using json_tree_ind; intros q l Hu;
    try (split; [intros Hin; by apply elem_of_nil in Hin
                | intros [Hq [Hget _]]; by destruct q]).
  cbn [unique_names] in Hu. apply andb_true_iff in Hu as [Hd Hu].
  rewrite forallb_forall in Hu. rewrite Forall_forall in IH.
  rewrite elem_of_leaves_object. unfold leaf_at. split.
  - intros (k & v & Hin & Hcase).
    pose proof (proj1 (obj_get_elem _ _ _ Hd) Hin) as Hget.
    destruct Hcase as [(Hv & -> & ->) | (Hv & q' & -> & Hq')].
    + split; [done|]. simpl. by rewrite Hget.
    + apply (IH _ Hin) in Hq' as [Hne [Hq' Hl]].
      2:{ apply (Hu (k, v)). by apply list_elem_of_In. }
      split; [done|]. simpl. by rewrite Hget.
  - intros [Hq [Hget Hl]]. destruct q as [|k q']; [done|]. simpl in Hget.
    destruct (obj_get o k) as [v|] eqn:Hk; [|done].
    apply (obj_get_elem _ _ _ Hd) in Hk. exists k, v. split; [done|].
    destruct (is_plain_object v) eqn:Hv; [right | left].
    + split; [done|]. exists q'. split; [done|]. apply (IH _ Hk).
      * apply (Hu (k, v)). by apply list_elem_of_In.
      * split; [|done]. intros ->. simpl in Hget. injection Hget as <-. congruence.
    + destruct (get_path_leaf _ _ _ Hv Hget) as [-> ->]. done.
Qed.

Lemma leaves_plain v q l :
  plain_names v = true → (q, l) ∈ leaves v → Forall (fun k => plain_name k = true) q.
Proof.
  revert q l. induction v as [ | | | | |o IH] using json_tree_ind; intros q l Hp Hin;
    try (by apply elem_of_nil in Hin).
  cbn [plain_names] in Hp. rewrite forallb_forall in Hp. rewrite Forall_forall in IH.
  apply elem_of_leaves_object in Hin as (k & v & Hin & Hcase).
  pose proof (Hp (k, v) (proj1 (list_elem_of_In _ _) Hin)) as Hkv.
  apply andb_true_iff in Hkv as [Hk Hv]. simpl in Hk, Hv.
  destruct Hcase as [(_ & -> & ->) | (_ & q' & -> & Hq')].
  - by repeat constructor.
  - constructor; [done|]. by apply (IH _ Hin _ l).
Qed.

Lemma leaves_no_proto v q l :
  no_proto_names v = true → (q, l) ∈ leaves v → Forall (fun k => k ≠ "__proto__") q.
Proof.
  revert q l. induction v as [ | | | | |o IH] using json_tree_ind; intros q l Hp Hin;
    try (by apply elem_of_nil in Hin).
  cbn [no_proto_names] in Hp. rewrite forallb_forall in Hp. rewrite Forall_forall in IH.
  apply elem_of_leaves_object in Hin as (k & v & Hin & Hcase).
  pose proof (Hp (k, v) (proj1 (list_elem_of_In _ _) Hin)) as Hkv.
  apply andb_true_iff in Hkv as [Hk Hv]. simpl in Hk, Hv.
  apply negb_true_iff, String.eqb_neq in Hk.
  destruct Hcase as [(_ & -> & ->) | (_ & q' & -> & Hq')].
  - by repeat constructor.
  - constructor; [done|]. by apply (IH _ Hin _ l).
Qed.

Lemma leaves_string_tree v q l :
  string_tree v = true → (q, l) ∈ leaves v → ∃ s, l = JStr s.
Proof.
  revert q l. induction v as [ | | | | |o IH] using json_tree_ind; intros q l Hp Hin;
    try (by apply elem_of_nil in Hin).
  cbn [string_tree] in Hp. rewrite forallb_forall in Hp. rewrite Forall_forall in IH.
  apply elem_of_leaves_object in Hin as (k & v & Hin & Hcase).
  pose proof (Hp (k, v) (proj1 (list_elem_of_In _ _) Hin)) as Hv. simpl in Hv.
  destruct Hcase as [(Hleaf & -> & ->) | (_ & q' & -> & Hq')].
  - destruct v; try done. by eexists.
  - by apply (IH _ Hin q').
Qed.

(** *** Splitting a joined path *)

Lemma split_dot_plain k : has_dot k = false → split_dot k = [k].
Proof.
  induction k as [|c k IH]; simpl; [done|].
  intros Hd. apply orb_false_iff in Hd as [Hc Hd].
  rewrite (IH Hd), Hc. done.
Qed.

Lemma append_nil_l b : "" +:+ b = b.
Proof. reflexivity. Qed.

Lemma append_cons c a b : String c a +:+ b = String c (a +:+ b).
Proof. reflexivity. Qed.

Lemma split_dot_app_dot a b :
  split_dot (a +:+ "." +:+ b) = split_dot a ++ split_dot b.
Proof.
  change ("." +:+ b) with (String "." b).
  induction a as [|c a IH].
  - rewrite append_nil_l. simpl.
    destruct (split_dot b) eqn:Hb; [by apply split_dot_nonempty in Hb | done].
  - rewrite append_cons. cbn [split_dot]. rewrite IH.
    destruct (split_dot a) eqn:Ha; [by apply split_dot_nonempty in Ha|].
    simpl. by destruct (Ascii.eqb c ".").
Qed.

Lemma split_dot_join prefix q :
  prefix ≠ "" → Forall (fun k => plain_name k = true) q →
  split_dot (join_path prefix q) = split_dot prefix ++ q.
Proof.
  revert prefix. induction q as [|k q IH]; intros prefix Hne Hq; simpl.
  - by rewrite app_nil_r.
  - apply Forall_cons in Hq as [Hk Hq].
    apply andb_true_iff in Hk as [_ Hk]. apply negb_true_iff in Hk.
    unfold fullKey. apply String.eqb_neq in Hne. rewrite Hne.
    rewrite IH; [|by destruct prefix|done].
    rewrite split_dot_app_dot, (split_dot_plain k Hk), <- app_assoc. done.
Qed.

(** A path of plain names is recovered from its flattened key. *)
Lemma split_dot_join_path q :
  q ≠ [] → Forall (fun k => plain_name k = true) q →
  split_dot (join_path "" q) = q.
Proof.
  destruct q as [|k q]; [done|]. intros _ Hq.
  apply Forall_cons in Hq as [Hk Hq].
  change (join_path "" (k :: q)) with (join_path k q).
  apply andb_true_iff in Hk as [Hne Hk].
  apply negb_true_iff in Hne, Hk. apply String.eqb_neq in Hne.
  rewrite split_dot_join; [|done|done]. by rewrite (split_dot_plain k Hk).
Qed.

(** ** Leaves after a removal *)

Lemma leaf_at_root_object o l : ¬ leaf_at (JObj o) [] l.
Proof. intros [[= <-] Hl]. done. Qed.

Lemma leaf_at_cons o k q l :
  leaf_at (JObj o) (k :: q) l ↔ ∃ c, obj_get o k = Some c ∧ leaf_at c q l.
Proof.
  unfold leaf_at. simpl. destruct (obj_get o k) as [c|]; split.
  - intros Hl. by exists c.
  - by intros (c' & [= <-] & Hl).
  - by intros [? _].
  - by intros (c' & ? & _).
Qed.

Lemma leaf_at_non_object v q l :
  is_plain_object v = false → leaf_at v q l → q = [].
Proof. intros Hv [Hget _]. by destruct (get_path_leaf _ _ _ Hv Hget). Qed.

Lemma is_prefix_cons k p k' q :
  is_prefix (k :: p) (k' :: q) ↔ k = k' ∧ is_prefix p q.
Proof.
  split.
  - intros [r [= -> ->]]. split; [done | by exists r].
  - intros [-> [r ->]]. by exists r.
Qed.

Lemma not_prefix_nil k p : ¬ is_prefix (k :: p) [].
Proof. by intros [r ?]. Qed.

(** A leaf below a property that is absent, or that holds no plain
    object, does not exist. *)
Lemma no_leaf_below o k k2 rest q l :
  match obj_get o k with Some c => is_plain_object c = false | None => True end →
  leaf_at (JObj o) q l → ¬ is_prefix (k :: k2 :: rest) q.
Proof.
  intros Hk Hl Hp. destruct q as [|k' q']; [by apply not_prefix_nil in Hp|].
  apply is_prefix_cons in Hp as [<- Hp].
  apply leaf_at_cons in Hl as (c & Hc & Hl). rewrite Hc in Hk.
  apply (leaf_at_non_object _ _ _ Hk) in Hl as ->. by apply not_prefix_nil in Hp.
Qed.

(** [removeKey] takes away the leaves whose path begins with the path
    removed, and no other leaf. *)
Lemma removeKey_leaf_at p v q l :
  p ≠ [] →
  leaf_at (snd (removeKey v p)) q l ↔ leaf_at v q l ∧ ¬ is_prefix p q.
Proof.
  revert v q l. induction p as [|k rest IH]; intros v q l Hne; [done|].
  destruct v as [ | | | | |o];
    try (rewrite removeKey_non_object by done; simpl; split; [|tauto];
         intros Hl; split; [done|]; intros Hp;
         apply leaf_at_non_object in Hl as ->; [by apply not_prefix_nil in Hp | done]).
  destruct rest as [|k2 rest'].
  - rewrite removeKey_last. destruct (obj_has o k) eqn:Hhas; simpl.
    + destruct q as [|k' q'].
      { split; [intros Hl | intros [Hl _]]; by apply leaf_at_root_object in Hl. }
      rewrite !leaf_at_cons, is_prefix_cons.
      destruct (String.eqb_spec k k') as [<-|Hk].
      * rewrite obj_get_delete_eq. split; [by intros (c & ? & _)|].
        intros [_ Hn]. destruct Hn. split; [done | by exists q'].
      * rewrite obj_get_delete_ne by done. split; [|tauto].
        intros Hl. split; [done | by intros [? _]].
    + apply obj_has_false in Hhas. split; [|tauto].
      intros Hl. split; [done|]. intros Hp.
      destruct q as [|k' q']; [by apply not_prefix_nil in Hp|].
      apply is_prefix_cons in Hp as [<- _].
      apply leaf_at_cons in Hl as (c & Hc & _). congruence.
  - rewrite removeKey_step. destruct (obj_get o k) as [child|] eqn:Hget.
    2:{ simpl. split; [|tauto]. intros Hl. split; [done|].
        eapply no_leaf_below; [|exact Hl]. by rewrite Hget. }
    destruct (typeof_object child && negb (is_array child)) eqn:Hguard.
    2:{ simpl. split; [|tauto]. intros Hl. split; [done|].
        eapply no_leaf_below; [|exact Hl]. rewrite Hget. by destruct child. }
    specialize (IH child). destruct (removeKey child (k2 :: rest')) as [b1 child'].
    simpl in IH.
    destruct q as [|k' q'].
    { destruct (b1 && no_own_keys child'); simpl;
        (split; [intros Hl | intros [Hl _]]; by apply leaf_at_root_object in Hl). }
    destruct (b1 && no_own_keys child') eqn:Hprune; simpl;
      rewrite !leaf_at_cons, is_prefix_cons;
      destruct (String.eqb_spec k k') as [<-|Hk].
    + apply andb_true_iff in Hprune as [_ Hempty].
      destruct child' as [ | | | | |[|? ?]]; try done.
      rewrite obj_get_delete_eq, Hget. split; [by intros (c & ? & _)|].
      intros [(c & [= <-] & Hl) Hn]. exfalso.
      apply (leaf_at_empty_object q' l), IH; [done|]. split; [done|].
      intros Hp. by apply Hn.
    + rewrite obj_get_delete_ne by done. split; [|tauto].
      intros Hl. split; [done | by intros [? _]].
    + rewrite obj_get_set_eq, Hget. split.
      * intros (c & [= <-] & Hl). apply IH in Hl as [Hl Hn]; [|done].
        split; [by exists child | by intros [_ Hp]].
      * intros [(c & [= <-] & Hl) Hn]. exists child'. split; [done|].
        apply IH; [done|]. split; [done|]. intros Hp. by apply Hn.
    + rewrite obj_get_set_ne by done. split; [|tauto].
      intros Hl. split; [done | by intros [? _]].
Qed.

(** *** Distinct names are kept *)

Lemma names_obj_delete (o : obj) k n :
  set_has (map fst (obj_delete o k)) n = true → set_has (map fst o) n = true.
Proof.
  rewrite !set_has_elem. induction o as [|[k0 v0] o IH]; simpl; [done|].
  destruct (k0 =? k); simpl; rewrite !elem_of_cons; [auto|].
  intros [-> | Hn]; auto.
Qed.

Lemma distinct_obj_delete (o : obj) k :
  distinct (map fst o) = true → distinct (map fst (obj_delete o k)) = true.
Proof.
  induction o as [|[k0 v0] o IH]; simpl; [done|].
  intros Hd. apply andb_true_iff in Hd as [Hfresh Hd].
  destruct (k0 =? k); simpl; [by apply IH|].
  apply andb_true_iff. split; [|by apply IH].
  apply negb_true_iff. apply negb_true_iff in Hfresh.
  destruct (set_has (map fst (obj_delete o k)) k0) eqn:E; [|done].
  apply names_obj_delete in E. congruence.
Qed.

Lemma names_obj_set (o : obj) k v n :
  n ∈ map fst (obj_set o k v) ↔ n = k ∨ n ∈ map fst o.
Proof.
  induction o as [|[k0 v0] o IH]; simpl.
  - rewrite list_elem_of_singleton, elem_of_nil. tauto.
  - destruct (k0 =? k) eqn:E; simpl; rewrite !elem_of_cons.
    + apply String.eqb_eq in E as ->. tauto.
    + rewrite IH. tauto.
Qed.

Lemma distinct_obj_set (o : obj) k v :
  distinct (map fst o) = true → distinct (map fst (obj_set o k v)) = true.
Proof.
  induction o as [|[k0 v0] o IH]; simpl; [done|].
  intros Hd. apply andb_true_iff in Hd as [Hfresh Hd].
  destruct (k0 =? k) eqn:E; simpl.
  - by rewrite Hfresh, Hd.
  - apply andb_true_iff. split; [|by apply IH].
    apply negb_true_iff, set_has_not_elem. rewrite names_obj_set.
    apply negb_true_iff, set_has_not_elem in Hfresh.
    apply String.eqb_neq in E. intros [-> | Hn]; done.
Qed.

Lemma forallb_obj_delete (P : string * json → bool) (o : obj) k :
  forallb P o = true → forallb P (obj_delete o k) = true.
Proof.
  induction o as [|[k0 v0] o IH]; simpl; [done|].
  intros HP. apply andb_true_iff in HP as [H0 HP].
  destruct (k0 =? k); simpl; [by apply IH|]. by rewrite H0, IH.
Qed.

Lemma forallb_obj_set (P : string * json → bool) (o : obj) k v :
  (∀ k', P (k', v) = true) → forallb P o = true → forallb P (obj_set o k v) = true.
Proof.
  intros Hv. induction o as [|[k0 v0] o IH]; simpl; [by rewrite Hv|].
  intros HP. apply andb_true_iff in HP as [H0 HP].
  destruct (k0 =? k); simpl; [by rewrite Hv, HP | by rewrite H0, IH].
Qed.

Lemma unique_obj_delete (o : obj) k :
  unique_names (JObj o) = true → unique_names (JObj (obj_delete o k)) = true.
Proof.
  cbn [unique_names]. intros Hu. apply andb_true_iff in Hu as [Hd Hu].
  by rewrite distinct_obj_delete, forallb_obj_delete.
Qed.

Lemma unique_obj_set (o : obj) k v :
  unique_names (JObj o) = true → unique_names v = true →
  unique_names (JObj (obj_set o k v)) = true.
Proof.
  cbn [unique_names]. intros Hu Hv. apply andb_true_iff in Hu as [Hd Hu].
  by rewrite distinct_obj_set, forallb_obj_set.
Qed.

Lemma unique_obj_get (o : obj) k c :
  unique_names (JObj o) = true → obj_get o k = Some c → unique_names c = true.
Proof.
  cbn [unique_names]. intros Hu Hget. apply andb_true_iff in Hu as [Hd Hu].
  apply (obj_get_elem _ _ _ Hd) in Hget. rewrite forallb_forall in Hu.
  apply (Hu (k, c)). by apply list_elem_of_In.
Qed.

Lemma removeKey_unique p v :
  unique_names v = true → unique_names (snd (removeKey v p)) = true.
Proof.
  revert v. induction p as [|k rest IH]; intros v Hu; [by destruct v|].
  destruct v as [ | | | | |o]; try done.
  destruct rest as [|k2 rest'].
  - rewrite removeKey_last. destruct (obj_has o k); simpl; [|done].
    by apply unique_obj_delete.
  - rewrite removeKey_step. destruct (obj_get o k) as [child|] eqn:Hget; [|done].
    destruct (typeof_object child && negb (is_array child)); [|done].
    specialize (IH child (unique_obj_get _ _ _ Hu Hget)).
    destruct (removeKey child (k2 :: rest')) as [b1 child']. simpl in IH.
    destruct (b1 && no_own_keys child'); simpl;
      [by apply unique_obj_delete | by apply unique_obj_set].
Qed.

(** *** The loop of the deletion *)




(** ** Deleting unused keys (C7) *)

Section Deletion.
Context {H : Host}.


End Deletion.



(** ** Leaves after an insertion *)

Lemma is_prefix_refl (p : list string) : is_prefix p p.
Proof. exists []. by rewrite app_nil_r. Qed.

Lemma is_prefix_nil (q : list string) : is_prefix [] q.
Proof. by exists q. Qed.

Lemma is_prefix_or_not (p q : list string) : is_prefix p q ∨ ¬ is_prefix p q.
Proof.
  revert q. induction p as [|k p IH]; intros q; [left; apply is_prefix_nil|].
  destruct q as [|k' q]; [right; apply not_prefix_nil|].
  rewrite is_prefix_cons. destruct (String.eqb_spec k k') as [<-|Hk].
  - destruct (IH q) as [Hp | Hn]; [by left | right; by intros [_ ?]].
  - right. by intros [? _].
Qed.

(** [setNestedKey] adds the leaf it is given; of the leaves present it keeps
    those whose path neither begins with the path set nor begins it. *)
Lemma setNestedKey_leaf_at p o value o' q l :
  p ≠ [] → Forall (fun k => k ≠ "__proto__") p →
  setNestedKey o p value = Some o' →
  leaf_at (JObj o') q l ↔
  (q = p ∧ l = JStr value) ∨
  (leaf_at (JObj o) q l ∧ ¬ is_prefix p q ∧ ¬ is_prefix q p).
Proof.
  revert o o' q l.
  induction p as [|k rest IH]; intros o o' q l Hne Hnames Hset; [done|].
  apply Forall_cons in Hnames as [Hk0 Hnames]. apply String.eqb_neq in Hk0.
  destruct q as [|k' q'].
  { split; [intros Hl | intros [[? _] | [Hl _]]]; try done;
      by apply leaf_at_root_object in Hl. }
  destruct rest as [|k2 rest'].
  - rewrite setNestedKey_last, Hk0 in Hset.
    injection Hset as <-. rewrite !leaf_at_cons.
    destruct (String.eqb_spec k k') as [<-|Hk].
    + rewrite obj_get_set_eq. split.
      * intros (c & [= <-] & Hl). left.
        destruct Hl as [Hget _]. apply get_path_leaf in Hget as [-> ->]; done.
      * intros [[[= ->] ->] | (_ & Hn & _)].
        -- by exists (JStr value).
        -- destruct Hn. by exists q'.
    + rewrite obj_get_set_ne by done. split.
      * intros Hl. right. split; [done|].
        split; intros Hp; apply is_prefix_cons in Hp as [? _]; done.
      * intros [[[= ? _] _] | [Hl _]]; done.
  - rewrite setNestedKey_step, Hk0 in Hset.
    assert (Hgen : ∀ c,
      (∀ q0 l0, q0 ≠ [] → leaf_at (JObj c) q0 l0 ↔ leaf_at (JObj o) (k :: q0) l0) →
      (child' ← setNestedKey c (k2 :: rest') value;
       Some (obj_set o k (JObj child'))) = Some o' →
      leaf_at (JObj o') (k' :: q') l ↔
      (k' :: q' = k :: k2 :: rest' ∧ l = JStr value) ∨
      (leaf_at (JObj o) (k' :: q') l ∧ ¬ is_prefix (k :: k2 :: rest') (k' :: q') ∧
       ¬ is_prefix (k' :: q') (k :: k2 :: rest'))).
    { intros c Hc Hbind.
      destruct (setNestedKey c (k2 :: rest') value) as [c'|] eqn:Hrec; [|discriminate].
      injection Hbind as <-. rewrite (leaf_at_cons (obj_set _ _ _)).
      destruct (String.eqb_spec k k') as [<-|Hk].
      - rewrite obj_get_set_eq. rewrite !is_prefix_cons. split.
        + intros (x & [= <-] & Hl). apply (IH c c' q' l) in Hl; [|done|done|done].
          destruct Hl as [[-> ->] | (Hl & Hn1 & Hn2)]; [by left|].
          right. split; [|split; intros [_ Hp]; done].
          apply Hc; [|done]. intros ->. by apply leaf_at_root_object in Hl.
        + intros Hcase. exists (JObj c'). split; [done|].
          apply (IH c c' q' l); [done | done | done |].
          destruct Hcase as [[[= ->] ->] | (Hl & Hn1 & Hn2)]; [by left|].
          right. split; [|split; intros Hp; [apply Hn1 | apply Hn2]; done].
          apply Hc; [|done]. intros ->. apply Hn2. split; [done | apply is_prefix_nil].
      - rewrite obj_get_set_ne by done. rewrite <- leaf_at_cons. split.
        + intros Hl. right. split; [done|].
          split; intros Hp; apply is_prefix_cons in Hp as [? _]; done.
        + intros [[[= ? _] _] | [Hl _]]; done. }
    assert (Hfresh : (match obj_get o k with
                      | Some c => is_plain_object c = false
                      | None => True
                      end) →
             ∀ q0 l0, q0 ≠ [] →
                      leaf_at (JObj []) q0 l0 ↔ leaf_at (JObj o) (k :: q0) l0).
    { intros Hk q0 l0 Hq0. split; [intros Hl; by apply leaf_at_empty_object in Hl|].
      intros Hl. exfalso. apply leaf_at_cons in Hl as (c & Hc & Hl).
      rewrite Hc in Hk. by apply (leaf_at_non_object _ _ _ Hk) in Hl. }
    destruct (obj_get o k) as [c|] eqn:Hget.
    + destruct c as [ | | | | |c]; try (apply (Hgen []); [by apply Hfresh | done]).
      apply (Hgen c); [|done]. intros q0 l0 _. rewrite leaf_at_cons, Hget.
      split; [intros Hl; by exists (JObj c) | by intros (x & [= <-] & Hl)].
    + apply (Hgen []); [by apply Hfresh | done].
Qed.

Lemma setNestedKey_is_Some p o value :
  p ≠ [] → Forall (fun k => k ≠ "__proto__") p →
  is_Some (setNestedKey o p value).
Proof.
  revert o. induction p as [|k rest IH]; intros o Hne Hp; [done|].
  apply Forall_cons in Hp as [Hk Hp]. apply String.eqb_neq in Hk.
  destruct rest as [|k2 rest'].
  - rewrite setNestedKey_last, Hk. by eexists.
  - rewrite setNestedKey_step, Hk.
    assert (Hgen : ∀ c, is_Some (child' ← setNestedKey c (k2 :: rest') value;
                                 Some (obj_set o k (JObj child')))).
    { intros c. destruct (IH c) as [c' ->]; [done | done | by eexists]. }
    destruct (obj_get o k) as [[ | | | | |c]|]; apply Hgen.
Qed.

Lemma setNestedKey_unique p o value o' :
  unique_names (JObj o) = true → setNestedKey o p value = Some o' →
  unique_names (JObj o') = true.
Proof.
  revert o o'. induction p as [|k rest IH]; intros o o' Hu Hset.
  - injection Hset as <-. by apply unique_obj_set.
  - destruct rest as [|k2 rest'].
    + rewrite setNestedKey_last in Hset.
      destruct ((k =? "__proto__") && negb (obj_has o k));
        injection Hset as <-; [done | by apply unique_obj_set].
    + rewrite setNestedKey_step in Hset.
      assert (Hgen : ∀ c, unique_names (JObj c) = true →
                (child' ← setNestedKey c (k2 :: rest') value;
                 Some (obj_set o k (JObj child'))) = Some o' →
                unique_names (JObj o') = true).
      { intros c Hc Hbind.
        destruct (setNestedKey c (k2 :: rest') value) as [c'|] eqn:Hrec; [|discriminate].
        injection Hbind as <-. apply unique_obj_set; [done|]. by apply (IH c). }
      destruct (obj_get o k) as [c|] eqn:Hget.
      * destruct c as [ | | | | |c]; try (by apply (Hgen [])).
        apply (Hgen c); [|done]. by apply (unique_obj_get o k).
      * destruct (k =? "__proto__"); [|by apply (Hgen [])].
        destruct rest' as [|k3 rest'']; [|discriminate].
        destruct (k2 =? "__proto__"); [|discriminate]. by injection Hset as <-.
Qed.

(** *** Re-nesting the entries of a tree *)

(** Re-nesting entries that are leaves of one tree [v], each given by a key
    that splits into its path: the leaves of the result are the leaves met
    so far and the entries. *)
Lemma unflatten_leaves v (entries : list (string * string)) (acc : obj) :
  (∀ e, e ∈ entries →
        Forall (fun k => k ≠ "__proto__") (split_dot (fst e)) ∧
        leaf_at v (split_dot (fst e)) (JStr (snd e))) →
  unique_names (JObj acc) = true →
  (∀ q l, leaf_at (JObj acc) q l → leaf_at v q l) →
  ∃ o', fold_left
          (fun a e => o ← a; setNestedKey o (split_dot (fst e)) (snd e))
          entries (Some acc) = Some o' ∧
        unique_names (JObj o') = true ∧
        ∀ q l, leaf_at (JObj o') q l ↔
               leaf_at (JObj acc) q l ∨
               ∃ e, e ∈ entries ∧ q = split_dot (fst e) ∧ l = JStr (snd e).
Proof.
  revert acc. induction entries as [|e entries IH]; intros acc Hentries Hu Hacc.
  - exists acc. split; [done|]. split; [done|]. intros q l. split; [auto|].
    intros [Hl | (e & He & _)]; [done | by apply elem_of_nil in He].
  - destruct (Hentries e (list_elem_of_here _ _)) as [Hproto Hleaf].
    destruct (setNestedKey_is_Some (split_dot (fst e)) acc (snd e)
                (split_dot_nonempty _) Hproto) as [o1 Hset].
    pose proof (setNestedKey_unique _ _ _ _ Hu Hset) as Hu1.
    assert (Hstep : ∀ q l, leaf_at (JObj o1) q l ↔
              leaf_at (JObj acc) q l ∨ (q = split_dot (fst e) ∧ l = JStr (snd e))).
    { intros q l.
      rewrite (setNestedKey_leaf_at _ _ _ _ q l (split_dot_nonempty _) Hproto Hset).
      split.
      - intros [Hnew | [Hl _]]; auto.
      - intros [Hl | Hnew]; [|by left].
        destruct (is_prefix_or_not (split_dot (fst e)) q) as [Hp | Hn1].
        { left. destruct (leaf_at_prefix _ _ _ _ _ Hleaf (Hacc _ _ Hl) Hp) as [-> ->]. done. }
        destruct (is_prefix_or_not q (split_dot (fst e))) as [Hp | Hn2].
        { left. destruct (leaf_at_prefix _ _ _ _ _ (Hacc _ _ Hl) Hleaf Hp) as [-> ->]. done. }
        by right. }
    destruct (IH o1) as (o' & Hfold & Hu' & Hleaves).
    + intros e' He'. apply Hentries. by apply list_elem_of_further.
    + done.
    + intros q l Hl. apply Hstep in Hl as [Hl | [-> ->]]; [by apply Hacc | done].
    + exists o'. simpl. rewrite Hset. split; [done|]. split; [done|].
      intros q l. rewrite Hleaves, Hstep. setoid_rewrite elem_of_cons. split.
      * intros [[Hl | Hnew] | (e' & He' & Hq)]; [by left | | ].
        -- right. exists e. split; [by left | done].
        -- right. exists e'. split; [by right | done].
      * intros [Hl | (e' & [-> | He'] & Hq)]; [by left; left | by left; right |].
        right. by exists e'.
Qed.

(** ** Flattening and re-nesting (C4) *)

Lemma elem_of_string_entries v k s :
  (k, s) ∈ string_entries v ↔ ∃ q, (q, JStr s) ∈ leaves v ∧ k = join_path "" q.
Proof.
  unfold string_entries, getEntries. rewrite list_elem_of_omap. split.
  - intros ([k' l] & Hin & Hf). apply list_elem_of_fmap in Hin as ([q l'] & [= -> ->] & Hin).
    simpl in Hf. destruct l'; try discriminate. injection Hf as <- <-. by exists q.
  - intros (q & Hin & ->). exists (join_path "" q, JStr s). split; [|done].
    apply list_elem_of_fmap. by exists (q, JStr s).
Qed.

(** C4, as the code has it.  For a tree whose nodes are plain objects and
    whose leaves are strings, and whose property names are not empty, hold
    no dot and are not [__proto__], re-nesting the flattened keys with their
    leaf values succeeds and gives a tree with the same set of flattened
    keys and the same leaf value for each. *)
Theorem flatten_unflatten_roundtrip (o : obj) :
  string_tree (JObj o) = true →
  unique_names (JObj o) = true →
  plain_names (JObj o) = true →
  no_proto_names (JObj o) = true →
  roundtrip_ok o.
Proof.
  intros Hstr Hu Hplain Hproto. set (v := JObj o) in *.
  destruct (unflatten_leaves v (string_entries v) []) as (o' & Hfold & Hu' & Hleaves).
  { intros [k s] He. apply elem_of_string_entries in He as (q & Hq & ->). simpl.
    pose proof (leaves_plain v q _ Hplain Hq) as Hpq.
    apply (elem_of_leaves _ _ _ Hu) in Hq as Hq'. destruct Hq' as [Hne Hleaf].
    rewrite split_dot_join_path by done.
    split; [by apply (leaves_no_proto v q (JStr s)) | done]. }
  { done. }
  { intros q l Hl. by apply leaf_at_empty_object in Hl. }
  assert (Hsame : ∀ q l, (q, l) ∈ leaves (JObj o') ↔ (q, l) ∈ leaves v).
  { intros q l. rewrite (elem_of_leaves (JObj o') q l Hu'), Hleaves. split.
    - intros [Hne [Hl | ([k s] & He & -> & ->)]]; [by apply leaf_at_empty_object in Hl|].
      apply elem_of_string_entries in He as (q & Hq & ->). simpl.
      rewrite split_dot_join_path; [done | |by apply (leaves_plain v q (JStr s))].
      by apply (elem_of_leaves _ _ _ Hu) in Hq as [? _].
    - intros Hq. pose proof (leaves_plain v q l Hplain Hq) as Hpq.
      destruct (leaves_string_tree v q l Hstr Hq) as [s ->].
      apply (elem_of_leaves _ _ _ Hu) in Hq as Hq'. destruct Hq' as [Hne _].
      split; [done|]. right. exists (join_path "" q, s). simpl.
      split; [|by rewrite split_dot_join_path].
      apply elem_of_string_entries. by exists q. }
  exists o'. split; [exact Hfold|]. split.
  - intros k. rewrite !elem_of_getKeys. by setoid_rewrite Hsame.
  - intros k s. rewrite !elem_of_string_entries. by setoid_rewrite Hsame.
Qed.

(** C4, as stated, fails where a property name holds a dot: the tree
    [{"a": "x", "a.b": "y"}] has the flattened keys [a] and [a.b]; re-nesting
    them gives [{"a": {"b": "y"}}], whose only flattened key is [a.b]. *)
Lemma roundtrip_fails_with_dotted_name :
  string_tree (JObj a_and_a_dot_b) = true ∧
  unique_names (JObj a_and_a_dot_b) = true ∧
  getKeys (JObj a_and_a_dot_b) "" = ["a"; "a.b"] ∧
  unflatten (string_entries (JObj a_and_a_dot_b)) = Some [("a", JObj [("b", JStr "y")])] ∧
  ¬ roundtrip_ok a_and_a_dot_b.
Proof.
  repeat split; try reflexivity.
  intros (o' & Hun & Hkeys & _).
  vm_compute in Hun. injection Hun as <-.
  assert (Ha : "a" ∈ getKeys (JObj a_and_a_dot_b) "") by apply list_elem_of_here.
  apply Hkeys, set_has_elem in Ha. discriminate.
Qed.

Lemma flatten_unflatten_roundtrip_witness : roundtrip_ok greetings.
Proof.
  apply (flatten_unflatten_roundtrip greetings); reflexivity.
Defined.

(** ** The mutation operations on the reference host *)

Lemma mutations_leave_other_files_witness :
  (∃ r w1,
     analyzeLocales (H := reference_host) ["a"] en_and_es = (Done (Some r), w1) ∧
     written (snd (deleteKeysFromLocale (H := reference_host) r EN w1))
       = [("/project/src/locales/en.json", json_text "{
  'a': '1'
}")] ∧
     files (snd (deleteKeysFromLocale (H := reference_host) r EN w1))
       !! "/project/src/locales/es.json"
     = files w1 !! "/project/src/locales/es.json") ∧
  analyzeLocales (H := reference_host) ["a"; "b"] a_and_empty
    = (Done (Some a_and_empty_report), a_and_empty) ∧
  ("b" ∉ getKeys (JObj [("a", JStr "1")]) "") ∧
  (∃ w' new,
     addMissingKeys (H := reference_host) a_and_empty_report a_and_empty
       = (Done tt, w') ∧
     written w' = written a_and_empty ++ new ∧
     Forall (fun e => ∃ s locale translation,
               s ∈ keysInCodeOnly a_and_empty_report ∧
               in_locale locale s = false ∧
               writes_key (H := reference_host) (locale_name locale)
                 (localesDir a_and_empty_report) (key s) translation e) new ∧
     ∀ p, p ∉ map fst new → files w' !! p = files a_and_empty !! p).
Proof.
  split; [|split; [|split]].
  - eexists _, _. split; [vm_compute; reflexivity|].
    split; [vm_compute; reflexivity|].
    match goal with
    | |- files (snd (deleteKeysFromLocale ?r ?l ?w)) !! ?p = _ =>
        apply (proj2 (proj1 (mutations_leave_other_files (H := reference_host) r w) l) p)
    end.
    vm_compute. discriminate.
  - vm_compute. reflexivity.
  - apply (proj2 (proj2 (mutations_leave_other_files (H := reference_host)
                           a_and_empty_report a_and_empty))
             ["a"; "b"] a_and_empty (mkKeyStatus "b" true false false) EN
             (json_text "{'a': '1'}") (JObj [("a", JStr "1")])).
    + vm_compute. reflexivity.
    + vm_compute. apply list_elem_of_further, list_elem_of_here.
    + vm_compute. reflexivity.
    + vm_compute. reflexivity.
    + reflexivity.
  - eexists. 
    assert (Hrun : addMissingKeys (H := reference_host) a_and_empty_report a_and_empty
                   = (Done tt, snd (addMissingKeys (H := reference_host)
                                      a_and_empty_report a_and_empty)))
      by (vm_compute; reflexivity).
    destruct (proj1 (proj2 (mutations_leave_other_files (H := reference_host)
                              a_and_empty_report a_and_empty))
                _ _ Hrun ltac:(discriminate)) as (new & Hlog & Hnew & Hframe).
    exists new. split; [exact Hrun|]. split; [exact Hlog|].
    split; [exact Hnew | exact Hframe].
Defined.

(** The claim that add-missing writes a locale only where the key is lacking
    fails for a report that is no longer fresh: chosen a second time from
    the menu with the report of the first analysis, add-missing writes the
    default locale again for the key [b], which that file holds since the
    first run. *)
Lemma addMissingKeys_rewrites_file_holding_key :
  analyzeLocales (H := reference_host) ["a"; "b"] a_and_empty
    = (Done (Some a_and_empty_report), a_and_empty) ∧
  fst (addMissingKeys (H := reference_host) a_and_empty_report a_and_empty)
    = Done tt ∧
  fst (addMissingKeys (H := reference_host) a_and_empty_report a_and_empty_again)
    = Done tt ∧
  ¬ adds_only_lacking_keys (H := reference_host) a_and_empty_report
      a_and_empty_again.
Proof.
  split; [vm_compute; reflexivity|]. split; [vm_compute; reflexivity|].
  split; [vm_compute; reflexivity|].
  intros Hclaim.
  apply (Hclaim (mkKeyStatus "b" true false false) EN
           (json_text "{
  'a': '1',
  'b': 'hola'
}") (JObj [("a", JStr "1"); ("b", JStr "hola")])).
  - vm_compute. apply list_elem_of_further, list_elem_of_here.
  - reflexivity.
  - vm_compute. apply list_elem_of_further, list_elem_of_here.
  - vm_compute. reflexivity.
  - vm_compute. reflexivity.
  - vm_compute. apply list_elem_of_further, list_elem_of_here.
Qed.



(** The add-missing scenario run to its end: the operator is asked about [a]
    as well, which the secondary locale lacks, and each file is read again
    after it was written. *)
Example addMissingKeys_scenario :
  ∃ r w1 w',
    analyzeLocales (H := reference_host) ["a"; "b"] a_and_empty
      = (Done (Some r), w1) ∧
    addMissingKeys (H := reference_host) r w1 = (Done tt, w') ∧
    files w' !! "/project/src/locales/en.json"
      = Some (File (json_text "{
  'a': '1',
  'b': 'hola'
}")) ∧
    files w' !! "/project/src/locales/es.json"
      = Some (File (json_text "{
  'a': '[a]',
  'b': 'hola'
}")).
Proof.
  eexists _, _, _. split; [vm_compute; reflexivity|].
  split; [vm_compute; reflexivity|].
  split; vm_compute; reflexivity.
Qed.

(** * Further properties of the tree operations *)

Lemma removeKey_empty_path v : removeKey v [] = (false, v).
Proof. by destruct v. Qed.

Lemma get_path_non_object v k rest :
  is_plain_object v = false → get_path v (k :: rest) = None.
Proof. by destruct v. Qed.

Lemma removeKey_fst v p :
  fst (removeKey v p) = true ↔ p ≠ [] ∧ is_Some (get_path v p).
Proof.
  revert v. induction p as [|k rest IH]; intros v.
  { rewrite removeKey_empty_path. simpl. split; [done | by intros [? _]]. }
  destruct v as [ | | | | |o];
    try (rewrite removeKey_non_object by done; simpl;
         split; [done | by intros [_ [? ?]]]).
  destruct rest as [|k2 rest'].
  - rewrite removeKey_last. simpl. destruct (obj_has o k) eqn:Hhas; simpl.
    + apply obj_has_get in Hhas as [c Hc]. rewrite Hc.
      split; [intros _; split; [done | by eexists] | done].
    + apply obj_has_false in Hhas. rewrite Hhas.
      split; [done | by intros [_ [? ?]]].
  - rewrite removeKey_step.
    change (get_path (JObj o) (k :: k2 :: rest'))
      with (match obj_get o k with
            | Some child => get_path child (k2 :: rest')
            | None => None
            end).
    destruct (obj_get o k) as [child|] eqn:Hget;
      [|simpl; split; [done | by intros [_ [? ?]]]].
    destruct (typeof_object child && negb (is_array child)) eqn:Hguard.
    + specialize (IH child).
      destruct (removeKey child (k2 :: rest')) as [b c']. simpl in IH.
      assert (fst (if b && no_own_keys c'
                   then (b, JObj (obj_delete o k))
                   else (b, JObj (obj_set o k c'))) = b) as ->
        by by destruct (b && _).
      rewrite IH. split; intros [_ Hs]; (split; [done | exact Hs]).
    + cbn [fst]. split; [done|]. intros [_ [x Hx]].
      rewrite get_path_non_object in Hx; [done | by destruct child].
Qed.

Lemma removeKey_false_same v p :
  fst (removeKey v p) = false → snd (removeKey v p) = v.
Proof.
  revert v. induction p as [|k rest IH]; intros v.
  { by rewrite removeKey_empty_path. }
  destruct v as [ | | | | |o]; try (by rewrite removeKey_non_object).
  destruct rest as [|k2 rest'].
  - rewrite removeKey_last. by destruct (obj_has o k).
  - rewrite removeKey_step. destruct (obj_get o k) as [child|] eqn:Hget; [|done].
    destruct (typeof_object child && negb (is_array child)); [|done].
    specialize (IH child).
    destruct (removeKey child (k2 :: rest')) as [b c']. simpl in IH.
    destruct b; simpl; [by destruct (no_own_keys c')|].
    intros _. rewrite IH by done. by rewrite obj_set_same.
Qed.

Lemma removeKey_get_path_None v p :
  p ≠ [] → get_path (snd (removeKey v p)) p = None.
Proof.
  revert v. induction p as [|k rest IH]; intros v Hne; [done|].
  destruct v as [ | | | | |o]; try (by rewrite removeKey_non_object).
  destruct rest as [|k2 rest'].
  - rewrite removeKey_last. destruct (obj_has o k) eqn:Hhas; simpl.
    + by rewrite obj_get_delete_eq.
    + apply obj_has_false in Hhas. by rewrite Hhas.
  - rewrite removeKey_step. destruct (obj_get o k) as [child|] eqn:Hget.
    2:{ simpl. by rewrite Hget. }
    destruct (typeof_object child && negb (is_array child)) eqn:Hguard.
    2:{ simpl. rewrite Hget. by destruct child. }
    specialize (IH child).
    destruct (removeKey child (k2 :: rest')) as [b c']. simpl in IH.
    destruct (b && no_own_keys c'); simpl.
    + by rewrite obj_get_delete_eq.
    + rewrite obj_get_set_eq. by apply IH.
Qed.

Lemma obj_set_set o k a b : obj_set (obj_set o k a) k b = obj_set o k b.
Proof.
  induction o as [|[k' v'] o IH]; simpl.
  - by rewrite String.eqb_refl.
  - destruct (k' =? k) eqn:Hk; simpl; rewrite Hk; [done | by rewrite IH].
Qed.

Lemma obj_has_set o k v : obj_has (obj_set o k v) k = true.
Proof. apply obj_has_get. rewrite obj_get_set_eq. by eexists. Qed.

Lemma obj_delete_set_fresh o k v :
  obj_has o k = false → obj_delete (obj_set o k v) k = o.
Proof.
  induction o as [|[k' v'] o IH]; simpl.
  - by rewrite String.eqb_refl.
  - destruct (k' =? k) eqn:Hk; [done|]. intros Hhas. simpl. rewrite Hk.
    by rewrite IH.
Qed.

Lemma setNestedKey_twice p o v1 v2 o1 :
  setNestedKey o p v1 = Some o1 →
  setNestedKey o1 p v2 = setNestedKey o p v2.
Proof.
  revert o o1. induction p as [|k rest IH]; intros o o1.
  { intros [= <-]. unfold setNestedKey. by rewrite obj_set_set. }
  destruct rest as [|k2 rest'].
  - rewrite !setNestedKey_last.
    destruct ((k =? "__proto__") && negb (obj_has o k)) eqn:Hc.
    + intros [= <-]. by rewrite Hc.
    + intros [= <-]. rewrite obj_has_set, andb_false_r. by rewrite obj_set_set.
  - rewrite !setNestedKey_step.
    assert (Hafter : ∀ c1 c : obj,
      setNestedKey c (k2 :: rest') v1 = Some c1 →
      (child' ← setNestedKey c1 (k2 :: rest') v2;
       Some (obj_set (obj_set o k (JObj c1)) k (JObj child'))) =
      (child' ← setNestedKey c (k2 :: rest') v2;
       Some (obj_set o k (JObj child')))).
    { intros c1 c Hc1. rewrite (IH c c1 Hc1).
      destruct (setNestedKey c (k2 :: rest') v2); simpl; [|done].
      by rewrite obj_set_set. }
    destruct (obj_get o k) as [child|] eqn:Hget.
    + destruct child as [ | | | | |c];
        (destruct (setNestedKey _ (k2 :: rest') v1) as [c1|] eqn:Hc1; [|done];
         simpl; intros [= <-]; rewrite obj_get_set_eq; by apply Hafter).
    + destruct (k =? "__proto__") eqn:Hk.
      * destruct rest' as [|k3 rest'']; [|done].
        destruct (k2 =? "__proto__") eqn:Hk2; [|done].
        intros [= <-]. by rewrite Hget.
      * destruct (setNestedKey [] (k2 :: rest') v1) as [c1|] eqn:Hc1; [|done].
        simpl. intros [= <-]. rewrite obj_get_set_eq. by apply Hafter.
Qed.

Lemma setNestedKey_fresh_removed rest value c :
  rest ≠ [] → Forall (fun segment => segment ≠ "__proto__") rest →
  setNestedKey [] rest value = Some c →
  removeKey (JObj c) rest = (true, JObj []).
Proof.
  revert c. induction rest as [|k rest IH]; intros c Hne Hp; [done|].
  apply Forall_cons in Hp as [Hk Hp]. apply String.eqb_neq in Hk.
  destruct rest as [|k2 rest'].
  - rewrite setNestedKey_last, Hk. simpl.
    intros [= <-]. rewrite removeKey_last. simpl. by rewrite String.eqb_refl.
  - rewrite setNestedKey_step, Hk. simpl.
    destruct (setNestedKey [] (k2 :: rest') value) as [c2|] eqn:Hc2; [|done].
    simpl. intros [= <-]. rewrite removeKey_step. simpl.
    rewrite String.eqb_refl. simpl.
    rewrite (IH c2) by done. simpl. by rewrite ?String.eqb_refl.
Qed.

(** X1.  [removeKey] returns [true] exactly when the path is not empty and
    leads, through own properties, to a property of the tree; and when it
    returns [false] the tree is left as it was. *)
Theorem removeKey_true_iff_path_exists (v : json) (p : list string) :
  (fst (removeKey v p) = true ↔ p ≠ [] ∧ is_Some (get_path v p)) ∧
  (fst (removeKey v p) = false → snd (removeKey v p) = v).
Proof. split; [apply removeKey_fst | apply removeKey_false_same]. Qed.

(** X2.  After [removeKey], nothing is left at the path; removing the same
    path once more returns [false] and changes nothing. *)
Theorem removeKey_second_time_false (v : json) (p : list string) :
  (p ≠ [] → get_path (snd (removeKey v p)) p = None) ∧
  removeKey (snd (removeKey v p)) p = (false, snd (removeKey v p)).
Proof.
  split; [apply removeKey_get_path_None|].
  destruct p as [|k rest]; [by rewrite !removeKey_empty_path|].
  set (v' := snd (removeKey v (k :: rest))).
  assert (Hf : fst (removeKey v' (k :: rest)) = false).
  { destruct (fst (removeKey v' (k :: rest))) eqn:Hb; [|done].
    apply removeKey_fst in Hb as [_ [x Hx]].
    unfold v' in Hx. by rewrite removeKey_get_path_None in Hx. }
  pose proof (removeKey_false_same _ _ Hf) as Hs.
  destruct (removeKey v' (k :: rest)) as [b v'']. simpl in *. by subst.
Qed.

(** X3.  Writing a key a second time gives the tree that one write of the
    second value gives (the last write wins), so writing the same value
    twice changes nothing more. *)
Theorem setNestedKey_last_write_wins
    (o : obj) (p : list string) (v1 v2 : string) (o1 : obj) :
  setNestedKey o p v1 = Some o1 →
  setNestedKey o1 p v2 = setNestedKey o p v2 ∧
  setNestedKey o1 p v1 = Some o1.
Proof.
  intros Ho1. split; [exact (setNestedKey_twice _ _ _ _ _ Ho1)|].
  by rewrite (setNestedKey_twice _ _ _ _ _ Ho1).
Qed.

Lemma setNestedKey_last_write_wins_witness :
  setNestedKey [("a", JStr "x")] ["a"; "b"] "1"
    = Some [("a", JObj [("b", JStr "1")])] ∧
  setNestedKey [("a", JObj [("b", JStr "1")])] ["a"; "b"] "2"
    = setNestedKey [("a", JStr "x")] ["a"; "b"] "2" ∧
  setNestedKey [("a", JObj [("b", JStr "1")])] ["a"; "b"] "1"
    = Some [("a", JObj [("b", JStr "1")])].
Proof.
  split; [reflexivity|].
  apply (setNestedKey_last_write_wins [("a", JStr "x")] ["a"; "b"] "1" "2").
  reflexivity.
Defined.

(** X4.  Adding a key none of whose segments is [__proto__], and whose
    first segment is not yet a property of the object, always returns; and
    removing the key again gives back the object: the removal returns [true]
    and prunes every ancestor the addition created. *)
Theorem setNestedKey_then_removeKey
    (o : obj) (k : string) (rest : list string) (value : string) :
  obj_has o k = false →
  Forall (fun segment => segment ≠ "__proto__") (k :: rest) →
  ∃ o', setNestedKey o (k :: rest) value = Some o' ∧
        removeKey (JObj o') (k :: rest) = (true, JObj o).
Proof.
  intros Hfresh Hproto.
  destruct (setNestedKey_is_Some (k :: rest) o value) as [o' Hset]; [done|done|].
  exists o'. split; [done|]. revert Hset.
  apply Forall_cons in Hproto as [Hk Hproto]. apply String.eqb_neq in Hk.
  destruct rest as [|k2 rest'].
  - rewrite setNestedKey_last, Hk.
    intros [= <-]. rewrite removeKey_last, obj_has_set.
    by rewrite obj_delete_set_fresh.
  - rewrite setNestedKey_step.
    apply obj_has_false in Hfresh as Hget. rewrite Hget, Hk.
    destruct (setNestedKey [] (k2 :: rest') value) as [c2|] eqn:Hc2; [|done].
    simpl. intros [= <-]. rewrite removeKey_step, obj_get_set_eq. simpl.
    assert (Hne : k2 :: rest' ≠ []) by done.
    rewrite (setNestedKey_fresh_removed _ _ _ Hne Hproto Hc2). simpl.
    by rewrite obj_delete_set_fresh.
Qed.

Lemma setNestedKey_then_removeKey_witness :
  obj_has [("title", JStr "T")] "menu" = false ∧
  ∃ o', setNestedKey [("title", JStr "T")] ["menu"; "file"; "open"] "Open"
          = Some o' ∧
        removeKey (JObj o') ["menu"; "file"; "open"]
          = (true, JObj [("title", JStr "T")]).
Proof.
  split; [reflexivity|].
  apply (setNestedKey_then_removeKey [("title", JStr "T")] "menu"
           ["file"; "open"] "Open"); [reflexivity|].
  repeat constructor; discriminate.
Defined.

(** * Flattened keys after a removal and after an addition *)

(** X5.  In a tree whose property names are unique, non-empty and free of
    dots, [removeKey] at any path, inner or leaf, drops exactly the
    flattened keys that lie at or below the path and keeps every other
    key. *)
Theorem removeKey_drops_keys_below (v : json) (p : list string) :
  p ≠ [] → unique_names v = true → plain_names v = true →
  ∀ k, k ∈ getKeys (snd (removeKey v p)) "" ↔
       k ∈ getKeys v "" ∧ ¬ is_prefix p (split_dot k).
Proof.
  intros Hne Hu Hp k.
  pose proof (removeKey_unique p v Hu) as Hu'.
  rewrite !elem_of_getKeys. split.
  - intros (q & l & Hq & ->).
    apply (elem_of_leaves _ _ _ Hu') in Hq as [Hqne Hq].
    apply removeKey_leaf_at in Hq as [Hq Hnot]; [|done].
    assert (Hleaf : (q, l) ∈ leaves v) by by apply elem_of_leaves.
    split; [by exists q, l|].
    rewrite split_dot_join_path; [done | done |]. by apply (leaves_plain v q l).
  - intros [(q & l & Hq & ->) Hnot]. exists q, l. split; [|done].
    pose proof (leaves_plain v q l Hp Hq) as Hplain.
    apply (elem_of_leaves _ _ _ Hu').
    apply (elem_of_leaves _ _ _ Hu) in Hq as [Hqne Hq].
    split; [done|]. apply removeKey_leaf_at; [done|]. split; [done|].
    by rewrite split_dot_join_path in Hnot.
Qed.

Lemma removeKey_drops_keys_below_witness :
  getKeys greetings_tree "" = ["common.greeting"; "common.farewell"; "title"] ∧
  getKeys (snd (removeKey greetings_tree ["common"])) "" = ["title"] ∧
  ∀ k, k ∈ getKeys (snd (removeKey greetings_tree ["common"])) "" ↔
       k ∈ getKeys greetings_tree "" ∧ ¬ is_prefix ["common"] (split_dot k).
Proof.
  split; [reflexivity|]. split; [reflexivity|].
  apply (removeKey_drops_keys_below greetings_tree ["common"]);
    [discriminate | reflexivity | reflexivity].
Defined.

(** X6.  In such a tree, [setNestedKey] at a path of plain names, none of
    them [__proto__], always returns, and leaves the flattened key of the
    path and, of the keys there were, exactly those whose path neither
    begins with the new path nor is a beginning of it: a key above or below
    the new one is destroyed. *)
Theorem setNestedKey_keys_after
    (o : obj) (p : list string) (value : string) :
  unique_names (JObj o) = true → plain_names (JObj o) = true →
  p ≠ [] → Forall (fun k => plain_name k = true) p →
  Forall (fun k => k ≠ "__proto__") p →
  ∃ o', setNestedKey o p value = Some o' ∧
    ∀ k, k ∈ getKeys (JObj o') "" ↔
         k = join_path "" p ∨
         (k ∈ getKeys (JObj o) "" ∧
          ¬ is_prefix p (split_dot k) ∧ ¬ is_prefix (split_dot k) p).
Proof.
  intros Hu Hp Hne Hplain Hproto.
  destruct (setNestedKey_is_Some p o value Hne Hproto) as [o' Hset].
  exists o'. split; [done|]. intros k.
  pose proof (setNestedKey_unique _ _ _ _ Hu Hset) as Hu'.
  rewrite !elem_of_getKeys. split.
  - intros (q & l & Hq & ->).
    apply (elem_of_leaves _ _ _ Hu') in Hq as [Hqne Hq].
    apply (setNestedKey_leaf_at p o value o' q l Hne Hproto Hset) in Hq
      as [[-> _]|(Hq & Hn1 & Hn2)]; [by left|].
    right. assert (Hleaf : (q, l) ∈ leaves (JObj o)) by by apply elem_of_leaves.
    split; [by exists q, l|].
    rewrite split_dot_join_path; [done | done |].
    by apply (leaves_plain (JObj o) q l).
  - intros [->|[(q & l & Hq & ->) [Hn1 Hn2]]].
    + exists p, (JStr value). split; [|done].
      apply (elem_of_leaves _ _ _ Hu'). split; [done|].
      apply (setNestedKey_leaf_at p o value o' p (JStr value) Hne Hproto Hset).
      by left.
    + exists q, l. split; [|done].
      pose proof (leaves_plain (JObj o) q l Hp Hq) as Hpl.
      apply (elem_of_leaves _ _ _ Hu').
      apply (elem_of_leaves _ _ _ Hu) in Hq as [Hqne Hq].
      split; [done|].
      apply (setNestedKey_leaf_at p o value o' q l Hne Hproto Hset). right.
      rewrite split_dot_join_path in Hn1, Hn2 by done. done.
Qed.

Lemma setNestedKey_keys_after_witness :
  setNestedKey greetings ["common"] "all" =
    Some [("common", JStr "all"); ("title", JStr "Analyzer")] ∧
  ∃ o', setNestedKey greetings ["common"] "all" = Some o' ∧
    ∀ k, k ∈ getKeys (JObj o') "" ↔
         k = join_path "" ["common"] ∨
         (k ∈ getKeys (JObj greetings) "" ∧
          ¬ is_prefix ["common"] (split_dot k) ∧
          ¬ is_prefix (split_dot k) ["common"]).
Proof.
  split; [reflexivity|].
  apply (setNestedKey_keys_after greetings ["common"] "all");
    [reflexivity | reflexivity | discriminate | |];
    repeat constructor; discriminate.
Defined.

Lemma append_nil_r (s : string) : s +:+ "" = s.
Proof. induction s as [|c s IH]; [done|]. by rewrite append_cons, IH. Qed.

Lemma append_assoc (a b c : string) : (a +:+ b) +:+ c = a +:+ (b +:+ c).
Proof.
  induction a as [|x a IH]; [by rewrite !append_nil_l|].
  by rewrite !append_cons, IH.
Qed.

Lemma append_not_empty (a b : string) : a ≠ "" → a +:+ b ≠ "".
Proof. destruct a; [done|]. by rewrite append_cons. Qed.

Lemma join_path_dots q prefix :
  prefix ≠ "" →
  join_path prefix q =
    prefix +:+ fold_right (fun x acc => "." +:+ x +:+ acc) "" q.
Proof.
  revert prefix. induction q as [|x q IH]; intros prefix Hne; simpl.
  { by rewrite append_nil_r. }
  change (join_path prefix (x :: q)) with (join_path (fullKey prefix x) q).
  unfold fullKey. destruct (String.eqb_spec prefix "") as [->|_]; [done|].
  rewrite IH by by apply append_not_empty.
  by rewrite append_assoc, append_assoc.
Qed.

Lemma split_dot_dots k :
  match split_dot k with
  | a :: q => a +:+ fold_right (fun x acc => "." +:+ x +:+ acc) "" q = k
  | [] => False
  end.
Proof.
  induction k as [|c k IH]; [done|]. simpl.
  destruct (split_dot k) as [|w ws]; [done|].
  destruct (Ascii.eqb_spec c ".") as [->|_]; simpl.
  - rewrite append_nil_l. change ("." +:+ w +:+ _) with (String "." (w +:+ fold_right (fun x acc => "." +:+ x +:+ acc) "" ws)).
    by rewrite IH.
  - by rewrite append_cons, IH.
Qed.

Lemma join_path_split_dot k :
  (∀ rest, k ≠ String "." rest) → join_path "" (split_dot k) = k.
Proof.
  intros Hdot. destruct k as [|c k]; [done|].
  pose proof (split_dot_dots (String c k)) as Hs. simpl in *.
  destruct (split_dot k) as [|w ws]; [done|].
  destruct (Ascii.eqb_spec c ".") as [->|_]; [by destruct (Hdot k)|].
  change (join_path "" (String c w :: ws)) with (join_path (String c w) ws).
  by rewrite join_path_dots.
Qed.

(** X7.  Writing a key with [setNestedKey] always returns when none of its
    segments is [__proto__]; if moreover the key does not begin with a dot,
    it is a flattened key of the tree afterwards, with the value written:
    what add-missing writes for such a key, [getKeys] finds again. *)
Theorem setNestedKey_key_is_flattened (o : obj) (k value : string) :
  unique_names (JObj o) = true →
  (∀ rest, k ≠ String "." rest) →
  Forall (fun segment => segment ≠ "__proto__") (split_dot k) →
  ∃ o', setNestedKey o (split_dot k) value = Some o' ∧
        k ∈ getKeys (JObj o') "" ∧ (k, value) ∈ string_entries (JObj o').
Proof.
  intros Hu Hdot Hproto.
  pose proof (split_dot_nonempty k) as Hne.
  destruct (setNestedKey_is_Some (split_dot k) o value Hne Hproto) as [o' Hset].
  exists o'. split; [done|].
  pose proof (setNestedKey_unique _ _ _ _ Hu Hset) as Hu'.
  assert (Hleaf : (split_dot k, JStr value) ∈ leaves (JObj o')).
  { apply (elem_of_leaves _ _ _ Hu'). split; [done|].
    apply (setNestedKey_leaf_at _ o value o' _ _ Hne Hproto Hset). by left. }
  split.
  - apply elem_of_getKeys. exists (split_dot k), (JStr value).
    by rewrite join_path_split_dot.
  - apply elem_of_string_entries. exists (split_dot k).
    by rewrite join_path_split_dot.
Qed.

Lemma setNestedKey_key_is_flattened_witness :
  ∃ o', setNestedKey greetings (split_dot "common.thanks") "Thanks" = Some o' ∧
        "common.thanks" ∈ getKeys (JObj o') "" ∧
        ("common.thanks", "Thanks") ∈ string_entries (JObj o').
Proof.
  apply (setNestedKey_key_is_flattened greetings "common.thanks" "Thanks");
    [reflexivity | discriminate |].
  repeat constructor; discriminate.
Defined.

Lemma get_path_empty_object k q : get_path (JObj []) (k :: q) = None.
Proof. reflexivity. Qed.

(** X28.  A key whose last segment is [__proto__] is not stored where the
    tree holds no own property of that name at that place: with no other
    segment [__proto__] before it, [setNestedKey] returns as usual, having
    created the objects on the way, and still nothing is found at the key
    afterwards. *)
Theorem setNestedKey_drops_proto_value
    (o : obj) (q : list string) (value : string) :
  Forall (fun segment => segment ≠ "__proto__") q →
  get_path (JObj o) (q ++ ["__proto__"]) = None →
  ∃ o', setNestedKey o (q ++ ["__proto__"]) value = Some o' ∧
        get_path (JObj o') (q ++ ["__proto__"]) = None.
Proof.
  revert o. induction q as [|k q IH]; intros o Hq Hnone.
  - exists o. split; [|done]. simpl in *. rewrite setNestedKey_last.
    destruct (obj_get o "__proto__") as [c|] eqn:Hget; [done|].
    apply obj_has_false in Hget. by rewrite Hget.
  - apply Forall_cons in Hq as [Hk Hq]. apply String.eqb_neq in Hk.
    assert (Hgen : ∀ c, get_path (JObj c) (q ++ ["__proto__"]) = None →
              ∃ o', (child' ← setNestedKey c (q ++ ["__proto__"]) value;
                     Some (obj_set o k (JObj child'))) = Some o' ∧
                    get_path (JObj o') (k :: q ++ ["__proto__"]) = None).
    { intros c Hc. destruct (IH c Hq Hc) as (c' & -> & Hc').
      eexists. split; [done|]. cbn [get_path]. by rewrite obj_get_set_eq. }
    assert (Hfresh : get_path (JObj []) (q ++ ["__proto__"]) = None)
      by by destruct q.
    change ((k :: q) ++ ["__proto__"]) with (k :: q ++ ["__proto__"]) in *.
    destruct (q ++ ["__proto__"]) as [|k2 rest'] eqn:Hrest;
      [by destruct q|].
    rewrite setNestedKey_step, Hk. cbn [get_path] in Hnone.
    destruct (obj_get o k) as [[ | | | | |c]|]; try (by apply (Hgen [])).
    by apply (Hgen c).
Qed.

Lemma setNestedKey_drops_proto_value_witness :
  ∃ o', setNestedKey greetings (["common"] ++ ["__proto__"]) "x" = Some o' ∧
        get_path (JObj o') (["common"] ++ ["__proto__"]) = None.
Proof.
  apply (setNestedKey_drops_proto_value greetings ["common"] "x");
    [repeat constructor; discriminate | reflexivity].
Defined.

(** * The runtime lookup on the keys the analyzer reports *)

Lemma json_of_DDict d :
  json_of (DDict d) = JObj (map (fun e => (fst e, json_of (snd e))) d).
Proof.
  simpl. f_equal. induction d as [|[k v] d IH]; simpl; [done|]. by rewrite IH.
Qed.

Lemma obj_get_json_of (d : Dictionary) k :
  obj_get (map (fun e => (fst e, json_of (snd e))) d) k = json_of <$> dict_get d k.
Proof.
  induction d as [|[k' v] d IH]; simpl; [done|]. by destruct (k' =? k).
Qed.

Lemma get_path_resolve d q s :
  get_path (json_of (DDict d)) q = Some (JStr s) → resolve d q = Some (DStr s).
Proof.
  revert d. induction q as [|k r IH]; intros d; rewrite json_of_DDict; [done|].
  simpl. rewrite obj_get_json_of.
  destruct (dict_get d k) as [[s'|d']|]; simpl; [| |done].
  - destruct r; [by intros [= ->] | done].
  - apply IH.
Qed.

Lemma string_tree_json_of v : string_tree (json_of v) = true.
Proof.
  revert v. fix IH 1. intros [s|d]; [done|].
  rewrite json_of_DDict. simpl.
  induction d as [|[k v] d IHd]; simpl; [done|].
  rewrite (IH v). exact IHd.
Qed.

(** X8.  On a dictionary whose property names are unique, non-empty and free
    of dots, the runtime lookup [t] translates every key the analyzer's
    [getKeys] reports for the same data: it returns the string stored at
    that key, never the key itself for want of a translation. *)
Theorem t_translates_flattened_keys (dictionary : Dictionary) (k : string) :
  unique_names (json_of (DDict dictionary)) = true →
  plain_names (json_of (DDict dictionary)) = true →
  k ∈ getKeys (json_of (DDict dictionary)) "" →
  ∃ s, (k, s) ∈ string_entries (json_of (DDict dictionary)) ∧
       t dictionary k = s.
Proof.
  intros Hu Hp Hk. apply elem_of_getKeys in Hk as (q & l & Hq & ->).
  destruct (leaves_string_tree _ q l (string_tree_json_of _) Hq) as [s ->].
  exists s. split. { apply elem_of_string_entries. by exists q. }
  pose proof (leaves_plain _ q _ Hp Hq) as Hplain.
  apply (elem_of_leaves _ _ _ Hu) in Hq as [Hne [Hget _]].
  unfold t. rewrite t_loop_resolve, split_dot_join_path by done.
  by rewrite (get_path_resolve _ _ _ Hget).
Qed.

Lemma t_translates_flattened_keys_witness :
  getKeys (json_of (DDict greetings_dictionary)) ""
    = ["common.greeting"; "common.farewell"; "title"] ∧
  ∃ s, ("common.farewell", s) ∈ string_entries (json_of (DDict greetings_dictionary)) ∧
       t greetings_dictionary "common.farewell" = s.
Proof.
  split; [reflexivity|].
  apply (t_translates_flattened_keys greetings_dictionary "common.farewell");
    [reflexivity | reflexivity |].
  apply list_elem_of_In. simpl. tauto.
Defined.

(** * Further properties of the analysis *)

Section AnalysisMore.
Context {H : Host}.

Lemma first_accessible_first paths w :
  ∃ found, first_accessible paths w = (Done found, w) ∧
    match found with
    | Some dir =>
        ∃ before after, paths = before ++ dir :: after ∧ accessible w dir ∧
                        Forall (fun p => ¬ accessible w p) before
    | None => Forall (fun p => ¬ accessible w p) paths
    end.
Proof.
  induction paths as [|p paths IH]; simpl.
  { exists None. split; [done | constructor]. }
  unfold io_bind, fs_access.
  destruct (bool_decide (is_Some (files w !! p))) eqn:Hp.
  - exists (Some p). split; [done|]. exists [], paths. split; [done|].
    split; [by apply bool_decide_eq_true in Hp | constructor].
  - destruct IH as (found & -> & Hfound). exists found. split; [done|].
    apply bool_decide_eq_false in Hp. destruct found as [dir|].
    + destruct Hfound as (before & after & -> & Hacc & Hbefore).
      exists (p :: before), after. split; [done|]. split; [done|].
      by constructor.
    + by constructor.
Qed.

(** X9.  [findLocalesDirectory] changes nothing and returns the first of the
    five candidates, the configured directory before the alternatives in
    their order, that [fs.access] accepts; it returns [null] exactly when
    none is accepted. *)
Theorem findLocalesDirectory_first_candidate (w : World) :
  ∃ found, findLocalesDirectory w = (Done found, w) ∧
    match found with
    | Some dir =>
        ∃ before after,
          locales_candidates = before ++ dir :: after ∧ accessible w dir ∧
          Forall (fun p => ¬ accessible w p) before
    | None => Forall (fun p => ¬ accessible w p) locales_candidates
    end.
Proof. exact (first_accessible_first locales_candidates w). Qed.

Lemma after_errors_nil w : after_errors w [] = w.
Proof. destruct w. unfold after_errors. simpl. by rewrite app_nil_r. Qed.

Lemma after_errors_app w a b :
  after_errors (after_errors w a) b = after_errors w (a ++ b).
Proof. unfold after_errors. simpl. by rewrite app_assoc. Qed.

Lemma loadLocale_after_errors locale dir w :
  ∃ v errs, loadLocale locale dir w = (Done v, after_errors w errs).
Proof. apply loadLocale_reads. Qed.

Lemma load_others_after_errors locales dir keysAcc available w :
  ∃ r errs,
    load_others locales dir keysAcc available w = (Done r, after_errors w errs).
Proof.
  revert keysAcc available w.
  induction locales as [|l locales IH]; intros keysAcc available w; simpl.
  { exists (keysAcc, available), []. by rewrite after_errors_nil. }
  unfold io_bind.
  destruct (loadLocale_after_errors l dir w) as (v & errs & ->).
  destruct (truthy v);
    [destruct (IH (keysAcc ++ [(l, getKeys v "")]) (available ++ [l])
                  (after_errors w errs)) as (r & errs' & ->)
    |destruct (IH keysAcc available (after_errors w errs)) as (r & errs' & ->)];
    exists r, (errs ++ errs'); by rewrite after_errors_app.
Qed.

(** X10.  [analyzeLocales] always resolves; it writes no file and reads no
    line of input, the world afterwards differing by printed diagnostics
    only; and when it returns [null] the last diagnostic printed says that
    the locales directory or the default locale file was not found. *)
Theorem analyzeLocales_only_reads (scanned : list string) (w : World) :
  ∃ result errs,
    analyzeLocales scanned w = (Done result, after_errors w errs) ∧
    (result = None →
     last errs = Some LocalesDirNotFound ∨
     last errs = Some (DefaultLocaleNotFound "en")).
Proof.
  unfold analyzeLocales.
  destruct (findLocalesDirectory_pure w) as [found Hfound].
  unfold io_bind at 1. rewrite Hfound. destruct found as [dir|].
  2:{ exists None, [LocalesDirNotFound]. split; [done | by left]. }
  unfold io_bind at 1.
  destruct (loadLocale_after_errors "en" dir w) as (v & errs & Hload).
  unfold CONFIG_defaultLocale. rewrite Hload.
  destruct (truthy v); cbn [negb].
  - unfold io_bind at 1.
    destruct (load_others_after_errors CONFIG_otherLocales dir [] []
                (after_errors w errs)) as (r & errs' & ->).
    eexists (Some _), (errs ++ errs'). rewrite after_errors_app.
    split; [reflexivity | done].
  - exists None, (errs ++ [DefaultLocaleNotFound "en"]).
    split; [by rewrite <- after_errors_app|].
    intros _. right. by rewrite last_snoc.
Qed.

Lemma loadLocale_truthy locale dir w v w' :
  loadLocale locale dir w = (Done v, w') → truthy v = true →
  ∃ content, files w !! locale_file locale dir = Some (File content) ∧
             JSON_parse content = Parsed v ∧ w' = w.
Proof.
  rewrite loadLocale_cases.
  destruct (files w !! locale_file locale dir) as [[content|]|];
    [|by intros [= <- _] | by intros [= <- _]].
  destruct (JSON_parse content) as [v'|message] eqn:Hparse;
    [|by intros [= <- _]].
  intros [= <- <-] _. by exists content.
Qed.

(** X11.  [analyzeLocales] returns a report exactly when a candidate
    directory is accessible and the file of the default locale in the first
    such directory parses to a truthy value; the report then names that
    directory and holds the flattened keys of that value, and any truthy
    value is accepted, an array or a number giving a report without
    default-locale keys. *)
Theorem analyzeLocales_succeeds_iff (scanned : list string) (w : World) :
  ((∃ r w', analyzeLocales scanned w = (Done (Some r), w')) ↔
   ∃ dir content v,
     findLocalesDirectory w = (Done (Some dir), w) ∧
     files w !! locale_file "en" dir = Some (File content) ∧
     JSON_parse content = Parsed v ∧ truthy v = true) ∧
  (∀ r w', analyzeLocales scanned w = (Done (Some r), w') →
     ∃ content v,
       findLocalesDirectory w = (Done (Some (localesDir r)), w) ∧
       files w !! locale_file "en" (localesDir r) = Some (File content) ∧
       JSON_parse content = Parsed v ∧ truthy v = true ∧
       defaultLocaleKeys r = getKeys v "" ∧
       (is_plain_object v = false → defaultLocaleKeys r = [])).
Proof.
  assert (Hfrom : ∀ r w', analyzeLocales scanned w = (Done (Some r), w') →
     ∃ content v,
       findLocalesDirectory w = (Done (Some (localesDir r)), w) ∧
       files w !! locale_file "en" (localesDir r) = Some (File content) ∧
       JSON_parse content = Parsed v ∧ truthy v = true ∧
       defaultLocaleKeys r = getKeys v "" ∧
       (is_plain_object v = false → defaultLocaleKeys r = [])).
  { intros r w'. unfold analyzeLocales. intros Hrun.
    destruct (findLocalesDirectory_pure w) as [found Hfound].
    unfold io_bind at 1 in Hrun. rewrite Hfound in Hrun.
    destruct found as [dir|].
    2:{ apply io_bind_done in Hrun as (? & ? & _ & Hrun). discriminate. }
    apply io_bind_done in Hrun as (enData & wa & Hen & Hrun).
    destruct (truthy enData) eqn:Htruthy; simpl in Hrun.
    2:{ apply io_bind_done in Hrun as (? & ? & _ & Hrun). discriminate. }
    apply io_bind_done in Hrun as (others & w3 & Hothers & Hrun).
    injection Hrun as <- _. simpl.
    destruct (loadLocale_truthy _ _ _ _ _ Hen Htruthy) as (content & Hfile & Hparse & _).
    exists content, enData. repeat split; try done.
    intros Hno. by destruct enData. }
  split; [|exact Hfrom]. split.
  - intros (r & w' & Hrun).
    destruct (Hfrom r w' Hrun) as (content & v & ? & ? & ? & ? & _).
    by exists (localesDir r), content, v.
  - intros (dir & content & v & Hfound & Hfile & Hparse & Htruthy).
    unfold analyzeLocales. unfold io_bind at 1. rewrite Hfound.
    unfold io_bind at 1. unfold CONFIG_defaultLocale.
    rewrite loadLocale_cases, Hfile, Hparse, Htruthy. cbn [negb].
    unfold io_bind at 1.
    destruct (load_others_done CONFIG_otherLocales dir [] [] w) as (r & w' & ->).
    by eexists _, _.
Qed.

Lemma elem_of_other_locales scanned w r w' k :
  analyzeLocales scanned w = (Done (Some r), w') →
  k ∈ concat (map snd (otherLocaleKeys r)) ↔
  has_in_locale (otherLocaleKeys r) "es" k = true.
Proof.
  intros Hrun.
  destruct (analyzeLocales_loaded _ _ _ _ Hrun)
    as (enData & wa & esData & wb & _ & _ & _ & ->).
  destruct (truthy esData); simpl.
  - rewrite app_nil_r. unfold has_in_locale. simpl. by rewrite set_has_elem.
  - unfold has_in_locale. simpl. split; [by intros ?%elem_of_nil | done].
Qed.

(** X12.  The report has an entry for exactly the keys that occur
    somewhere: found by the scan, or flattened from the default locale, or
    held for the secondary locale.  So every entry has at least one of its
    three flags set, and the flags for the code and for the default locale
    tell whether the key was found by the scan and whether it is a key of
    the default locale as loaded. *)
Theorem keyStatuses_cover_all_keys
    (scanned : list string) (w : World) (r : AnalysisResult) (w' : World) :
  analyzeLocales scanned w = (Done (Some r), w') →
  (∀ k, k ∈ map key (keyStatuses r) ↔
        k ∈ scanned ∨ k ∈ defaultLocaleKeys r ∨
        has_in_locale (otherLocaleKeys r) "es" k = true) ∧
  (∀ s, s ∈ keyStatuses r →
        inCode s || inEN s || inES s = true ∧
        (inCode s = true ↔ key s ∈ scanned) ∧
        (inEN s = true ↔ key s ∈ defaultLocaleKeys r)).
Proof.
  intros Hrun.
  destruct (analyzeLocales_result _ _ _ _ Hrun) as (Hused & _ & _).
  split.
  - intros k. rewrite list_elem_of_fmap.
    rewrite <- (elem_of_other_locales _ _ _ _ k Hrun), <- Hused. split.
    + intros (s & -> & Hs).
      apply (elem_of_keyStatuses _ _ _ _ _ Hrun) in Hs as (k' & -> & Hk').
      simpl. tauto.
    + intros Hk. exists (status_of r k). split; [done|].
      apply (elem_of_keyStatuses _ _ _ _ _ Hrun). exists k. tauto.
  - intros s Hs.
    apply (elem_of_keyStatuses _ _ _ _ _ Hrun) in Hs as (k & -> & Hk). simpl.
    rewrite <- Hused. rewrite !set_has_elem. split; [|done].
    destruct Hk as [Hk|[Hk|Hk]].
    + apply set_has_elem in Hk. rewrite Hk. by rewrite orb_true_r.
    + apply (elem_of_other_locales _ _ _ _ k Hrun) in Hk. rewrite Hk.
      by rewrite orb_true_r.
    + apply set_has_elem in Hk. by rewrite Hk.
Qed.

(** X13.  The keys the delete-unused operation selects for a locale are
    exactly the keys the report holds for that locale that the scan did not
    find; no key is selected both for deletion and for addition. *)
Theorem keysInLocaleOnly_selection
    (scanned : list string) (w : World) (r : AnalysisResult) (w' : World) :
  analyzeLocales scanned w = (Done (Some r), w') →
  (∀ k, k ∈ map key (keysInLocaleOnly r EN) ↔
        k ∈ defaultLocaleKeys r ∧ k ∉ usedKeys r) ∧
  (∀ k, k ∈ map key (keysInLocaleOnly r ES) ↔
        has_in_locale (otherLocaleKeys r) "es" k = true ∧ k ∉ usedKeys r) ∧
  (∀ locale k, k ∈ map key (keysInLocaleOnly r locale) →
               k ∉ map key (keysInCodeOnly r)).
Proof.
  intros Hrun.
  assert (Hsel : ∀ locale k, k ∈ map key (keysInLocaleOnly r locale) ↔
     (match locale with
      | EN => set_has (defaultLocaleKeys r) k
      | ES => has_in_locale (otherLocaleKeys r) "es" k
      end = true) ∧ k ∉ usedKeys r).
  { intros locale k. unfold keysInLocaleOnly. rewrite list_elem_of_fmap. split.
    - intros (s & -> & Hs). apply list_elem_of_In, filter_In in Hs as [Hs Hflags].
      apply list_elem_of_In, (elem_of_keyStatuses _ _ _ _ _ Hrun) in Hs
        as (k & -> & _).
      simpl in *. apply andb_true_iff in Hflags as [Hin Hcode].
      apply negb_true_iff, set_has_not_elem in Hcode. split; [|done].
      by destruct locale.
    - intros [Hin Hcode]. exists (status_of r k). split; [done|].
      apply list_elem_of_In, filter_In. split.
      + apply list_elem_of_In, (elem_of_keyStatuses _ _ _ _ _ Hrun).
        exists k. split; [done|]. destruct locale.
        * left. by apply set_has_elem.
        * right; left. unfold has_in_locale in Hin.
          destruct (analyzeLocales_loaded _ _ _ _ Hrun)
            as (enData & wa & esData & wb & _ & _ & _ & Hother).
          rewrite Hother in Hin |- *. destruct (truthy esData); simpl in *.
          -- rewrite app_nil_r. by apply set_has_elem.
          -- done.
      + simpl. apply andb_true_iff. split; [by destruct locale|].
        by apply negb_true_iff, set_has_not_elem. }
  split; [|split].
  - intros k. rewrite (Hsel EN k). by rewrite set_has_elem.
  - intros k. by rewrite (Hsel ES k).
  - intros locale k Hk Hadd. apply Hsel in Hk as [_ Hcode]. apply Hcode.
    unfold keysInCodeOnly in Hadd.
    apply list_elem_of_fmap in Hadd as (s & -> & Hs).
    apply list_elem_of_In, filter_In in Hs as [Hs Hflags].
    apply list_elem_of_In, (elem_of_keyStatuses _ _ _ _ _ Hrun) in Hs
      as (k & -> & _).
    simpl in *. apply andb_true_iff in Hflags as [Hin _].
    by apply set_has_elem.
Qed.

End AnalysisMore.

Lemma analyzeLocales_succeeds_iff_witness :
  (∃ r w', analyzeLocales (H := reference_host) ["a"] only_default_locale
             = (Done (Some r), w')) ∧
  ∃ dir content v,
    findLocalesDirectory (H := reference_host) only_default_locale
      = (Done (Some dir), only_default_locale) ∧
    files only_default_locale !! locale_file (H := reference_host) "en" dir
      = Some (File content) ∧
    JSON_parse (Host := reference_host) content = Parsed v ∧ truthy v = true.
Proof.
  assert (Hrun : ∃ r w', analyzeLocales (H := reference_host) ["a"] only_default_locale
             = (Done (Some r), w')).
  { eexists _, _. vm_compute. reflexivity. }
  split; [exact Hrun|].
  exact (proj1 (proj1 (analyzeLocales_succeeds_iff (H := reference_host) ["a"]
                         only_default_locale)) Hrun).
Defined.

Lemma keyStatuses_cover_all_keys_witness :
  ∃ r w',
    analyzeLocales (H := reference_host) ["a"; "c"] en_and_es = (Done (Some r), w') ∧
    map key (keyStatuses r) = ["a"; "b"; "c"] ∧
    (∀ k, k ∈ map key (keyStatuses r) ↔
          k ∈ ["a"; "c"] ∨ k ∈ defaultLocaleKeys r ∨
          has_in_locale (otherLocaleKeys r) "es" k = true) ∧
    (∀ s, s ∈ keyStatuses r →
          inCode s || inEN s || inES s = true ∧
          (inCode s = true ↔ key s ∈ ["a"; "c"]) ∧
          (inEN s = true ↔ key s ∈ defaultLocaleKeys r)).
Proof.
  eexists _, _. split; [vm_compute; reflexivity|]. split; [reflexivity|].
  refine (keyStatuses_cover_all_keys (H := reference_host) ["a"; "c"] en_and_es _ _ _).
  vm_compute. reflexivity.
Defined.

Lemma keysInLocaleOnly_selection_witness :
  ∃ r w',
    analyzeLocales (H := reference_host) ["a"] en_and_es = (Done (Some r), w') ∧
    map key (keysInLocaleOnly r EN) = ["b"] ∧
    map key (keysInLocaleOnly r ES) = [] ∧
    (∀ k, k ∈ map key (keysInLocaleOnly r EN) ↔
          k ∈ defaultLocaleKeys r ∧ k ∉ usedKeys r).
Proof.
  eexists _, _. split; [vm_compute; reflexivity|].
  split; [reflexivity|]. split; [reflexivity|].
  refine (proj1 (keysInLocaleOnly_selection (H := reference_host) ["a"] en_and_es _ _ _)).
  vm_compute. reflexivity.
Defined.

(** * Further properties of the prompts and of the two mutations *)

Lemma lower_ascii_y c :
  lower_ascii c = "y"%char → c = "y"%char ∨ c = "Y"%char.
Proof.
  destruct c as [[] [] [] [] [] [] [] []]; vm_compute; intros Hc;
    try discriminate Hc; auto.
Qed.

Lemma lower_ascii_e c :
  lower_ascii c = "e"%char → c = "e"%char ∨ c = "E"%char.
Proof.
  destruct c as [[] [] [] [] [] [] [] []]; vm_compute; intros Hc;
    try discriminate Hc; auto.
Qed.

Lemma lower_ascii_s c :
  lower_ascii c = "s"%char → c = "s"%char ∨ c = "S"%char.
Proof.
  destruct c as [[] [] [] [] [] [] [] []]; vm_compute; intros Hc;
    try discriminate Hc; auto.
Qed.

(** X14.  A confirmation counts as given for exactly ten answers: the
    letter y and the word yes, each letter in either case.  The answer is
    not trimmed, so an answer with a space around it is a refusal. *)
Theorem affirmative_exactly (answer : string) :
  affirmative answer = true ↔ answer ∈ yes_answers.
Proof.
  split.
  - unfold affirmative. intros Ha. apply orb_true_iff in Ha as [Ha|Ha];
      apply String.eqb_eq in Ha.
    + destruct answer as [|c1 [|c2 rest]]; try discriminate Ha.
      injection Ha as Hc1. apply list_elem_of_In. simpl.
      destruct (lower_ascii_y _ Hc1) as [-> | ->]; tauto.
    + destruct answer as [|c1 [|c2 [|c3 [|c4 rest]]]]; try discriminate Ha.
      injection Ha as Hc1 Hc2 Hc3. apply list_elem_of_In. simpl.
      destruct (lower_ascii_y _ Hc1) as [-> | ->],
               (lower_ascii_e _ Hc2) as [-> | ->],
               (lower_ascii_s _ Hc3) as [-> | ->]; tauto.
  - intros Hin. apply list_elem_of_In in Hin. simpl in Hin.
    repeat (destruct Hin as [<-|Hin]; [reflexivity|]). done.
Qed.

Lemma trim_start_all_space s : all_space s = true → trim_start s = "".
Proof.
  unfold all_space. induction s as [|c s IH]; [done|].
  cbn [list_ascii_of_string forallb trim_start].
  intros Hs. apply andb_true_iff in Hs as [-> Hs]. by apply IH.
Qed.

(** X15.  The value add-missing writes for a key is never the empty
    string; an answer that holds white space only counts as no answer and
    gives the placeholder, the key between square brackets. *)
Theorem translation_never_empty (answer k : string) :
  translation_for (trim answer) k ≠ "" ∧
  (all_space answer = true →
   translation_for (trim answer) k = "[" +:+ k +:+ "]").
Proof.
  unfold translation_for. split.
  - destruct (String.eqb_spec (trim answer) ""); [|done].
    by rewrite append_cons.
  - intros Hs. unfold trim. by rewrite trim_start_all_space.
Qed.

Section MutationsMore.
Context {H : Host}.

(** X16.  Add-missing does nothing, and asks nothing, when no key is
    selected; with keys selected, a first answer that is no yes ends it with
    that one line read and nothing else changed; so whenever it wrote or
    changed a file, keys were selected and the first answer was a yes. *)
Theorem addMissingKeys_asks_first (r : AnalysisResult) (w : World) :
  (keysInCodeOnly r = [] → addMissingKeys r w = (Done tt, w)) ∧
  (∀ a rest, keysInCodeOnly r ≠ [] → stdin w = a :: rest →
             affirmative a = false →
             addMissingKeys r w = (Done tt, after_input w rest)) ∧
  (∀ out w', addMissingKeys r w = (out, w') →
             written w' ≠ written w ∨ files w' ≠ files w →
             keysInCodeOnly r ≠ [] ∧
             ∃ a rest, stdin w = a :: rest ∧ affirmative a = true).
Proof.
  unfold addMissingKeys. split; [by intros ->|]. split.
  - intros a rest Hsel Hin Hno.
    destruct (keysInCodeOnly r) as [|s sel]; [done|].
    unfold io_bind, askConfirmation, io_bind, rl_question. rewrite Hin.
    unfold io_ret. by rewrite Hno.
  - intros out w' Hrun Hchanged.
    destruct (keysInCodeOnly r) as [|s sel].
    { injection Hrun as <- <-. by destruct Hchanged. }
    split; [done|].
    unfold io_bind at 1 in Hrun.
    unfold askConfirmation, io_bind, rl_question in Hrun.
    destruct (stdin w) as [|a rest] eqn:Hin.
    { injection Hrun as <- <-. by destruct Hchanged. }
    unfold io_ret in Hrun. exists a, rest. split; [done|].
    destruct (affirmative a); [done|].
    injection Hrun as <- <-. by destruct Hchanged.
Qed.

(** X17.  When add-missing meets a locale file that does not parse, it
    prints the diagnostic of [loadLocale] and then overwrites the file: the
    text written is that of an object whose only leaf is the new key, so
    whatever the file held is lost. *)
Theorem add_key_to_overwrites_unparsable_file
    (locale dir k translation : string) (w : World) (content message : string) :
  files w !! locale_file locale dir = Some (File content) →
  JSON_parse content = SyntaxError message →
  Forall (fun segment => segment ≠ "__proto__") (split_dot k) →
  ∃ o',
    setNestedKey [] (split_dot k) translation = Some o' ∧
    (∀ q l, leaf_at (JObj o') q l ↔ q = split_dot k ∧ l = JStr translation) ∧
    add_key_to locale dir k translation w =
      (Done tt,
       after_write (after_error w (LocaleFileError locale message))
         (locale_file locale dir) (JSON_stringify (JObj o'))).
Proof.
  intros Hfile Hparse Hproto.
  pose proof (split_dot_nonempty k) as Hne.
  destruct (setNestedKey_is_Some (split_dot k) [] translation Hne Hproto)
    as [o' Ho'].
  exists o'. split; [done|]. split.
  - intros q l.
    rewrite (setNestedKey_leaf_at _ _ _ _ q l Hne Hproto Ho'). split.
    + intros [Hq|[Hq _]]; [done | by apply leaf_at_empty_object in Hq].
    + by left.
  - unfold add_key_to. unfold io_bind at 1.
    rewrite loadLocale_cases, Hfile, Hparse. simpl.
    cbn [setNestedKey_on]. unfold setNestedKey_in. rewrite Ho'.
    unfold fs_writeFile. simpl. fold (locale_file locale dir).
    by rewrite Hfile.
Qed.

(** X18.  Delete-unused, after its two confirmations, leaves a locale file
    that does not load as it is: when [loadLocale] returns a falsy value
    (the file is missing, unreadable, unparsable, or holds [null]) nothing
    is written, unlike add-missing in the same situation. *)
Theorem deleteKeysFromLocale_keeps_unloadable_file
    (r : AnalysisResult) (locale : Locale) (w : World)
    (a1 a2 : string) (rest : list string) (v : json) (w1 : World) :
  keysInLocaleOnly r locale ≠ [] →
  stdin w = a1 :: a2 :: rest →
  affirmative a1 = true → affirmative a2 = true →
  loadLocale (locale_name locale) (localesDir r) (after_input w rest)
    = (Done v, w1) →
  truthy v = false →
  deleteKeysFromLocale r locale w = (Done tt, w1) ∧
  files w1 = files w ∧ written w1 = written w ∧ stdin w1 = rest.
Proof.
  intros Hsel Hin Ha1 Ha2 Hload Hfalsy. split.
  - unfold deleteKeysFromLocale.
    destruct (keysInLocaleOnly r locale) as [|s sel]; [done|].
    unfold io_bind at 1. unfold askConfirmation at 1, io_bind at 1, rl_question.
    rewrite Hin. unfold io_ret at 1. rewrite Ha1. cbn [negb].
    unfold io_bind at 1. unfold askConfirmation at 1, io_bind at 1, rl_question.
    cbn [stdin after_input]. unfold io_ret at 1. rewrite Ha2. cbn [negb].
    unfold io_bind at 1.
    replace (after_input (after_input w (a2 :: rest)) rest)
      with (after_input w rest) by done.
    rewrite Hload, Hfalsy. done.
  - destruct (loadLocale_after_errors (locale_name locale) (localesDir r)
                (after_input w rest)) as (v' & errs & Hload').
    rewrite Hload in Hload'. by injection Hload' as _ ->.
Qed.

End MutationsMore.

Lemma translation_never_empty_witness :
  all_space "  " = true ∧
  translation_for (trim "  ") "menu.open" ≠ "" ∧
  translation_for (trim "  ") "menu.open" = "[menu.open]".
Proof.
  split; [reflexivity|].
  split; [apply (translation_never_empty "  " "menu.open")|].
  apply (translation_never_empty "  " "menu.open"). reflexivity.
Defined.

Lemma add_key_to_overwrites_unparsable_file_witness :
  files broken_en !! "/project/src/locales/en.json" = Some (File "{") ∧
  ∃ o',
    setNestedKey [] (split_dot "menu.open") "Open" = Some o' ∧
    (∀ q l, leaf_at (JObj o') q l ↔ q = split_dot "menu.open" ∧ l = JStr "Open") ∧
    add_key_to (H := reference_host) "en" "/project/src/locales" "menu.open" "Open"
      broken_en =
      (Done tt,
       after_write
         (after_error broken_en
            (LocaleFileError "en" "Unexpected token or end of JSON input"))
         "/project/src/locales/en.json"
         (JSON_stringify (Host := reference_host) (JObj o'))).
Proof.
  split; [reflexivity|].
  apply (add_key_to_overwrites_unparsable_file (H := reference_host)
           "en" "/project/src/locales" "menu.open" "Open" broken_en "{");
    [reflexivity | reflexivity |].
  repeat constructor; discriminate.
Defined.

Lemma deleteKeysFromLocale_keeps_unloadable_file_witness :
  ∃ r w1,
    analyzeLocales (H := reference_host) ["a"] a_and_b = (Done (Some r), w1) ∧
    map key (keysInLocaleOnly r EN) = ["b"] ∧
    deleteKeysFromLocale (H := reference_host) r EN (without_files a_and_b)
      = (Done tt, after_input (without_files a_and_b) []) ∧
    files (after_input (without_files a_and_b) []) = files (without_files a_and_b).
Proof.
  eexists _, _. split; [vm_compute; reflexivity|]. split; [reflexivity|].
  match goal with
  | |- deleteKeysFromLocale ?r EN ?w = _ ∧ _ =>
      pose proof (deleteKeysFromLocale_keeps_unloadable_file (H := reference_host)
                    r EN w "y" "yes" [] JNull (after_input w [])) as Hkeep
  end.
  destruct Hkeep as (Hrun & Hfiles & _ & _);
    [discriminate | reflexivity | reflexivity | reflexivity | reflexivity
    | reflexivity |].
  split; [exact Hrun | exact Hfiles].
Defined.

(** * The source scanner *)

(** X19.  A file is scanned by its name alone: [CONFIG.fileExtensions]
    accepts exactly the names that end with a dot and one of [tsx], [ts],
    [jsx], [js], whatever stands before that dot (nothing at all, or a name
    with further dots such as a declaration file [x.d.ts]). *)
Theorem fileExtensions_test_iff_suffix (name : string) :
  fileExtensions_test name = true ↔
  ∃ stem ext, ext ∈ source_extensions ∧ name = stem +:+ "." +:+ ext.
Proof.
  split.
  - induction name as [|c rest IH]; cbn [fileExtensions_test]; [done|].
    intros Ht. apply orb_true_iff in Ht as [Ht|Ht].
    + apply andb_true_iff in Ht as [Hc Hext].
      apply Ascii.eqb_eq in Hc as ->. apply set_has_elem in Hext.
      by exists "", rest.
    + destruct (IH Ht) as (stem & ext & Hext & ->).
      by exists (String c stem), ext.
  - intros (stem & ext & Hext & ->).
    induction stem as [|c stem IH].
    + rewrite append_nil_l. change ("." +:+ ext) with (String "." ext).
      cbn [fileExtensions_test]. apply set_has_elem in Hext. by rewrite Hext.
    + rewrite append_cons. cbn [fileExtensions_test]. rewrite IH.
      by rewrite orb_true_r.
Qed.

(** ** What the patterns capture *)

Lemma take_key_spec s k after :
  take_key s = (k, after) →
  s = k +:+ after ∧
  (∀ c, is_quote c = true → includes_char c k = false) ∧
  match after with
  | EmptyString => True
  | String q _ => is_quote q = true
  end.
Proof.
  revert k after. induction s as [|c s IH]; intros k after; simpl.
  { by intros [= <- <-]. }
  destruct (is_quote c) eqn:Hq.
  { intros [= <- <-]. by rewrite append_nil_l. }
  destruct (take_key s) as [k' after'] eqn:Htake. intros [= <- <-].
  destruct (IH k' after' eq_refl) as (-> & Hno & Hafter).
  split; [done|]. split; [|done].
  intros q Hquote. simpl. rewrite (Hno q Hquote), orb_false_r.
  destruct (Ascii.eqb_spec c q) as [->|_]; [congruence | done].
Qed.

Lemma match_argument_key namespaced closing s k rest :
  match_argument namespaced closing s = Some (k, rest) →
  k ≠ "" ∧ ∀ c, is_quote c = true → includes_char c k = false.
Proof.
  unfold match_argument.
  destruct (trim_start s) as [|q s']; [done|].
  destruct (is_quote q); [|done].
  destruct (take_key s') as [k' after] eqn:Htake.
  destruct k' as [|c0 k']; [done|]. destruct after as [|q' after']; [done|].
  destruct (is_quote q' && (negb namespaced || namespaced_key (String c0 k')));
    [|done].
  destruct (trim_start after') as [|c rest']; [done|].
  destruct (Ascii.eqb c closing); [|done].
  intros [= <- <-]. split; [done|].
  by destruct (take_key_spec _ _ _ Htake) as (_ & Hno & _).
Qed.

Lemma match_at_key p at_start s k rest :
  match_at p at_start s = Some (k, rest) →
  k ≠ "" ∧ ∀ c, is_quote c = true → includes_char c k = false.
Proof.
  assert (Hbody : ∀ namespaced closing s,
            match_body namespaced closing s = Some (k, rest) →
            k ≠ "" ∧ ∀ c, is_quote c = true → includes_char c k = false).
  { intros namespaced closing s0. unfold match_body.
    destruct (match_call s0); [apply match_argument_key | done]. }
  assert (Hbounded : ∀ namespaced closing,
            match_bounded namespaced closing at_start s = Some (k, rest) →
            k ≠ "" ∧ ∀ c, is_quote c = true → includes_char c k = false).
  { intros namespaced closing. unfold match_bounded.
    destruct (if at_start then match_body namespaced closing s else None)
      as [r|] eqn:Hfirst.
    - intros [= ->]. destruct at_start; [by apply Hbody in Hfirst | done].
    - destruct s as [|c s']; [done|].
      destruct (is_word_char c); [done | apply Hbody]. }
  destruct p; cbn [match_at]; try apply Hbounded.
  destruct (RefHost.strip_prefix "i18n." s); [apply Hbody | done].
Qed.

Lemma exec_all_key p at_start skip s m :
  m ∈ exec_all p at_start skip s →
  m ≠ "" ∧ ∀ c, is_quote c = true → includes_char c m = false.
Proof.
  revert at_start skip. induction s as [|c s IH]; intros at_start skip; simpl.
  { by intros Hm%elem_of_nil. }
  destruct skip as [|skip]; [|apply IH].
  destruct (match_at p at_start (String c s)) as [[k after]|] eqn:Hmatch;
    [|apply IH].
  intros Hm. apply elem_of_cons in Hm as [->|Hm]; [|by apply IH in Hm].
  by apply match_at_key in Hmatch.
Qed.

(** ** What [cleanKey] keeps *)

Lemma split_on_segments c s seg :
  seg ∈ split_on c s →
  includes_char c seg = false ∧
  ∀ x, includes_char x s = false → includes_char x seg = false.
Proof.
  revert seg. induction s as [|c' s IH]; intros seg; simpl.
  { intros Hseg. apply list_elem_of_singleton in Hseg as ->. done. }
  destruct (split_on c s) as [|w ws] eqn:Hsplit.
  { intros Hseg. apply list_elem_of_singleton in Hseg as ->. done. }
  destruct (Ascii.eqb_spec c' c) as [->|Hc].
  - intros Hseg. apply elem_of_cons in Hseg as [->|Hseg]; [done|].
    destruct (IH seg Hseg) as [Hno Hother]. split; [done|].
    intros x Hx. apply orb_false_iff in Hx as [_ Hx]. by apply Hother.
  - intros Hseg. apply elem_of_cons in Hseg as [->|Hseg].
    + destruct (IH w) as [Hno Hother]; [by left|]. simpl. split.
      * rewrite Hno, orb_false_r. by apply Ascii.eqb_neq.
      * intros x Hx. apply orb_false_iff in Hx as [Hx1 Hx2].
        by rewrite Hx1, (Hother x Hx2).
    + destruct (IH seg) as [Hno Hother]; [by right|]. split; [done|].
      intros x Hx. apply orb_false_iff in Hx as [_ Hx]. by apply Hother.
Qed.

Lemma cleanKey_spec m :
  includes_char ":" (cleanKey m) = false ∧
  ∀ x, includes_char x m = false → includes_char x (cleanKey m) = false.
Proof.
  unfold cleanKey. destruct (includes_char ":" m) eqn:Hcolon; [|done].
  destruct (split_on ":" m) as [|first [|second rest]] eqn:Hsplit.
  - destruct m; simpl in Hsplit; [done|].
    destruct (split_on ":" m); [done | by destruct (Ascii.eqb _ _)].
  - exfalso. revert first Hsplit Hcolon.
    induction m as [|c m IH]; intros first; simpl; [done|].
    destruct (split_on ":" m) as [|w ws] eqn:Hm; [|].
    { destruct m; simpl in Hm; [done|].
      destruct (split_on ":" m); [done | by destruct (Ascii.eqb _ _)]. }
    destruct (Ascii.eqb c ":") eqn:Hc; [done|]. simpl.
    intros [= <- ->]. by apply (IH w).
  - apply (split_on_segments ":" m second). rewrite Hsplit. right. by left.
Qed.

(** ** The keys a scan collects *)

Lemma elem_of_fold_set_add {A} (f : A → string) (ms : list A) keys k :
  k ∈ fold_left (fun keys m => set_add (f m) keys) ms keys ↔
  k ∈ keys ∨ ∃ m, m ∈ ms ∧ k = f m.
Proof.
  revert keys. induction ms as [|m ms IH]; intros keys; simpl.
  { split; [by left | intros [?|(m & Hm & _)]; [done | by apply elem_of_nil in Hm]]. }
  rewrite IH, elem_of_set_add. split.
  - intros [[->|?]|(m' & Hm' & ->)].
    + right. exists m. split; [by left | done].
    + by left.
    + right. exists m'. split; [by right | done].
  - intros [?|(m' & Hm' & ->)]; [left; by right|].
    apply elem_of_cons in Hm' as [->|Hm']; [left; by left | right; by exists m'].
Qed.

Lemma elem_of_scan_patterns text (ps : list pattern) keys k :
  k ∈ fold_left
        (fun keys p =>
           fold_left (fun keys m => set_add (cleanKey m) keys)
             (exec_all p true 0 text) keys)
        ps keys ↔
  k ∈ keys ∨ ∃ p m, p ∈ ps ∧ m ∈ exec_all p true 0 text ∧ k = cleanKey m.
Proof.
  revert keys. induction ps as [|p ps IH]; intros keys; simpl.
  { split; [by left | intros [?|(p & m & Hp & _)]; [done | by apply elem_of_nil in Hp]]. }
  rewrite IH, elem_of_fold_set_add. split.
  - intros [[?|(m & Hm & ->)]|(p' & m & Hp' & Hm & ->)].
    + by left.
    + right. exists p, m. split; [by left | done].
    + right. exists p', m. split; [by right | done].
  - intros [?|(p' & m & Hp' & Hm & ->)]; [left; by left|].
    apply elem_of_cons in Hp' as [->|Hp'].
    + left. right. by exists m.
    + right. by exists p', m.
Qed.

Lemma elem_of_scan_content text keys k :
  k ∈ scan_content text keys ↔ k ∈ keys ∨ key_of_text text k.
Proof. apply elem_of_scan_patterns. Qed.

Lemma dirent_tree_ind (P : dirent → Prop) :
  (∀ name content, P (FileEntry name content)) →
  (∀ name, P (DirectoryEntry name None)) →
  (∀ name entries, Forall P entries → P (DirectoryEntry name (Some entries))) →
  (∀ name, P (OtherEntry name)) →
  ∀ e, P e.
Proof.
  intros Hfile Hlocked Hdir Hother. fix IH 1.
  intros [name content|name [entries|]|name];
    [apply Hfile | | apply Hlocked | apply Hother].
  apply Hdir. induction entries as [|e entries IHe]; constructor;
    [apply IH | exact IHe].
Qed.

Section ScannerProperties.
Context {H : Host}.

Lemma visit_entry_directory dir name entries st :
  visit_entry dir (DirectoryEntry name (Some entries)) st =
    if set_has skipped_directories name then st
    else fold_left (fun st e => visit_entry (path_join [dir; name]) e st)
           entries st.
Proof.
  cbn [visit_entry dirent_name].
  destruct (set_has skipped_directories name); [done|].
  revert st. induction entries as [|e entries IH]; intros st; [done|].
  cbn [fold_left]. apply IH.
Qed.

Lemma elem_of_visit_all (entries : list dirent) dir st k :
  Forall (fun e => ∀ dir st k,
            k ∈ scan_keys (visit_entry dir e st) ↔
            k ∈ scan_keys st ∨ ∃ text, scanned_text e text ∧ key_of_text text k)
         entries →
  k ∈ scan_keys (fold_left (fun st e => visit_entry dir e st) entries st) ↔
  k ∈ scan_keys st ∨
  ∃ e text, e ∈ entries ∧ scanned_text e text ∧ key_of_text text k.
Proof.
  intros Hall. revert st. induction Hall as [|e entries He Hall IH]; intros st.
  { simpl. split; [by left | intros [?|(e & ? & He & _)]; [done | by apply elem_of_nil in He]]. }
  cbn [fold_left]. rewrite IH, He. split.
  - intros [[?|(text & Ht & Hk)]|(e' & text & He' & Ht & Hk)].
    + by left.
    + right. exists e, text. split; [by left | done].
    + right. exists e', text. split; [by right | done].
  - intros [?|(e' & text & He' & Ht & Hk)]; [left; by left|].
    apply elem_of_cons in He' as [->|He'].
    + left. right. by exists text.
    + right. by exists e', text.
Qed.

Lemma elem_of_visit_entry e dir st k :
  k ∈ scan_keys (visit_entry dir e st) ↔
  k ∈ scan_keys st ∨ ∃ text, scanned_text e text ∧ key_of_text text k.
Proof.
  revert dir st k. induction e as [name content|name|name entries IH|name]
    using dirent_tree_ind; intros dir st k.
  - cbn [visit_entry]. destruct (fileExtensions_test name) eqn:Htest.
    + destruct content as [text|]; cbn [scan_keys scan_fail].
      * rewrite elem_of_scan_content. split.
        -- intros [?|Hk]; [by left|]. right. exists text. split; [by constructor | done].
        -- intros [?|(text' & Ht & Hk)]; [by left|]. inversion Ht; subst. by right.
      * split; [by left|]. intros [?|(text' & Ht & _)]; [done | inversion Ht].
    + split; [by left|]. intros [?|(text' & Ht & _)]; [done|].
      inversion Ht; subst. congruence.
  - cbn [visit_entry]. destruct (set_has skipped_directories name);
      cbn [scan_keys scan_fail];
      (split; [by left|]; intros [?|(text' & Ht & _)]; [done | inversion Ht]).
  - rewrite visit_entry_directory.
    destruct (set_has skipped_directories name) eqn:Hskip.
    + split; [by left|]. intros [?|(text' & Ht & _)]; [done|].
      inversion Ht; subst. congruence.
    + rewrite (elem_of_visit_all entries _ st k IH). split.
      * intros [?|(e & text & He & Ht & Hk)]; [by left|]. right. exists text.
        split; [by econstructor | done].
      * intros [?|(text & Ht & Hk)]; [by left|]. right.
        inversion Ht; subst. by eexists _, text.
  - cbn [visit_entry]. split; [by left|].
    intros [?|(text' & Ht & _)]; [done | inversion Ht].
Qed.

Lemma elem_of_traverseDirectory dir listing st k :
  k ∈ scan_keys (traverseDirectory dir listing st) ↔
  k ∈ scan_keys st ∨
  ∃ entries e text, listing = Some entries ∧ e ∈ entries ∧
                    scanned_text e text ∧ key_of_text text k.
Proof.
  destruct listing as [entries|]; cbn [traverseDirectory scan_keys scan_fail].
  - rewrite elem_of_visit_all.
    2:{ apply Forall_forall. intros e _. apply elem_of_visit_entry. }
    split.
    + intros [?|(e & text & ? & ? & ?)]; [by left|]. right. by exists entries, e, text.
    + intros [?|(entries' & e & text & [= <-] & ? & ? & ?)]; [by left|].
      right. by exists e, text.
  - split; [by left|]. by intros [?|(? & ? & ? & ? & _)].
Qed.

Lemma scanSourceFiles_keys_raw
    (dirs : list (string * option (list dirent))) (k : string) :
  k ∈ scan_keys (scanSourceFiles dirs) ↔
  ∃ dir entries e text,
    (dir, Some entries) ∈ dirs ∧ e ∈ entries ∧
    scanned_text e text ∧ key_of_text text k.
Proof.
  unfold scanSourceFiles.
  assert (Hfold : ∀ st,
    k ∈ scan_keys (fold_left (fun st d => traverseDirectory (fst d) (snd d) st) dirs st) ↔
    k ∈ scan_keys st ∨
    ∃ dir entries e text,
      (dir, Some entries) ∈ dirs ∧ e ∈ entries ∧
      scanned_text e text ∧ key_of_text text k).
  { induction dirs as [|[dir listing] dirs IH]; intros st.
    { simpl. split; [by left|].
      intros [?|(? & ? & ? & ? & Hd & _)]; [done | by apply elem_of_nil in Hd]. }
    cbn [fold_left fst snd]. rewrite IH, elem_of_traverseDirectory. split.
    - intros [[?|(entries & e & text & -> & ? & ? & ?)]|(d & entries & e & text & ? & ? & ? & ?)].
      + by left.
      + right. exists dir, entries, e, text. split; [by left | done].
      + right. exists d, entries, e, text. split; [by right | done].
    - intros [?|(d & entries & e & text & Hd & ? & ? & ?)]; [left; by left|].
      apply elem_of_cons in Hd as [[= <- <-]|Hd].
      + left. right. by exists entries, e, text.
      + right. by exists d, entries, e, text. }
  rewrite Hfold. simpl. split; [|by right].
  intros [Hk|?]; [by apply elem_of_nil in Hk | done].
Qed.

(** X20.  The keys [scanSourceFiles] returns are exactly the cleaned keys
    that some pattern captures in the text of some file that can be read,
    has a source extension and is reached from one of the given directories
    through directories that can be listed and are not on the skip list.  A
    file or directory that cannot be read costs its own keys only; a skipped
    directory hides everything below it, at any depth. *)
Theorem scanSourceFiles_keys
    (dirs : list (string * option (list dirent))) (k : string) :
  k ∈ scan_keys (scanSourceFiles dirs) ↔
  ∃ dir entries e text,
    (dir, Some entries) ∈ dirs ∧ e ∈ entries ∧
    scanned_text e text ∧ key_of_text text k.
Proof. apply scanSourceFiles_keys_raw. Qed.

(** X21.  No key [scanSourceFiles] returns holds a colon (a name space and
    anything after a second colon are cut off) or one of the three quote
    characters. *)
Theorem scanSourceFiles_keys_clean
    (dirs : list (string * option (list dirent))) (k : string) :
  k ∈ scan_keys (scanSourceFiles dirs) →
  includes_char ":" k = false ∧
  ∀ c, is_quote c = true → includes_char c k = false.
Proof.
  intros Hk. apply scanSourceFiles_keys_raw in Hk
    as (dir & entries & e & text & _ & _ & _ & p & m & _ & Hm & ->).
  destruct (cleanKey_spec m) as [Hcolon Hkeep]. split; [done|].
  intros c Hc. apply Hkeep. by apply (exec_all_key _ _ _ _ _ Hm).
Qed.

(** X22.  The set of keys found below a directory does not depend on the
    order in which [fs.readdir] lists its entries. *)
Theorem traverseDirectory_any_order
    (currentDir : string) (entries entries' : list dirent) (st : ScanState)
    (k : string) :
  Permutation entries entries' →
  k ∈ scan_keys (traverseDirectory currentDir (Some entries) st) ↔
  k ∈ scan_keys (traverseDirectory currentDir (Some entries') st).
Proof.
  intros Hperm. rewrite !elem_of_traverseDirectory. split.
  - intros [?|(es & e & text & [= <-] & He & ? & ?)]; [by left|]. right.
    exists entries', e, text. split; [done|]. split; [by rewrite <- Hperm | done].
  - intros [?|(es & e & text & [= <-] & He & ? & ?)]; [by left|]. right.
    exists entries, e, text. split; [done|]. split; [by rewrite Hperm | done].
Qed.

End ScannerProperties.

(** ** A call the first pattern finds *)

(** A character of ASCII that is no white space begins no white space. *)
Lemma trim_start_ascii c s :
  is_space c = false → (nat_of_ascii c <? 128)%nat = true →
  trim_start (String c s) = String c s.
Proof.
  intros Hspace Hascii. apply Nat.ltb_lt in Hascii.
  cbn [trim_start]. rewrite Hspace.
  destruct s as [|b [|c' s]]; [done | |]; unfold space2.
  - replace (nat_of_ascii c =? 194)%nat with false
      by (symmetry; apply Nat.eqb_neq; lia). done.
  - replace (nat_of_ascii c =? 194)%nat with false
      by (symmetry; apply Nat.eqb_neq; lia).
    unfold space3.
    replace (nat_of_ascii c =? 225)%nat with false
      by (symmetry; apply Nat.eqb_neq; lia).
    replace (nat_of_ascii c =? 226)%nat with false
      by (symmetry; apply Nat.eqb_neq; lia).
    replace (nat_of_ascii c =? 227)%nat with false
      by (symmetry; apply Nat.eqb_neq; lia).
    replace (nat_of_ascii c =? 239)%nat with false
      by (symmetry; apply Nat.eqb_neq; lia).
    done.
Qed.

Lemma is_quote_not_space q :
  is_quote q = true → is_space q = false ∧ (nat_of_ascii q <? 128)%nat = true.
Proof.
  destruct q as [[] [] [] [] [] [] [] []]; vm_compute; intros Hq;
    try discriminate Hq; done.
Qed.

Lemma take_key_app k q rest :
  (∀ c, is_quote c = true → includes_char c k = false) →
  is_quote q = true →
  take_key (k +:+ String q rest) = (k, String q rest).
Proof.
  intros Hno Hq. induction k as [|c k IH].
  { rewrite append_nil_l. simpl. by rewrite Hq. }
  rewrite append_cons. simpl.
  destruct (is_quote c) eqn:Hc.
  { specialize (Hno c Hc). simpl in Hno. by rewrite Ascii.eqb_refl in Hno. }
  rewrite IH; [done|]. intros c' Hc'. specialize (Hno c' Hc'). simpl in Hno.
  by apply orb_false_iff in Hno as [_ ?].
Qed.

Lemma match_body_call q k q' post :
  k ≠ "" → (∀ c, is_quote c = true → includes_char c k = false) →
  is_quote q = true → is_quote q' = true →
  match_body false ")" ("t(" +:+ String q k +:+ String q' (String ")" post))
    = Some (k, post).
Proof.
  intros Hne Hno Hq Hq'.
  change ("t(" +:+ String q k +:+ String q' (String ")" post))
    with (String "t" (String "(" (String q (k +:+ String q' (String ")" post))))).
  unfold match_body. cbn [match_call]. rewrite Ascii.eqb_refl.
  rewrite (trim_start_ascii "(") by done.
  rewrite Ascii.eqb_refl. unfold match_argument.
  destruct (is_quote_not_space q Hq) as [Hs Ha].
  rewrite (trim_start_ascii q) by done.
  rewrite Hq, (take_key_app k q' _ Hno Hq').
  destruct k as [|c0 k]; [done|]. rewrite Hq'. cbn [negb orb andb].
  rewrite (trim_start_ascii ")") by done.
  by rewrite Ascii.eqb_refl.
Qed.

Lemma length_append (a b : string) :
  String.length (a +:+ b) = String.length a + String.length b.
Proof. induction a as [|c a IH]; [done|]. rewrite append_cons. simpl. by rewrite IH. Qed.

Lemma exec_all_skip p x post :
  exec_all p false (String.length x) (x +:+ post) = exec_all p false 0 post.
Proof.
  induction x as [|c x IH]; [by rewrite append_nil_l|].
  rewrite append_cons. simpl. destruct post; exact IH.
Qed.

Lemma exec_all_match p at_start c x k post :
  match_at p at_start (String c (x +:+ post)) = Some (k, post) →
  exec_all p at_start 0 (String c (x +:+ post)) = k :: exec_all p false 0 post.
Proof.
  intros Hmatch. cbn [exec_all]. rewrite Hmatch. f_equal.
  rewrite length_append.
  replace (String.length x + String.length post - String.length post)
    with (String.length x) by lia.
  apply exec_all_skip.
Qed.

Lemma match_call_other c s : Ascii.eqb c "t" = false → match_call (String c s) = None.
Proof. intros Hc. unfold match_call. by rewrite Hc. Qed.

Lemma exec_all_after_boundary pre b T k post at_start :
  includes_char "t" pre = false → is_word_char b = false →
  (∃ x, T = String "t" (x +:+ post)) →
  match_body false ")" T = Some (k, post) →
  exec_all StandardCall at_start 0 (pre +:+ String b T)
    = k :: exec_all StandardCall false 0 post.
Proof.
  intros Hpre Hb [x ->] Hbody.
  assert (Hbt : Ascii.eqb b "t" = false).
  { destruct (Ascii.eqb_spec b "t") as [->|]; [done | done]. }
  revert at_start. induction pre as [|c pre IH]; intros at_start.
  - rewrite append_nil_l.
    change (String b (String "t" (x +:+ post)))
      with (String b (String "t" x +:+ post)).
    apply exec_all_match. cbn [match_at]. unfold match_bounded.
    change (String "t" x +:+ post) with (String "t" (x +:+ post)).
    assert (match_body false ")" (String b (String "t" (x +:+ post))) = None) as ->.
    { unfold match_body. by rewrite match_call_other. }
    rewrite Hb. by destruct at_start.
  - simpl in Hpre. apply orb_false_iff in Hpre as [Hc Hpre].
    rewrite append_cons. cbn [exec_all].
    assert (match_at StandardCall at_start
              (String c (pre +:+ String b (String "t" (x +:+ post)))) = None) as ->.
    { cbn [match_at]. unfold match_bounded.
      assert (match_body false ")"
                (String c (pre +:+ String b (String "t" (x +:+ post)))) = None) as ->.
      { unfold match_body. by rewrite match_call_other. }
      assert (match_body false ")" (pre +:+ String b (String "t" (x +:+ post)))
              = None) as ->.
      { unfold match_body. destruct pre as [|c' pre'].
        - rewrite append_nil_l. by rewrite match_call_other.
        - rewrite append_cons. simpl in Hpre.
          apply orb_false_iff in Hpre as [Hc' _]. by rewrite match_call_other. }
      by destruct at_start, (is_word_char c). }
    by apply IH.
Qed.

(** X23.  A call of [t] with one argument is found by the first pattern
    whenever its key is not empty and holds no quote, whichever of the three
    quote characters opens it and whichever closes it, when the call stands
    at the very start of the text, or behind a character that is no word
    character and a text free of the letter t; the scan then goes on behind
    the closing parenthesis. *)
Theorem standard_call_detected
    (pre post k : string) (b q q' : ascii) :
  k ≠ "" → (∀ c, is_quote c = true → includes_char c k = false) →
  is_quote q = true → is_quote q' = true →
  includes_char "t" pre = false → is_word_char b = false →
  exec_all StandardCall true 0
    ("t(" +:+ String q k +:+ String q' (String ")" post))
    = k :: exec_all StandardCall false 0 post ∧
  exec_all StandardCall true 0
    (pre +:+ String b ("t(" +:+ String q k +:+ String q' (String ")" post)))
    = k :: exec_all StandardCall false 0 post.
Proof.
  intros Hne Hno Hq Hq' Hpre Hb.
  pose proof (match_body_call q k q' post Hne Hno Hq Hq') as Hbody.
  assert (Hshape : "t(" +:+ String q k +:+ String q' (String ")" post)
                   = String "t" ((String "(" (String q k) +:+ String q' ")") +:+ post)).
  { change ("t(" +:+ String q k +:+ String q' (String ")" post))
      with (String "t" (String "(" (String q (k +:+ String q' (String ")" post))))).
    rewrite !append_cons. do 3 f_equal.
    rewrite append_assoc. by rewrite !append_cons, append_nil_l. }
  split.
  - rewrite Hshape. apply exec_all_match. rewrite <- Hshape.
    cbn [match_at]. unfold match_bounded. by rewrite Hbody.
  - apply exec_all_after_boundary; [done | done | | done].
    eexists. exact Hshape.
Qed.

Lemma standard_call_detected_witness :
  exec_all StandardCall true 0 "t(`menu.${name}')" = ["menu.${name}"] ∧
  exec_all StandardCall true 0 "<p>{ t(`menu.${name}')"
    = "menu.${name}" :: exec_all StandardCall false 0 "".
Proof.
  split; [reflexivity|].
  apply (standard_call_detected "<p>{" "" "menu.${name}" " " "`" "'");
    [discriminate | | reflexivity | reflexivity | reflexivity | reflexivity].
  intros c Hc. destruct c as [[] [] [] [] [] [] [] []];
    first [discriminate Hc | reflexivity].
Defined.

Lemma scanSourceFiles_keys_clean_witness :
  scan_keys (scanSourceFiles (H := reference_host) project_sources)
    = ["home.title"; "save"; "cancel"; "one"] ∧
  includes_char ":" "save" = false ∧
  ∀ c, is_quote c = true → includes_char c "save" = false.
Proof.
  split; [reflexivity|].
  apply (scanSourceFiles_keys_clean (H := reference_host) project_sources "save").
  apply list_elem_of_In. simpl. tauto.
Defined.

Lemma traverseDirectory_any_order_witness :
  "cancel" ∈ scan_keys
    (traverseDirectory (H := reference_host) "/project/src/ui"
       (Some [FileEntry "Form.jsx" (Some "i18n.t('cancel')");
              FileEntry "Page.tsx" (Some "t('home.title')")])
       (mkScanState [] [])) ↔
  "cancel" ∈ scan_keys
    (traverseDirectory (H := reference_host) "/project/src/ui"
       (Some [FileEntry "Page.tsx" (Some "t('home.title')");
              FileEntry "Form.jsx" (Some "i18n.t('cancel')")])
       (mkScanState [] [])).
Proof.
  apply (traverseDirectory_any_order (H := reference_host)). apply perm_swap.
Defined.

(** * Counting: lines read by add-missing, keys removed by delete-unused *)

Section Counting.
Context {H : Host}.

Lemma add_missing_key_reads_one r s w w' :
  add_missing_key r s w = (Done tt, w') → ∃ a, stdin w = a :: stdin w'.
Proof.
  unfold add_missing_key. intros Hrun.
  apply io_bind_done in Hrun as (answer & w1 & Hask & Hrun).
  unfold askInput, io_bind, rl_question in Hask.
  destruct (stdin w) as [|a rest] eqn:Hin; [done|].
  injection Hask as _ <-. exists a. f_equal.
  apply io_bind_done in Hrun as ([] & w2 & Hen & Hes).
  assert (H2 : stdin w2 = rest).
  { destruct (negb (inEN s)); [by apply add_key_to_stdin in Hen|].
    by injection Hen as <-. }
  destruct (negb (inES s)); [apply add_key_to_stdin in Hes; congruence|].
  injection Hes as <-. done.
Qed.

Lemma add_missing_keys_read r sel w w' :
  io_for sel (add_missing_key r) w = (Done tt, w') →
  ∃ answers, stdin w = answers ++ stdin w' ∧ length answers = length sel.
Proof.
  revert w. induction sel as [|s sel IH]; intros w; simpl.
  { intros [= <-]. by exists []. }
  intros Hrun. apply io_bind_done in Hrun as ([] & w1 & Hone & Hrest).
  apply add_missing_key_reads_one in Hone as [a Ha].
  apply IH in Hrest as (answers & Hans & Hlen).
  exists (a :: answers). simpl. by rewrite Ha, Hans, Hlen.
Qed.

(** X24.  When add-missing resolves with keys selected, it has read the
    answer to its confirmation and, if that was a yes, exactly one further
    line for each selected key, in their order; nothing else is read. *)
Theorem addMissingKeys_reads_one_line_per_key
    (r : AnalysisResult) (w w' : World) :
  keysInCodeOnly r ≠ [] →
  addMissingKeys r w = (Done tt, w') →
  ∃ a answers,
    stdin w = a :: answers ++ stdin w' ∧
    length answers =
      if affirmative a then length (keysInCodeOnly r) else 0.
Proof.
  unfold addMissingKeys. intros Hsel Hrun.
  destruct (keysInCodeOnly r) as [|s sel] eqn:Hkeys; [done|].
  apply io_bind_done in Hrun as (proceed & w1 & Hask & Hrun).
  unfold askConfirmation, io_bind, rl_question in Hask.
  destruct (stdin w) as [|a rest] eqn:Hin; [done|].
  injection Hask as <- <-. exists a.
  destruct (affirmative a); cbn [negb] in Hrun.
  - apply add_missing_keys_read in Hrun as (answers & Hans & Hlen).
    exists answers. split; [by f_equal | done].
  - injection Hrun as <-. by exists [].
Qed.

End Counting.

Lemma remove_all_counts sts v n :
  NoDup (map (fun s => split_dot (key s)) sts) →
  (∀ s, s ∈ sts → ∃ l, leaf_at v (split_dot (key s)) l) →
  snd (remove_all v sts n) = n + length sts.
Proof.
  revert v n. induction sts as [|s sts IH]; intros v n Hdup Hleaf; simpl.
  { lia. }
  apply NoDup_cons in Hdup as [Hfresh Hdup].
  pose proof (split_dot_nonempty (key s)) as Hne.
  destruct (Hleaf s) as [l Hl]; [by left|].
  assert (Hb : fst (removeKey v (split_dot (key s))) = true).
  { apply removeKey_fst. split; [done|]. destruct Hl as [-> _]. by eexists. }
  pose proof (removeKey_leaf_at (split_dot (key s)) v) as Hafter.
  destruct (removeKey v (split_dot (key s))) as [b v']. simpl in Hb, Hafter.
  subst b. rewrite IH; [lia | done |].
  intros s' Hs'. destruct (Hleaf s') as [l' Hl']; [by right|].
  exists l'. apply Hafter; [done|]. split; [done|].
  intros Hpre. destruct (leaf_at_prefix _ _ _ _ _ Hl Hl' Hpre) as [Heq _].
  apply Hfresh. rewrite Heq. apply list_elem_of_fmap. by exists s'.
Qed.

(** X25.  The count delete-unused announces is the number of keys it was
    given, whenever these are distinct flattened keys of the file as loaded
    and the property names of the file are unique, non-empty and free of
    dots: every removal then returns [true]. *)
Theorem remove_all_removedCount (data : json) (unused : list KeyStatus) :
  unique_names data = true → plain_names data = true →
  NoDup (map key unused) →
  (∀ s, s ∈ unused → key s ∈ getKeys data "") →
  snd (remove_all data unused 0) = length unused.
Proof.
  intros Hu Hp Hdup Hkeys.
  assert (Hpath : ∀ s, s ∈ unused →
            ∃ l, leaf_at data (split_dot (key s)) l ∧
                 key s = join_path "" (split_dot (key s))).
  { intros s Hs. apply Hkeys, elem_of_getKeys in Hs as (q & l & Hq & Hk).
    pose proof (leaves_plain data q l Hp Hq) as Hplain.
    apply (elem_of_leaves _ _ _ Hu) in Hq as [Hne Hq].
    exists l. rewrite Hk, split_dot_join_path by done. done. }
  rewrite remove_all_counts; [done | |].
  - clear Hkeys. induction unused as [|s unused IH]; simpl; [constructor|].
    apply NoDup_cons in Hdup as [Hfresh Hdup]. constructor.
    + intros Hin. apply list_elem_of_fmap in Hin as (s' & Heq & Hs').
      apply Hfresh. apply list_elem_of_fmap. exists s'. split; [|done].
      destruct (Hpath s) as (_ & _ & ->); [by left|].
      destruct (Hpath s') as (_ & _ & ->); [by right|]. by rewrite Heq.
    + apply IH; [done|]. intros s' Hs'. apply Hpath. by right.
  - intros s Hs. destruct (Hpath s Hs) as (l & Hl & _). by exists l.
Qed.

Lemma remove_all_removedCount_witness :
  remove_all greetings_tree
    [mkKeyStatus "title" false true false;
     mkKeyStatus "common.greeting" false true true] 0
  = (JObj [("common", JObj [("farewell", JStr "Bye")])], 2) ∧
  snd (remove_all greetings_tree
         [mkKeyStatus "title" false true false;
          mkKeyStatus "common.greeting" false true true] 0) = 2.
Proof.
  split; [reflexivity|].
  apply (remove_all_removedCount greetings_tree
           [mkKeyStatus "title" false true false;
            mkKeyStatus "common.greeting" false true true]);
    [reflexivity | reflexivity | |].
  - repeat constructor; rewrite ?list_elem_of_In; simpl; intuition discriminate.
  - intros s Hs. apply list_elem_of_In in Hs. simpl in Hs.
    destruct Hs as [<-|[<-|[]]]; apply list_elem_of_In; simpl; tauto.
Defined.

Lemma addMissingKeys_reads_one_line_per_key_witness :
  ∃ w',
    keysInCodeOnly a_and_empty_report ≠ [] ∧
    addMissingKeys (H := reference_host) a_and_empty_report
      (after_input a_and_empty ["y"; ""; " hola  "; "left"]) = (Done tt, w') ∧
    ∃ a answers,
      ["y"; ""; " hola  "; "left"] = a :: answers ++ stdin w' ∧
      length answers =
        if affirmative a then length (keysInCodeOnly a_and_empty_report) else 0.
Proof.
  eexists. split; [discriminate|]. split; [vm_compute; reflexivity|].
  refine (addMissingKeys_reads_one_line_per_key (H := reference_host)
            a_and_empty_report
            (after_input a_and_empty ["y"; ""; " hola  "; "left"]) _ _ _);
    [discriminate | vm_compute; reflexivity].
Defined.

(** * The pattern with a name space and the first pattern *)

Lemma match_argument_namespaced closing s r :
  match_argument true closing s = Some r →
  match_argument false closing s = Some r.
Proof.
  unfold match_argument.
  destruct (trim_start s) as [|q s']; [done|].
  destruct (is_quote q); [|done].
  destruct (take_key s') as [k after].
  destruct k as [|c0 k]; [done|]. destruct after as [|q' after']; [done|].
  cbn [negb orb].
  destruct (is_quote q'); [|done].
  destruct (namespaced_key (String c0 k)) eqn:Hns; [|done].
  cbn [andb orb]. done.
Qed.

Lemma match_body_namespaced closing s r :
  match_body true closing s = Some r → match_body false closing s = Some r.
Proof.
  unfold match_body. destruct (match_call s); [|done].
  apply match_argument_namespaced.
Qed.

Lemma match_body_first_letter namespaced closing c s r :
  match_body namespaced closing (String c s) = Some r → c = "t"%char.
Proof.
  unfold match_body, match_call.
  destruct (Ascii.eqb_spec c "t"); [done | done].
Qed.

(** X26.  Wherever the pattern with a name space matches, the first pattern
    matches too, with the same key and the same end: the fourth pattern is
    the first one restricted to keys that hold an inner colon, and such a
    key is one whose [cleanKey] differs from it. *)
Theorem namespaced_match_is_standard_match
    (at_start : bool) (s k rest : string) :
  match_at NamespacedCall at_start s = Some (k, rest) →
  match_at StandardCall at_start s = Some (k, rest) ∧
  namespaced_key k = true ∧ includes_char ":" k = true.
Proof.
  cbn [match_at]. unfold match_bounded. intros Hmatch.
  assert (Hkey : ∀ s0, match_body true ")" s0 = Some (k, rest) →
            namespaced_key k = true).
  { intros s0. unfold match_body. destruct (match_call s0) as [s1|]; [|done].
    unfold match_argument. destruct (trim_start s1) as [|q s']; [done|].
    destruct (is_quote q); [|done].
    destruct (take_key s') as [k' after].
    destruct k' as [|c0 k']; [done|]. destruct after as [|q' after']; [done|].
    cbn [negb orb]. destruct (is_quote q'); [|done].
    destruct (namespaced_key (String c0 k')) eqn:Hns; [|done]. cbn [andb].
    destruct (trim_start after') as [|c rest']; [done|].
    destruct (Ascii.eqb c ")"); [|done]. by intros [= <- _]. }
  assert (Hcolon : namespaced_key k = true → includes_char ":" k = true).
  { clear. destruct k as [|c0 k]; [done|]. simpl. intros Hk.
    apply orb_true_iff. right. induction k as [|c k IH]; [done|].
    simpl in *. destruct k as [|c' k']; [done|].
    apply orb_true_iff in Hk as [->|Hk]; [done|].
    rewrite (IH Hk). by rewrite orb_true_r. }
  destruct at_start.
  - destruct (match_body true ")" s) as [r|] eqn:Hfirst.
    + injection Hmatch as ->. rewrite (match_body_namespaced _ _ _ Hfirst).
      split; [done|]. pose proof (Hkey _ Hfirst). auto.
    + destruct s as [|c s']; [done|].
      destruct (is_word_char c) eqn:Hword; [done|].
      assert (match_body false ")" (String c s') = None) as ->.
      { destruct (match_body false ")" (String c s')) as [r|] eqn:Hb; [|done].
        apply match_body_first_letter in Hb as ->. done. }
      rewrite (match_body_namespaced _ _ _ Hmatch).
      split; [done|]. pose proof (Hkey _ Hmatch). auto.
  - destruct s as [|c s']; [done|].
    destruct (is_word_char c); [done|].
    rewrite (match_body_namespaced _ _ _ Hmatch).
    split; [done|]. pose proof (Hkey _ Hmatch). auto.
Qed.

Lemma namespaced_match_is_standard_match_witness :
  match_at NamespacedCall true "t('common:save') + t('x')"
    = Some ("common:save", " + t('x')") ∧
  match_at StandardCall true "t('common:save') + t('x')"
    = Some ("common:save", " + t('x')") ∧
  namespaced_key "common:save" = true ∧ includes_char ":" "common:save" = true.
Proof.
  split; [reflexivity|].
  apply (namespaced_match_is_standard_match true "t('common:save') + t('x')").
  reflexivity.
Defined.

(** * When [loadLocale] is silent *)

Section LoadMore.
Context {H : Host}.

Lemma after_error_ne w d : after_error w d ≠ w.
Proof.
  intros Heq. apply (f_equal stderr) in Heq. simpl in Heq.
  apply (f_equal length) in Heq. rewrite length_app in Heq. simpl in Heq. lia.
Qed.

(** X27.  [loadLocale] returns [null] without printing anything in two
    cases only: the file is missing, or it holds the JSON text [null].  A
    file that cannot be read for another reason, or that does not parse,
    always leaves a diagnostic. *)
Theorem loadLocale_silent_null_iff (locale dir : string) (w : World) :
  loadLocale locale dir w = (Done JNull, w) ↔
  files w !! locale_file locale dir = None ∨
  ∃ content, files w !! locale_file locale dir = Some (File content) ∧
             JSON_parse content = Parsed JNull.
Proof.
  rewrite loadLocale_cases.
  destruct (files w !! locale_file locale dir) as [[content|]|].
  - destruct (JSON_parse content) as [v|message] eqn:Hparse; split.
    + intros [= ->]. right. by exists content.
    + intros [?|(c & [= <-] & Hc)]; [done|]. rewrite Hparse in Hc.
      by injection Hc as ->.
    + intros [= Hw]. by apply after_error_ne in Hw.
    + intros [?|(c & [= <-] & Hc)]; [done|]. by rewrite Hparse in Hc.
  - split.
    + intros [= Hw]. by apply after_error_ne in Hw.
    + by intros [?|(c & ? & _)].
  - split; [by left | done].
Qed.

End LoadMore.
